(** * html_parser.c: tokenizer and tree builder of the browser engine

    A shallow embedding of [src/html_parser.c] ([tokenize], [build_dom]
    with [create_node] and [add_child], [print_tree], [free_node] and
    [main]), the verification of the properties the specification states
    about the tokenizer and the tree builder, and of further properties of
    the code.

    Conventions of the embedding.
    - A C string is the list of the bytes stored before its terminator;
      reading one position past the list yields the terminator [NUL].
      [strlen] stops at the first [NUL], as the C function does.
    - [int] and [size_t] variables are integers of [Z].  The only signed
      arithmetic that could leave the range of [int] is the doubling of
      an array capacity; it is checked and reported as [IntOverflow].
    - Every access to one of the fixed-size arrays ([buffer], [tag_name],
      [stack]) is bounds checked: an access outside the array is undefined
      behaviour in C and ends the run with an [error] here.
    - [malloc], [realloc] and [strdup] are assumed to succeed.  The heap of
      [Node] objects is a list; a pointer is an index into it, and
      allocation appends.
    - The loops carry fuel; a loop that does not finish within its fuel
      ends the run with [OutOfFuel].  That this never happens is part of
      what is proved.
    - Of the running time, the calls of [strlen(html)] in the loop tests
      of [tokenize] are counted ([strlen_calls]); the ghost counter
      [steps] counts loop bodies only.
    - What [printf] writes is the result of the function that writes it, a
      list of characters.
    - [free_node] runs on the list of the blocks that are allocated; a
      second [free] of a block, and a read from a block that has been
      freed, end the run with a [fault]. *)

From Stdlib Require Import ZArith Lia Ascii String.
From stdpp Require Import base list strings.

Open Scope Z_scope.

(** ** Results of a run *)

Inductive error : Type :=
  | BufferOutOfBounds (i : Z)    (* buffer[i], i outside 0..1023 *)
  | TagNameOutOfBounds (i : Z)   (* tag_name[i], i outside 0..255 *)
  | StackOutOfBounds (i : Z)     (* stack[i], i outside 0..127 *)
  | StackUninitialised (i : Z)   (* stack[i] read before any write *)
  | TokensOutOfBounds (i : Z)    (* tokens[i], i outside the allocation *)
  | ChildrenOutOfBounds (i : Z)  (* children[i], i outside the allocation *)
  | DanglingPointer              (* a Node* that was never allocated *)
  | StringUnterminated           (* strdup ran off the end of an array *)
  | IntOverflow                  (* capacity * 2 does not fit an int *)
  | OutOfFuel.                   (* a loop did not finish within its bound *)

Inductive result (A : Type) : Type :=
  | Ok (a : A)
  | Err (e : error).
Arguments Ok {A} a.
Arguments Err {A} e.

#[global] Instance result_ret : MRet result := fun A a => Ok a.
#[global] Instance result_bind : MBind result := fun A B k r =>
  match r with
  | Ok a => k a
  | Err e => Err e
  end.

(** ** C strings and character arrays *)

Definition NUL : ascii := Ascii.zero.
Definition INT_MAX : Z := 2147483647.

(** [strlen s]: the number of bytes before the first terminator. *)
Fixpoint strlen (s : list ascii) : Z :=
  match s with
  | [] => 0
  | c :: r => if Ascii.eqb c NUL then 0 else 1 + strlen r
  end.

(** [s[i]]; the byte behind the last one of the list is the terminator. *)
Definition char_at (s : list ascii) (i : Z) : ascii :=
  if i <? 0 then NUL else default NUL (s !! Z.to_nat i).

(** [a[i] = c] on an array of [length a] elements. *)
Definition array_set {A : Type} (oob : Z -> error) (a : list A) (i : Z) (c : A)
  : result (list A) :=
  if (0 <=? i) && (i <? Z.of_nat (length a))
  then Ok (<[Z.to_nat i := c]> a)
  else Err (oob i).

(** The bytes of an array up to its first terminator. *)
Fixpoint until_nul (a : list ascii) : option (list ascii) :=
  match a with
  | [] => None
  | c :: r => if Ascii.eqb c NUL then Some []
              else option_map (cons c) (until_nul r)
  end.

(** [strdup(a)] for a character array [a]. *)
Definition strdup (a : list ascii) : result string :=
  match until_nul a with
  | Some l => Ok (string_of_list_ascii l)
  | None => Err StringUnterminated
  end.

(** [capacity *= 2] on an [int]. *)
Definition double_capacity (capacity : Z) : result Z :=
  if (capacity * 2 <=? INT_MAX) && (- INT_MAX - 1 <=? capacity * 2)
  then Ok (capacity * 2)
  else Err IntOverflow.

(** ** Tokens *)

Inductive TokenType : Type := StartTag | EndTag | Text.

#[global] Instance TokenType_eq_dec : EqDecision TokenType.
Proof. solve_decision. Defined.

Record Token : Type := mkToken {
  type : TokenType;
  data : string            (* tag name or text content *)
}.

(** ** The tokenizer *)

(** The variables of [tokenize].  [tokens] holds the first [token_count]
    entries of [*tokens]; [steps] is a ghost counter of the loop bodies
    executed so far (outer and inner loop), which the C code does not
    have.  It counts iterations and is no measure of the running time: a
    test of a loop calls [strlen(html)], and these calls are counted by
    [strlen_calls] below. *)
Record tok_state : Type := mkTok {
  tokens : list Token;
  token_capacity : Z;
  pos : Z;
  buffer : list ascii;
  buffer_pos : Z;
  steps : Z
}.

Definition token_count (st : tok_state) : Z := Z.of_nat (length (tokens st)).

(** Lines 89-95 (and 113-119, 130-136): grow [*tokens] if it is full,
    store a token of type [ty] with data [strdup(a)] at index
    [*token_count], and count it. *)
Definition push_token (ty : TokenType) (a : list ascii) (st : tok_state)
  : result tok_state :=
  capacity ← (if token_count st >=? token_capacity st
               then double_capacity (token_capacity st)
               else Ok (token_capacity st));
  if token_count st <? capacity then
    d ← strdup a;
    Ok (mkTok (tokens st ++ [mkToken ty d]) capacity
              (pos st) (buffer st) (buffer_pos st) (steps st))
  else Err (TokensOutOfBounds (token_count st)).

(** Lines 87-98: flush the buffered text in front of a tag. *)
Definition flush_text (st : tok_state) : result tok_state :=
  if buffer_pos st >? 0 then
    b ← array_set BufferOutOfBounds (buffer st) (buffer_pos st) NUL;
    st1 ← push_token Text b
             (mkTok (tokens st) (token_capacity st) (pos st) b
                    (buffer_pos st) (steps st));
    b0 ← array_set BufferOutOfBounds (buffer st1) 0 NUL;
    Ok (mkTok (tokens st1) (token_capacity st1) (pos st1) b0 0 (steps st1))
  else Ok st.

(** Lines 128-137: flush the text that remains after the loop. *)
Definition flush_remaining (st : tok_state) : result tok_state :=
  if buffer_pos st >? 0 then
    b ← array_set BufferOutOfBounds (buffer st) (buffer_pos st) NUL;
    push_token Text b
      (mkTok (tokens st) (token_capacity st) (pos st) b
             (buffer_pos st) (steps st))
  else Ok st.

(** Lines 107-109: the inner loop copying the tag name.  Returns the final
    [pos], [tag_pos] and [tag_name]. *)
Fixpoint scan_tag_name (fuel : nat) (html : list ascii)
    (p tag_pos : Z) (tag_name : list ascii) : result (Z * Z * list ascii) :=
  if (p <? strlen html) && negb (Ascii.eqb (char_at html p) ">"%char) then
    match fuel with
    | O => Err OutOfFuel
    | S fuel' =>
        t ← array_set TagNameOutOfBounds tag_name tag_pos (char_at html p);
        scan_tag_name fuel' html (p + 1) (tag_pos + 1) t
    end
  else Ok (p, tag_pos, tag_name).

(** Lines 83-124: one execution of the body of the outer loop. *)
Definition tokenize_body (html : list ascii) (st : tok_state)
  : result tok_state :=
  let c := char_at html (pos st) in
  if Ascii.eqb c "<"%char then
    st1 ← flush_text st;
    let is_end_tag :=
      (pos st1 + 1 <? strlen html)
      && Ascii.eqb (char_at html (pos st1 + 1)) "/"%char in
    let p1 := pos st1 + (if is_end_tag then 2 else 1) in
    '(p2, tag_pos, tag_name) ←
       scan_tag_name (Z.to_nat (strlen html)) html p1 0 (replicate 256 NUL);
    t ← array_set TagNameOutOfBounds tag_name tag_pos NUL;
    let p3 := p2 + 1 in
    push_token (if is_end_tag then EndTag else StartTag) t
      (mkTok (tokens st1) (token_capacity st1) p3 (buffer st1)
             (buffer_pos st1) (steps st1 + 1 + tag_pos))
  else
    b ← array_set BufferOutOfBounds (buffer st) (buffer_pos st) c;
    Ok (mkTok (tokens st) (token_capacity st) (pos st + 1) b
              (buffer_pos st + 1) (steps st + 1)).

(** Lines 82-125: the outer loop. *)
Fixpoint tokenize_loop (fuel : nat) (html : list ascii) (st : tok_state)
  : result tok_state :=
  if pos st <? strlen html then
    match fuel with
    | O => Err OutOfFuel
    | S fuel' =>
        st' ← tokenize_body html st;
        tokenize_loop fuel' html st'
    end
  else Ok st.

(** Lines 77-80: the state in front of the loop. *)
Definition tokenize_init (token_capacity : Z) : tok_state :=
  mkTok [] token_capacity 0 (replicate 1024 NUL) 0 0.

(** [tokenize(html, &tokens, &token_count, &token_capacity)], with all its
    variables at the end of the run. *)
Definition tokenize_run (html : list ascii) (token_capacity : Z)
  : result tok_state :=
  st ← tokenize_loop (Z.to_nat (strlen html)) html
          (tokenize_init token_capacity);
  flush_remaining st.

(** The token sequence [tokenize] leaves in [*tokens]. *)
Definition tokenize (html : string) (token_capacity : Z)
  : result (list Token) :=
  st ← tokenize_run (list_ascii_of_string html) token_capacity;
  Ok (tokens st).

(** ** The DOM tree *)

(** A [Node*]: the index of the node in the heap. *)
Abbreviation ptr := nat.

(** [struct Node].  [children] holds the first [child_count] entries of the
    array of the same name. *)
Record Node : Type := mkNode {
  name : string;           (* tag name or text content *)
  children : list ptr;
  child_capacity : Z;
  is_text : Z              (* distinguishes text nodes from elements *)
}.

Definition child_count (n : Node) : Z := Z.of_nat (length (children n)).

(** Lines 28-36: allocate a node behind the last one of the heap. *)
Definition create_node (nm : string) (is_text : Z) (heap : list Node)
  : ptr * list Node :=
  (length heap, heap ++ [mkNode nm [] 4 is_text]).

(** Lines 39-45. *)
Definition add_child (parent child : ptr) (heap : list Node)
  : result (list Node) :=
  match heap !! parent with
  | None => Err DanglingPointer
  | Some n =>
      capacity ← (if child_count n >=? child_capacity n
                   then double_capacity (child_capacity n)
                   else Ok (child_capacity n));
      if child_count n <? capacity then
        Ok (<[parent := mkNode (name n) (children n ++ [child]) capacity
                               (is_text n)]> heap)
      else Err (ChildrenOutOfBounds (child_count n))
  end.

(** ** The tree builder *)

(** The variables of [build_dom].  The array [stack] comes from [malloc]:
    a slot holds [None] until it is written. *)
Record dom_state : Type := mkDom {
  heap : list Node;
  stack : list (option ptr);
  stack_size : Z
}.

(** [stack[i]] as an rvalue. *)
Definition stack_get (st : dom_state) (i : Z) : result ptr :=
  if (0 <=? i) && (i <? Z.of_nat (length (stack st))) then
    match stack st !! Z.to_nat i with
    | Some (Some p) => Ok p
    | _ => Err (StackUninitialised i)
    end
  else Err (StackOutOfBounds i).

(** Lines 148-157: the body of the loop, for the token [tokens[i]]. *)
Definition build_dom_body (t : Token) (st : dom_state) : result dom_state :=
  match type t with
  | StartTag =>
      let '(node, h) := create_node (data t) 0 (heap st) in
      top ← stack_get st (stack_size st - 1);
      h' ← add_child top node h;
      s ← array_set StackOutOfBounds (stack st) (stack_size st) (Some node);
      Ok (mkDom h' s (stack_size st + 1))
  | EndTag =>
      if stack_size st >? 0                 (* close the current element *)
      then Ok (mkDom (heap st) (stack st) (stack_size st - 1))
      else Ok st
  | Text =>
      let '(text_node, h) := create_node (data t) 1 (heap st) in
      top ← stack_get st (stack_size st - 1);
      h' ← add_child top text_node h;
      Ok (mkDom h' (stack st) (stack_size st))
  end.

(** Lines 147-158: the loop over [tokens[0 .. token_count-1]]. *)
Fixpoint build_dom_loop (fuel : nat) (tokens : list Token)
    (token_count i : Z) (st : dom_state) : result dom_state :=
  if i <? token_count then
    match fuel with
    | O => Err OutOfFuel
    | S fuel' =>
        match (if i <? 0 then None else tokens !! Z.to_nat i) with
        | None => Err (TokensOutOfBounds i)
        | Some t =>
            st' ← build_dom_body t st;
            build_dom_loop fuel' tokens token_count (i + 1) st'
        end
    end
  else Ok st.

(** Lines 142-145: the root, alone on the stack. *)
Definition build_dom_init : result dom_state :=
  let '(root, h) := create_node "document" 0 [] in
  s ← array_set StackOutOfBounds (replicate 128 None) 0 (Some root);
  Ok (mkDom h s 1).

(** [build_dom(tokens, token_count)] with its variables at the end of the
    loop. *)
Definition build_dom_run (tokens : list Token) (token_count : Z)
  : result dom_state :=
  st ← build_dom_init;
  build_dom_loop (Z.to_nat token_count) tokens token_count 0 st.

(** The pointer [build_dom] returns, and the heap it points into.  The
    root is the first node allocated. *)
Definition build_dom (tokens : list Token) (token_count : Z)
  : result (ptr * list Node) :=
  st ← build_dom_run tokens token_count;
  Ok (0%nat, heap st).

(** The tree builder on a whole token sequence. *)
Definition build_tree (tokens : list Token) : result (ptr * list Node) :=
  build_dom tokens (Z.of_nat (length tokens)).

(** Steps 1 and 2 of [main] for an arbitrary input. *)
Definition parse (html : string) : result (ptr * list Node) :=
  toks ← tokenize html 16;
  build_tree toks.

(** ** Reading a tree off the heap *)

#[warnings="-register-all"]
Inductive Tree : Type :=
  | TreeNode (name : string) (is_text : Z) (kids : list Tree).

(** The tree below the pointer [p], as [print_tree] walks it. *)
Fixpoint tree_of (fuel : nat) (h : list Node) (p : ptr) : option Tree :=
  match fuel with
  | O => None
  | S fuel' =>
      n ← h !! p;
      kids ← mapM (tree_of fuel' h) (children n);
      Some (TreeNode (name n) (is_text n) kids)
  end.

Definition tree_of_dom (d : ptr * list Node) : option Tree :=
  tree_of (length (snd d)) (snd d) (fst d).

Definition Element (nm : string) (kids : list Tree) : Tree :=
  TreeNode nm 0 kids.
Definition TextNode (text : string) : Tree := TreeNode text 1 [].

Definition parse_tree (html : string) : result (option Tree) :=
  d ← parse html;
  Ok (tree_of_dom d).


(** ** Notions the properties are stated with *)

(** The bytes [s[a .. b-1]]. *)
Definition slice (s : list ascii) (a b : Z) : list ascii :=
  take (Z.to_nat (b - a)) (drop (Z.to_nat a) s).

(** A ['<'] at position [p] with no ['>'] between it and the end of the
    input. *)
Definition unterminated (html : list ascii) (p : Z) : Prop :=
  0 <= p < strlen html /\ char_at html p = "<"%char /\
  ">"%char ∉ slice html (p + 1) (strlen html).

#[global] Instance unterminated_dec (html : list ascii) (p : Z) :
  Decision (unterminated html p).
Proof. unfold unterminated. apply _. Defined.

(** The first such ['<'] of the input. *)
Definition first_unterminated (html : list ascii) (p : Z) : Prop :=
  unterminated html p /\ forall r, 0 <= r < p -> ~ unterminated html r.

(** The token the tokenizer makes of the tag that opens at position [p] and
    runs to the end of the input. *)
Definition open_tag_token (html : list ascii) (p : Z) : Token :=
  if (p + 1 <? strlen html) && Ascii.eqb (char_at html (p + 1)) "/"%char
  then mkToken EndTag (string_of_list_ascii (slice html (p + 2) (strlen html)))
  else mkToken StartTag
         (string_of_list_ascii (slice html (p + 1) (strlen html))).

(** Two tokens that differ at most in the name of an end tag. *)
Definition same_but_end_name (t1 t2 : Token) : Prop :=
  type t1 = type t2 /\ (type t1 <> EndTag -> data t1 = data t2).

(** The loop of [build_dom] as a recursion over the tokens left. *)
Fixpoint build_dom_fold (ts : list Token) (st : dom_state)
  : result dom_state :=
  match ts with
  | [] => Ok st
  | t :: r => st' ← build_dom_body t st; build_dom_fold r st'
  end.


(** The nodes of a tree read off the heap: the tree and all its
    subtrees. *)
Fixpoint tree_nodes (t : Tree) : list Tree :=
  match t with
  | TreeNode _ _ kids => t :: concat (map tree_nodes kids)
  end.

Definition tree_is_text (t : Tree) : Z :=
  match t with TreeNode _ it _ => it end.
Definition tree_kids (t : Tree) : list Tree :=
  match t with TreeNode _ _ kids => kids end.

(** The text waiting in [buffer]. *)
Definition pending (st : tok_state) : list ascii :=
  take (Z.to_nat (buffer_pos st)) (buffer st).

(** The tokens a flush appends. *)
Definition flushed (st : tok_state) : list Token :=
  if buffer_pos st >? 0
  then [mkToken Text (string_of_list_ascii (pending st))]
  else [].

(** [buffer] holds [buffer_pos] bytes of the input, none of which is a
    terminator. *)
Definition buf_ok (st : tok_state) : Prop :=
  0 <= buffer_pos st /\ Forall (fun c => c <> NUL) (pending st) /\
  Z.of_nat (length (pending st)) = buffer_pos st.

(** What one execution of the body of the outer loop does to the variables
    of [tokenize] when no array access fails. *)
Definition body_post (html : list ascii) (st st' : tok_state) : Prop :=
  if Ascii.eqb (char_at html (pos st)) "<"%char then
    let is_end_tag :=
      (pos st + 1 <? strlen html)
      && Ascii.eqb (char_at html (pos st + 1)) "/"%char in
    let p1 := pos st + (if is_end_tag then 2 else 1) in
    exists p2,
      p1 <= p2 <= strlen html /\
      (forall q, p1 <= q < p2 -> char_at html q <> ">"%char) /\
      (p2 < strlen html -> char_at html p2 = ">"%char) /\
      tokens st' = tokens st ++ flushed st
                   ++ [mkToken (if is_end_tag then EndTag else StartTag)
                               (string_of_list_ascii (slice html p1 p2))] /\
      pos st' = p2 + 1 /\ buffer_pos st' = 0 /\
      steps st' = steps st + 1 + (p2 - p1)
  else
    tokens st' = tokens st /\ pos st' = pos st + 1 /\
    buffer_pos st' = buffer_pos st + 1 /\
    pending st' = pending st ++ [char_at html (pos st)] /\
    steps st' = steps st + 1.

(** The heap and the stack fit together: text nodes have no children, every
    pointer on the stack is an element of the heap, and every child pointer
    is a node of the heap that was allocated after its parent. *)
Definition dom_ok (st : dom_state) : Prop :=
  (forall p n, heap st !! p = Some n -> is_text n <> 0 -> children n = []) /\
  (forall i p, stack st !! i = Some (Some p) ->
               exists n, heap st !! p = Some n /\ is_text n = 0) /\
  (forall p n c, heap st !! p = Some n -> c ∈ children n ->
                 (p < c < length (heap st))%nat).

(** The token sequences on which [build_dom] stays inside [stack]: a start
    tag or a text needs an open element ([stack_size >= 1]), a start tag
    also a free slot ([stack_size <= 127]). *)
Fixpoint nesting_ok (stack_size : Z) (toks : list Token) : bool :=
  match toks with
  | [] => true
  | t :: r =>
      match type t with
      | StartTag =>
          (1 <=? stack_size) && (stack_size <=? 127)
          && nesting_ok (stack_size + 1) r
      | EndTag =>
          nesting_ok (if stack_size >? 0 then stack_size - 1 else stack_size) r
      | Text => (1 <=? stack_size) && nesting_ok stack_size r
      end
  end.

(** The sizes the definedness of [build_dom] depends on. *)
Definition dom_fits (st : dom_state) : Prop :=
  length (stack st) = 128%nat /\ 0 <= stack_size st <= 128 /\
  (forall i, (i < Z.to_nat (stack_size st))%nat ->
             exists p, stack st !! i = Some (Some p) /\
                       (p < length (heap st))%nat) /\
  (forall p n, heap st !! p = Some n ->
               4 <= child_capacity n /\ child_count n <= child_capacity n /\
               child_count n < Z.of_nat (length (heap st))).

(** What the definedness proof of the tokenizer keeps track of: the arrays
    have their declared sizes and the counters stay below them. *)
Definition fits (st : tok_state) : Prop :=
  buf_ok st /\ length (buffer st) = 1024%nat /\
  buffer_pos st <= pos st /\
  0 < token_capacity st /\ token_count st <= token_capacity st /\
  token_count st + Z.of_nat (length (flushed st)) <= pos st.

(** The pointers of the tree below [p], parents in front of their
    children. *)
Fixpoint tree_ptrs (fuel : nat) (h : list Node) (p : ptr)
  : option (list ptr) :=
  match fuel with
  | O => None
  | S fuel' =>
      n ← h !! p;
      ks ← mapM (tree_ptrs fuel' h) (children n);
      Some (p :: concat ks)
  end.

(** The tree below the root consists of all the nodes of the heap, each of
    them once. *)
Definition tree_shape (st : dom_state) : Prop :=
  exists l, tree_ptrs (length (heap st)) (heap st) 0 = Some l /\
            l ≡ₚ seq 0 (length (heap st)).

(** ** Notions for the further properties *)

(** The bytes of the C string [s]: what lies in front of the terminator. *)
Definition c_string (s : list ascii) : list ascii := slice s 0 (strlen s).

(** The markup a token stands for. *)
Definition render_token (t : Token) : list ascii :=
  match type t with
  | Text => list_ascii_of_string (data t)
  | StartTag => "<"%char :: list_ascii_of_string (data t) ++ [">"%char]
  | EndTag =>
      "<"%char :: "/"%char :: list_ascii_of_string (data t) ++ [">"%char]
  end.

Definition render (toks : list Token) : list ascii :=
  concat (map render_token toks).

(** The bytes a token of either kind can carry. *)
Definition token_wf (t : Token) : Prop :=
  (NUL ∉ list_ascii_of_string (data t)) /\
  match type t with
  | Text =>
      data t <> EmptyString /\ ("<"%char ∉ list_ascii_of_string (data t))
  | StartTag =>
      (">"%char ∉ list_ascii_of_string (data t)) /\
      head (list_ascii_of_string (data t)) <> Some "/"%char
  | EndTag => ">"%char ∉ list_ascii_of_string (data t)
  end.

(** The invariant of the round trip: the tokens and the pending text spell
    the input read so far; behind a tag without ['>'] the tokens spell the
    input and a ['>']. *)
Definition spelled (html : list ascii) (st : tok_state) : Prop :=
  (pos st <= strlen html /\
   render (tokens st) ++ pending st = slice html 0 (pos st)) \/
  (pos st = strlen html + 1 /\ buffer_pos st = 0 /\
   render (tokens st) = c_string html ++ [">"%char] /\
   exists p, unterminated html p).

(** No two neighbours in the list are [Text] tokens. *)
Fixpoint no_adjacent_text (toks : list Token) : Prop :=
  match toks with
  | t1 :: ((t2 :: _) as r) =>
      ~ (type t1 = Text /\ type t2 = Text) /\ no_adjacent_text r
  | _ => True
  end.

(** The payload of a token fits the array it was copied from. *)
Definition token_fits (t : Token) : Prop :=
  match type t with
  | Text => (String.length (data t) <= 1023)%nat
  | _ => (String.length (data t) <= 255)%nat
  end.

(** [top] lies on the path that leads from [p] to the last child, and on
    to its last child, and so on. *)
Inductive on_spine (h : list Node) (top : ptr) : ptr -> Prop :=
  | spine_here : on_spine h top top
  | spine_down p n c :
      h !! p = Some n -> last (children n) = Some c -> on_spine h top c ->
      on_spine h top p.

(** The open elements: the live part of [stack] starts with the root, its
    pointers grow, and each entry is the last child of the entry below. *)
Definition stack_chain (st : dom_state) : Prop :=
  (forall i, (i < Z.to_nat (stack_size st))%nat ->
             exists p, stack st !! i = Some (Some p)) /\
  (0 < stack_size st -> stack st !! 0%nat = Some (Some 0%nat)) /\
  (forall i j p q, (i < j < Z.to_nat (stack_size st))%nat ->
                   stack st !! i = Some (Some p) ->
                   stack st !! j = Some (Some q) -> (p < q)%nat) /\
  (forall i p q, (S i < Z.to_nat (stack_size st))%nat ->
                 stack st !! i = Some (Some p) ->
                 stack st !! S i = Some (Some q) ->
                 exists n, heap st !! p = Some n /\
                           last (children n) = Some q).

(** Name and kind of a node of the heap, of a node of the tree that was read
    off the heap, and of the node that is made of a token. *)
Definition node_tag (n : Node) : string * Z := (name n, is_text n).
Definition tree_tag (t : Tree) : string * Z :=
  match t with TreeNode nm it _ => (nm, it) end.
Definition token_tag (t : Token) : string * Z :=
  (data t, match type t with Text => 1 | _ => 0 end).

(** ** The builder on trees *)

(** [top] is reached from [p] by [d] steps, each to the last child. *)
Inductive spine_at (h : list Node) (top : ptr) : nat -> ptr -> Prop :=
  | spine_at_here : spine_at h top 0 top
  | spine_at_down d p n c :
      h !! p = Some n -> last (children n) = Some c -> spine_at h top d c ->
      spine_at h top (S d) p.

Fixpoint map_last {A : Type} (f : A -> A) (l : list A) : list A :=
  match l with
  | [] => []
  | x :: r =>
      match r with
      | [] => [f x]
      | _ :: _ => x :: map_last f r
      end
  end.

(** [leaf] becomes the last child of the node that lies [depth] steps down
    the last-child path of [t]. *)
Fixpoint graft (depth : nat) (leaf t : Tree) {struct depth} : Tree :=
  match t with
  | TreeNode nm it kids =>
      match depth with
      | O => TreeNode nm it (kids ++ [leaf])
      | S d => TreeNode nm it (map_last (graft d leaf) kids)
      end
  end.

(** What one token does to the tree while [size] elements are open:
    the body of the loop of [build_dom] without the heap, and with no more
    of the stack than its size. *)
Definition grow_step (t : Token) (s : Tree * Z) : Tree * Z :=
  let '(tree, size) := s in
  match type t with
  | StartTag =>
      (graft (Z.to_nat (size - 1)) (Element (data t) []) tree, size + 1)
  | EndTag => (tree, if size >? 0 then size - 1 else size)
  | Text => (graft (Z.to_nat (size - 1)) (TextNode (data t)) tree, size)
  end.

Fixpoint grow (toks : list Token) (s : Tree * Z) : Tree * Z :=
  match toks with
  | [] => s
  | t :: r => grow r (grow_step t s)
  end.

Definition grown (toks : list Token) : Tree :=
  fst (grow toks (Element "document" [], 1)).

(** The number of levels of a tree. *)
Fixpoint height (t : Tree) : nat :=
  match t with
  | TreeNode _ _ kids => S (foldr Nat.max 0%nat (map height kids))
  end.

(** ** Printing the tree *)

(** The bytes written to the standard output are a list of characters. *)
Definition newline : ascii := ascii_of_nat 10.
Definition dquote : ascii := ascii_of_nat 34.

(** Lines 49 and 59: two blanks, [depth] times. *)
Definition indent (depth : Z) : list ascii :=
  concat (replicate (Z.to_nat depth) [" "%char; " "%char]).

(** Lines 49-54: the line that opens a node. *)
Definition open_line (nm : string) (is_text depth : Z) : list ascii :=
  indent depth ++
  (if is_text =? 0
   then ["<"%char] ++ list_ascii_of_string nm ++ [">"%char; newline]
   else list_ascii_of_string "Text: " ++ [dquote] ++ list_ascii_of_string nm
        ++ [dquote; newline]).

(** Lines 58-61: the line that closes an element below the root. *)
Definition close_line (nm : string) (is_text depth : Z) : list ascii :=
  if (is_text =? 0) && (depth >? 0)
  then indent depth ++ ["<"%char; "/"%char] ++ list_ascii_of_string nm
       ++ [">"%char; newline]
  else [].

(** Lines 55-57: the loop over the children. *)
Fixpoint print_each (f : ptr -> result (list ascii)) (cs : list ptr)
  : result (list ascii) :=
  match cs with
  | [] => Ok []
  | c :: r =>
      out ← f c;
      rest ← print_each f r;
      Ok (out ++ rest)
  end.

(** Lines 48-62: [print_tree(node, depth)] on the heap [h], with the bytes
    it writes as its result.  [fuel] bounds the depth of the recursion. *)
Fixpoint print_tree (fuel : nat) (h : list Node) (node : ptr) (depth : Z)
  : result (list ascii) :=
  match fuel with
  | O => Err OutOfFuel
  | S fuel' =>
      match h !! node with
      | None => Err DanglingPointer
      | Some n =>
          kids ← print_each
                   (fun c => if depth <? INT_MAX
                             then print_tree fuel' h c (depth + 1)
                             else Err IntOverflow)
                   (children n);
          Ok (open_line (name n) (is_text n) depth ++ kids
              ++ close_line (name n) (is_text n) depth)
      end
  end.

(** The same lines for a tree that has been read off the heap. *)
Fixpoint tree_text (depth : Z) (t : Tree) {struct t} : list ascii :=
  match t with
  | TreeNode nm it kids =>
      open_line nm it depth ++ concat (map (tree_text (depth + 1)) kids)
      ++ close_line nm it depth
  end.

(** The lines of the tree, written while the tokens are read: a start tag
    or a text gives its line at once, indented by the number of open
    elements; an end tag gives the closing line of the innermost open
    element, under the name of that element; the elements still open at the
    end are closed from the innermost on.  [names] holds the names of the
    open elements, the innermost first and the root last. *)
Definition print_token (t : Token) (s : list ascii * list string)
  : list ascii * list string :=
  let '(out, names) := s in
  match type t with
  | StartTag =>
      (out ++ open_line (data t) 0 (Z.of_nat (length names)), data t :: names)
  | EndTag =>
      match names with
      | [] => s
      | nm :: rest => (out ++ close_line nm 0 (Z.of_nat (length rest)), rest)
      end
  | Text => (out ++ open_line (data t) 1 (Z.of_nat (length names)), names)
  end.

Fixpoint print_tokens (toks : list Token) (s : list ascii * list string)
  : list ascii * list string :=
  match toks with
  | [] => s
  | t :: r => print_tokens r (print_token t s)
  end.

Fixpoint close_all (names : list string) : list ascii :=
  match names with
  | [] => []
  | nm :: rest => close_line nm 0 (Z.of_nat (length rest)) ++ close_all rest
  end.

Definition tokens_text (toks : list Token) : list ascii :=
  let '(out, names) :=
    print_tokens toks (open_line "document" 0 0, ["document"%string]) in
  out ++ close_all names.

(** The names along the last-child path of a tree, from its root on: a
    path of elements. *)
Inductive open_path : Tree -> list string -> Prop :=
  | path_end nm kids : open_path (TreeNode nm 0 kids) [nm]
  | path_step nm kids c names :
      last kids = Some c -> open_path c names ->
      open_path (TreeNode nm 0 kids) (nm :: names).

(** The closing lines of a path of elements that starts at [depth]. *)
Fixpoint closers (depth : Z) (names : list string) : list ascii :=
  match names with
  | [] => []
  | nm :: rest => closers (depth + 1) rest ++ close_line nm 0 depth
  end.

(** What the lines written so far have to do with the tree built so far:
    the open elements are the last-child path of the tree, and the lines of
    the tree are the lines written and the closing lines of the open
    elements. *)
Definition text_inv (tree : Tree) (size : Z) (out : list ascii)
    (names : list string) : Prop :=
  size = Z.of_nat (length names) /\
  (names = [] \/ open_path tree (reverse names)) /\
  tree_text 0 tree = out ++ close_all names.

(** ** Freeing the tree *)

(** The blocks of memory a node consists of: the node itself (line 29),
    its name (line 30) and its array of children (lines 33 and 42). *)
Inductive block : Type :=
  | NodeBlock (p : ptr)
  | NameBlock (p : ptr)
  | ChildrenBlock (p : ptr).

#[global] Instance block_eq_dec : EqDecision block.
Proof. solve_decision. Defined.

Definition owner (b : block) : ptr :=
  match b with
  | NodeBlock p | NameBlock p | ChildrenBlock p => p
  end.

(** The blocks [create_node] has allocated for the nodes of a heap. *)
Definition blocks_of (h : list Node) : list block :=
  concat (map (fun p => [NodeBlock p; NameBlock p; ChildrenBlock p])
              (seq 0 (length h))).

Inductive fault : Type :=
  | UseAfterFree (b : block)   (* a read from a block that has been freed *)
  | DoubleFree (b : block)     (* [free] of a block that is not allocated *)
  | WildPointer (p : ptr)      (* a [Node*] that was never allocated *)
  | Endless.                   (* the recursion did not end within its bound *)

Inductive outcome (A : Type) : Type :=
  | Done (a : A)
  | Fault (f : fault).
Arguments Done {A} a.
Arguments Fault {A} f.

#[global] Instance outcome_ret : MRet outcome := fun A a => Done a.
#[global] Instance outcome_bind : MBind outcome := fun A B k r =>
  match r with
  | Done a => k a
  | Fault f => Fault f
  end.

(** A read from the block [b], and [free(b)], while the blocks [live] are
    allocated. *)
Definition access (b : block) (live : list block) : outcome unit :=
  if decide (b ∈ live) then Done tt else Fault (UseAfterFree b).

Definition release (b : block) (live : list block) : outcome (list block) :=
  if decide (b ∈ live) then Done (filter (fun x => x <> b) live)
  else Fault (DoubleFree b).

(** Lines 68-70: the loop over the children.  Every test of the loop reads
    [node->child_count], every round reads [node->children[i]]. *)
Fixpoint free_each (f : ptr -> list block -> outcome (list block))
    (node : ptr) (cs : list ptr) (live : list block)
  : outcome (list block) :=
  _ ← access (NodeBlock node) live;
  match cs with
  | [] => Done live
  | c :: r =>
      _ ← access (ChildrenBlock node) live;
      live' ← f c live;
      free_each f node r live'
  end.

(** Lines 65-73: [free_node(node)] on the heap [h]; [None] is the null
    pointer.  The result is what is still allocated afterwards.  [fuel]
    bounds the depth of the recursion. *)
Fixpoint free_node (fuel : nat) (h : list Node) (node : option ptr)
    (live : list block) {struct fuel} : outcome (list block) :=
  match node with
  | None => Done live
  | Some p =>
      match fuel with
      | O => Fault Endless
      | S fuel' =>
          match h !! p with
          | None => Fault (WildPointer p)
          | Some n =>
              _ ← access (NodeBlock p) live;
              live1 ← release (NameBlock p) live;
              live2 ← free_each (fun c => free_node fuel' h (Some c)) p
                        (children n) live1;
              _ ← access (NodeBlock p) live2;
              live3 ← release (ChildrenBlock p) live2;
              release (NodeBlock p) live3
          end
      end
  end.

(** How [add_child] keeps the array of children of a node: the children
    fit the array, the capacity is 4, doubled some number of times, and an
    array that has been doubled is more than half full. *)
Definition capacity_ok (n : Node) : Prop :=
  child_count n <= child_capacity n /\
  exists k : nat,
    child_capacity n = 4 * 2 ^ Z.of_nat k /\
    ((0 < k)%nat -> child_capacity n < 2 * child_count n).

(** The two ways in which [tokenize] runs over an array: a text of 1024
    bytes or more does not fit [buffer], a tag name of 256 bytes or more
    does not fit [tag_name]. *)
Definition overrun (e : error) : Prop :=
  e = BufferOutOfBounds 1024 \/ e = TagNameOutOfBounds 256.

(** A result, or one of these two failures. *)
Definition ok_or_overrun {A : Type} (P : A -> Prop) (r : result A) : Prop :=
  match r with
  | Ok a => P a
  | Err e => overrun e
  end.

(** ** The program *)

Definition type_name (ty : TokenType) : string :=
  match ty with
  | StartTag => "StartTag"
  | EndTag => "EndTag"
  | Text => "Text"
  end.

(** Lines 175-180: the line of a token. *)
Definition token_line (t : Token) : list ascii :=
  list_ascii_of_string (type_name (type t)) ++ [":"%char; " "%char]
  ++ list_ascii_of_string (data t) ++ [newline].

(** Lines 174-186: what [main] writes in front of the tree. *)
Definition main_head (toks : list Token) : list ascii :=
  list_ascii_of_string "Tokens:" ++ [newline]
  ++ concat (map token_line toks)
  ++ [newline] ++ list_ascii_of_string "DOM Tree:" ++ [newline].

(** Lines 164-197 for an arbitrary input [html]: the bytes [main] writes,
    and what [free_node] leaves of the tree.  The array of tokens and the
    payloads, which [main] frees in lines 190-193, are not part of the
    heap of nodes. *)
Definition main_on (html : string)
  : result (list ascii * outcome (list block)) :=
  toks ← tokenize html 16;
  '(dom, h) ← build_dom toks (Z.of_nat (length toks));
  tree ← print_tree (length h) h dom 0;
  Ok (main_head toks ++ tree, free_node (length h) h (Some dom) (blocks_of h)).

Definition main : result (list ascii * outcome (list block)) :=
  main_on "<html><body><div>Hello <b>world</b></div></body></html>".

(** Lines of text, each with its end of line. *)
Definition unlines (ls : list string) : list ascii :=
  concat (map (fun l => list_ascii_of_string l ++ [newline]) ls).

(** How [tokenize] keeps the array of tokens that started with room for
    [initial] tokens: the tokens fit the array, the capacity is [initial],
    doubled some number of times, and an array that has been doubled is
    more than half full. *)
Definition tokens_fit (initial : Z) (st : tok_state) : Prop :=
  token_count st <= token_capacity st /\
  exists k : nat,
    token_capacity st = initial * 2 ^ Z.of_nat k /\
    ((0 < k)%nat -> token_capacity st < 2 * token_count st).

(** The state [st] with another capacity of the array of tokens. *)
Definition with_capacity (c : Z) (st : tok_state) : tok_state :=
  mkTok (tokens st) c (pos st) (buffer st) (buffer_pos st) (steps st).

(** Two runs that agree but for the capacity of the array of tokens: they
    fail in the same way, or they end in states that differ in the
    capacity only, with room for the tokens in both. *)
Definition same_but_capacity (r1 r2 : result tok_state) : Prop :=
  match r1, r2 with
  | Ok a, Ok b =>
      exists c, b = with_capacity c a /\ 0 < c /\ token_count a <= c
  | Err e1, Err e2 => e1 = e2
  | _, _ => False
  end.

(** ** The cost of [strlen] *)

(** [tokenize] does not keep the length of its input: it calls
    [strlen(html)] in every test of the outer loop (line 82), once for
    every tag (line 101) and in every test of the inner loop (line 107).
    A call reads the bytes of [html] up to and with the terminator,
    [strlen html + 1] of them. *)








(** * Verification *)

(** ** Sample runs *)

Example tokenize_sample :
  tokenize "<html><body><div>Hello <b>world</b></div></body></html>" 16
  = Ok [mkToken StartTag "html"; mkToken StartTag "body";
        mkToken StartTag "div"; mkToken Text "Hello ";
        mkToken StartTag "b"; mkToken Text "world"; mkToken EndTag "b";
        mkToken EndTag "div"; mkToken EndTag "body"; mkToken EndTag "html"].
Proof. vm_compute. reflexivity. Qed.

Example parse_sample :
  parse_tree "<div>Hello <b>world</b></div>"
  = Ok (Some (Element "document"
                [Element "div" [TextNode "Hello ";
                                Element "b" [TextNode "world"]]])).
Proof. vm_compute. reflexivity. Qed.

Example parse_nested :
  parse_tree "<a><b>x</b></a>"
  = Ok (Some (Element "document" [Element "a" [Element "b" [TextNode "x"]]])).
Proof. vm_compute. reflexivity. Qed.

Example parse_unclosed :
  parse_tree "<a>x<b>y"
  = Ok (Some (Element "document"
                [Element "a" [TextNode "x"; Element "b" [TextNode "y"]]])).
Proof. vm_compute. reflexivity. Qed.

(** ** The error monad *)

Lemma bind_Ok_inv {A B : Type} (r : result A) (k : A -> result B) (b : B) :
  r ≫= k = Ok b -> exists a, r = Ok a /\ k a = Ok b.
Proof. destruct r as [a|e]; simpl; [eauto | discriminate]. Qed.

Lemma bind_not_fuel {A B : Type} (r : result A) (k : A -> result B) :
  r <> Err OutOfFuel -> (forall a, r = Ok a -> k a <> Err OutOfFuel) ->
  r ≫= k <> Err OutOfFuel.
Proof.
  destruct r as [a|e]; simpl; [auto|].
  intros H _ E. apply H. injection E as ->. reflexivity.
Qed.

Lemma bind_Ok {A B : Type} (a : A) (k : A -> result B) : Ok a ≫= k = k a.
Proof. reflexivity. Qed.

(** Split a hypothesis [x ← r; k = Ok b] into [r = Ok a] and [k a = Ok b]. *)
Ltac inv_bind H :=
  let a := fresh "a" in
  let E := fresh "E" in
  apply bind_Ok_inv in H as (a & E & H).

(** ** C strings and arrays *)

Section CStrings.

Lemma strlen_nonneg (s : list ascii) : 0 <= strlen s.
Proof. induction s as [|c r IH]; simpl; [lia|]. destruct (Ascii.eqb c NUL); lia. Qed.

Lemma strlen_le_length (s : list ascii) : strlen s <= Z.of_nat (length s).
Proof.
  induction s as [|c r IH]; simpl; [lia|].
  destruct (Ascii.eqb c NUL); lia.
Qed.

Lemma char_at_cons (c : ascii) (r : list ascii) (i : Z) :
  0 < i -> char_at (c :: r) i = char_at r (i - 1).
Proof.
  intros Hi. unfold char_at.
  destruct (Z.ltb_spec i 0); [lia|]. destruct (Z.ltb_spec (i - 1) 0); [lia|].
  replace (Z.to_nat i) with (S (Z.to_nat (i - 1))) by lia. reflexivity.
Qed.

(** No byte in front of the terminator is a terminator. *)
Lemma char_at_not_NUL (s : list ascii) (i : Z) :
  0 <= i < strlen s -> char_at s i <> NUL.
Proof.
  revert i. induction s as [|c r IH]; simpl; intros i Hi; [lia|].
  destruct (Ascii.eqb_spec c NUL) as [->|Hc]; [lia|].
  destruct (Z.eq_dec i 0) as [->|Hne]; [exact Hc|].
  rewrite char_at_cons by lia. apply IH. lia.
Qed.

Lemma char_at_lookup (s : list ascii) (i : Z) :
  0 <= i < strlen s -> s !! Z.to_nat i = Some (char_at s i).
Proof.
  intros Hi. pose proof (strlen_le_length s) as Hl. unfold char_at.
  destruct (Z.ltb_spec i 0); [lia|].
  destruct (s !! Z.to_nat i) eqn:E; [reflexivity|].
  apply lookup_ge_None in E. lia.
Qed.

End CStrings.

Section Arrays.

Lemma array_set_Ok {A : Type} (oob : Z -> error) (a a' : list A) (i : Z) (c : A) :
  array_set oob a i c = Ok a' ->
  0 <= i < Z.of_nat (length a) /\ a' = <[Z.to_nat i := c]> a.
Proof.
  unfold array_set. intros H.
  destruct (Z.leb_spec 0 i); destruct (Z.ltb_spec i (Z.of_nat (length a)));
    simpl in H; try discriminate.
  injection H as <-. split; [lia | reflexivity].
Qed.

Lemma array_set_not_fuel {A : Type} (oob : Z -> error) (a : list A) (i : Z) (c : A) :
  (forall j, oob j <> OutOfFuel) -> array_set oob a i c <> Err OutOfFuel.
Proof.
  intros Hoob. unfold array_set.
  destruct ((0 <=? i) && (i <? Z.of_nat (length a))); [discriminate|].
  intros E. injection E as E. exact (Hoob _ E).
Qed.

(** Writing the terminator behind [k] bytes that are no terminators makes
    these [k] bytes the string the array holds. *)
Lemma until_nul_insert (a : list ascii) (k : nat) :
  (k < length a)%nat -> Forall (fun c => c <> NUL) (take k a) ->
  until_nul (<[k := NUL]> a) = Some (take k a).
Proof.
  revert k. induction a as [|c r IH]; intros k Hk Hall; simpl in Hk; [lia|].
  destruct k as [|k]; simpl.
  - reflexivity.
  - simpl in Hall. apply Forall_cons in Hall as [Hc Hall].
    destruct (Ascii.eqb_spec c NUL) as [->|_]; [congruence|].
    rewrite IH by (auto; lia). reflexivity.
Qed.

Lemma strdup_insert (a : list ascii) (k : nat) :
  (k < length a)%nat -> Forall (fun c => c <> NUL) (take k a) ->
  strdup (<[k := NUL]> a) = Ok (string_of_list_ascii (take k a)).
Proof. intros Hk Hall. unfold strdup. rewrite until_nul_insert by assumption. reflexivity. Qed.

Lemma strdup_not_fuel (a : list ascii) : strdup a <> Err OutOfFuel.
Proof. unfold strdup. destruct (until_nul a); discriminate. Qed.

Lemma string_of_list_ascii_nonempty (l : list ascii) :
  l <> [] -> string_of_list_ascii l <> EmptyString.
Proof. destruct l; [congruence | discriminate]. Qed.

Lemma double_capacity_not_fuel (c : Z) : double_capacity c <> Err OutOfFuel.
Proof.
  unfold double_capacity.
  destruct ((c * 2 <=? INT_MAX) && (- INT_MAX - 1 <=? c * 2)); discriminate.
Qed.

Lemma slice_empty (s : list ascii) (a : Z) : slice s a a = [].
Proof. unfold slice. rewrite Z.sub_diag. reflexivity. Qed.

Lemma slice_cons (s : list ascii) (a b : Z) :
  0 <= a < strlen s -> a < b ->
  slice s a b = char_at s a :: slice s (a + 1) b.
Proof.
  intros Ha Hb. unfold slice.
  rewrite (drop_S s (char_at s a) (Z.to_nat a)) by (apply char_at_lookup; exact Ha).
  replace (Z.to_nat (b - a)) with (S (Z.to_nat (b - (a + 1)))) by lia.
  replace (Z.to_nat (a + 1)) with (S (Z.to_nat a)) by lia.
  reflexivity.
Qed.

Lemma slice_not_NUL (s : list ascii) (a b : Z) :
  0 <= a -> b <= strlen s -> Forall (fun c => c <> NUL) (slice s a b).
Proof.
  intros Ha Hb.
  remember (Z.to_nat (b - a)) as k eqn:Hk. revert a Ha Hk.
  induction k as [|k IH]; intros a Ha Hk.
  - unfold slice. rewrite <- Hk. constructor.
  - rewrite slice_cons by lia. constructor.
    + apply char_at_not_NUL. lia.
    + apply IH; lia.
Qed.

Lemma slice_length (s : list ascii) (a b : Z) :
  0 <= a <= b -> b <= strlen s -> Z.of_nat (length (slice s a b)) = b - a.
Proof.
  intros Ha Hb. pose proof (strlen_le_length s). unfold slice.
  rewrite length_take, length_drop. lia.
Qed.

End Arrays.

(** ** The tokenizer, step by step *)

Section Tokenizer.

Variable html : list ascii.

Lemma push_token_Ok (ty : TokenType) (a : list ascii) (st st' : tok_state) :
  push_token ty a st = Ok st' ->
  exists d capacity, strdup a = Ok d /\
    st' = mkTok (tokens st ++ [mkToken ty d]) capacity (pos st) (buffer st)
                (buffer_pos st) (steps st).
Proof.
  unfold push_token. intros H. inv_bind H.
  destruct (token_count st <? a0); [|discriminate].
  inv_bind H. injection H as <-. eauto.
Qed.

Lemma push_token_not_fuel (ty : TokenType) (a : list ascii) (st : tok_state) :
  push_token ty a st <> Err OutOfFuel.
Proof.
  unfold push_token. apply bind_not_fuel.
  - destruct (token_count st >=? token_capacity st);
      [apply double_capacity_not_fuel | discriminate].
  - intros c _. destruct (token_count st <? c); [|discriminate].
    apply bind_not_fuel; [apply strdup_not_fuel | discriminate].
Qed.

Lemma flush_remaining_Ok (st st' : tok_state) :
  buf_ok st -> flush_remaining st = Ok st' ->
  tokens st' = tokens st ++ flushed st /\ pos st' = pos st /\
  steps st' = steps st.
Proof.
  intros (Hpos & Hall & _). unfold flush_remaining, flushed.
  destruct (buffer_pos st >? 0) eqn:Hbp; intros H.
  - inv_bind H. apply array_set_Ok in E as [Hi ->].
    apply push_token_Ok in H as (d & capacity & Hd & ->). simpl.
    rewrite strdup_insert in Hd by (auto; lia). injection Hd as <-.
    auto.
  - injection H as <-. rewrite app_nil_r. auto.
Qed.

Lemma flush_text_Ok (st st' : tok_state) :
  buf_ok st -> flush_text st = Ok st' ->
  tokens st' = tokens st ++ flushed st /\ pos st' = pos st /\
  steps st' = steps st /\ buffer_pos st' = 0.
Proof.
  intros (Hpos & Hall & _). unfold flush_text, flushed.
  destruct (buffer_pos st >? 0) eqn:Hbp; intros H.
  - inv_bind H. apply array_set_Ok in E as [Hi ->].
    inv_bind H. apply push_token_Ok in E as (d & capacity & Hd & ->).
    simpl in H. inv_bind H. injection H as <-. simpl.
    rewrite strdup_insert in Hd by (auto; lia). injection Hd as <-.
    auto.
  - injection H as <-. rewrite app_nil_r.
    rewrite Z.gtb_ltb in Hbp. apply Z.ltb_ge in Hbp.
    repeat split; auto; lia.
Qed.

Lemma flush_text_not_fuel (st : tok_state) : flush_text st <> Err OutOfFuel.
Proof.
  unfold flush_text. destruct (buffer_pos st >? 0); [|discriminate].
  apply bind_not_fuel; [apply array_set_not_fuel; discriminate|].
  intros b _. apply bind_not_fuel; [apply push_token_not_fuel|].
  intros st1 _. apply bind_not_fuel; [apply array_set_not_fuel; discriminate|].
  discriminate.
Qed.

Lemma flush_remaining_not_fuel (st : tok_state) :
  flush_remaining st <> Err OutOfFuel.
Proof.
  unfold flush_remaining. destruct (buffer_pos st >? 0); [|discriminate].
  apply bind_not_fuel; [apply array_set_not_fuel; discriminate|].
  intros b _. apply push_token_not_fuel.
Qed.

(** The inner loop stops at the first ['>'] or at the end of the input and
    has copied what it passed. *)
Lemma scan_tag_name_Ok (fuel : nat) (p tag_pos : Z) (tag_name : list ascii)
    (p2 tag_pos2 : Z) (tag_name2 : list ascii) :
  0 <= p -> 0 <= tag_pos ->
  scan_tag_name fuel html p tag_pos tag_name = Ok (p2, tag_pos2, tag_name2) ->
  p <= p2 <= Z.max p (strlen html) /\
  tag_pos2 = tag_pos + (p2 - p) /\
  (forall q, p <= q < p2 -> char_at html q <> ">"%char) /\
  (p2 < strlen html -> char_at html p2 = ">"%char) /\
  take (Z.to_nat tag_pos2) tag_name2
  = take (Z.to_nat tag_pos) tag_name ++ slice html p p2.
Proof.
  revert p tag_pos tag_name.
  induction fuel as [|fuel IH]; intros p tag_pos tag_name Hp Ht; simpl;
    destruct (Z.ltb_spec p (strlen html)) as [Hlt|Hge]; simpl;
    try destruct (Ascii.eqb_spec (char_at html p) ">"%char) as [Hc|Hc]; simpl;
    intros H; try discriminate;
    try (injection H as <- <- <-; rewrite slice_empty, app_nil_r;
         repeat split; auto; try lia; intros; lia).
  inv_bind H. apply array_set_Ok in E as [Hi ->].
  apply IH in H as (H1 & H2 & H3 & H4 & H5); try lia.
  repeat split; try lia; auto.
  - intros q Hq. destruct (Z.eq_dec q p) as [->|]; [exact Hc|]. apply H3. lia.
  - rewrite H5, (slice_cons html p p2) by lia.
    replace (Z.to_nat (tag_pos + 1)) with (S (Z.to_nat tag_pos)) by lia.
    rewrite (take_S_r _ _ (char_at html p)).
    + rewrite take_insert_ge by lia. rewrite <- app_assoc. reflexivity.
    + apply list_lookup_insert_eq. lia.
Qed.

Lemma scan_tag_name_not_fuel (fuel : nat) (p tag_pos : Z) (tag_name : list ascii) :
  (Z.to_nat (strlen html - p) <= fuel)%nat ->
  scan_tag_name fuel html p tag_pos tag_name <> Err OutOfFuel.
Proof.
  revert p tag_pos tag_name.
  induction fuel as [|fuel IH]; intros p tag_pos tag_name Hf; simpl;
    destruct (Z.ltb_spec p (strlen html)) as [Hlt|Hge]; simpl;
    try destruct (Ascii.eqb (char_at html p) ">"%char); simpl;
    try discriminate; try lia.
  apply bind_not_fuel; [apply array_set_not_fuel; discriminate|].
  intros t _. apply IH. lia.
Qed.

Lemma tokenize_body_Ok (st st' : tok_state) :
  buf_ok st -> 0 <= pos st < strlen html ->
  tokenize_body html st = Ok st' -> body_post html st st'.
Proof.
  intros Hbuf Hpos. unfold tokenize_body, body_post.
  destruct (Ascii.eqb (char_at html (pos st)) "<"%char); intros H.
  - inv_bind H. apply (flush_text_Ok _ _ Hbuf) in E as (Htok & Hp & Hs & Hb).
    rewrite Hp in H.
    set (is_end_tag := (pos st + 1 <? strlen html)
                       && Ascii.eqb (char_at html (pos st + 1)) "/"%char) in *.
    set (p1 := pos st + (if is_end_tag then 2 else 1)) in *.
    assert (Hp1 : pos st < p1 <= strlen html).
    { subst p1 is_end_tag.
      destruct (Z.ltb_spec (pos st + 1) (strlen html)); simpl;
        try destruct (Ascii.eqb _ "/"%char); lia. }
    inv_bind H. destruct a0 as [[p2 tag_pos] tag_name]. simpl in H.
    apply scan_tag_name_Ok in E as (H1 & H2 & H3 & H4 & H5); try lia.
    inv_bind H. apply array_set_Ok in E as [Hi ->].
    apply push_token_Ok in H as (d & capacity & Hd & ->). simpl.
    simpl in H5.
    rewrite strdup_insert in Hd;
      [| lia | rewrite H5; apply slice_not_NUL; lia].
    injection Hd as <-. rewrite H5, Htok, Hs, Hb, <- app_assoc.
    exists p2. repeat split; auto; lia.
  - inv_bind H. apply array_set_Ok in E as [Hi ->]. injection H as <-.
    simpl. repeat split; auto. unfold pending. simpl.
    destruct Hbuf as [Hb _].
    replace (Z.to_nat (buffer_pos st + 1)) with (S (Z.to_nat (buffer_pos st)))
      by lia.
    rewrite (take_S_r _ _ (char_at html (pos st)))
      by (apply list_lookup_insert_eq; lia).
    rewrite take_insert_ge by lia. reflexivity.
Qed.

Lemma tokenize_body_not_fuel (st : tok_state) :
  buf_ok st -> 0 <= pos st -> tokenize_body html st <> Err OutOfFuel.
Proof.
  intros Hbuf Hpos. unfold tokenize_body.
  destruct (Ascii.eqb (char_at html (pos st)) "<"%char).
  - apply bind_not_fuel; [apply flush_text_not_fuel|].
    intros st1 E. apply (flush_text_Ok _ _ Hbuf) in E as (_ & Hp & _).
    apply bind_not_fuel.
    + apply scan_tag_name_not_fuel.
      destruct ((pos st1 + 1 <? strlen html)
                && Ascii.eqb (char_at html (pos st1 + 1)) "/"%char); lia.
    + intros [[p2 tag_pos] tag_name] _. simpl.
      apply bind_not_fuel; [apply array_set_not_fuel; discriminate|].
      intros t _. apply push_token_not_fuel.
  - apply bind_not_fuel; [apply array_set_not_fuel; discriminate|].
    discriminate.
Qed.

(** The scan position strictly advances in every iteration. *)
Lemma body_post_advances (st st' : tok_state) :
  body_post html st st' -> pos st < pos st'.
Proof.
  unfold body_post.
  destruct (Ascii.eqb (char_at html (pos st)) "<"%char).
  - intros (p2 & Hp & _ & _ & _ & -> & _).
    destruct ((pos st + 1 <? strlen html)
              && Ascii.eqb (char_at html (pos st + 1)) "/"%char); lia.
  - intros (_ & -> & _). lia.
Qed.

Lemma body_post_buf_ok (st st' : tok_state) :
  buf_ok st -> 0 <= pos st < strlen html ->
  body_post html st st' -> buf_ok st'.
Proof.
  intros (Hb & Hall & Hlen) Hpos. unfold body_post, buf_ok.
  destruct (Ascii.eqb (char_at html (pos st)) "<"%char).
  - intros (p2 & _ & _ & _ & _ & _ & Hbp & _). unfold pending.
    rewrite Hbp. simpl. repeat split; [lia | constructor].
  - intros (_ & _ & -> & -> & _). rewrite length_app. simpl.
    repeat split; [lia | | lia].
    apply Forall_app. split; [exact Hall|].
    constructor; [|constructor]. apply char_at_not_NUL. exact Hpos.
Qed.

(** The invariant rule of the outer loop: a property of the variables that
    holds in front of the loop and survives every iteration holds behind
    the loop, where the scan position has reached the end of the input. *)
Lemma tokenize_loop_invariant (P : tok_state -> Prop) :
  (forall st st', P st -> buf_ok st -> 0 <= pos st < strlen html ->
                  body_post html st st' -> P st') ->
  forall fuel st st',
    P st -> buf_ok st -> 0 <= pos st ->
    tokenize_loop fuel html st = Ok st' ->
    P st' /\ buf_ok st' /\ strlen html <= pos st'.
Proof.
  intros Hstep.
  induction fuel as [|fuel IH]; intros st st' HP Hbuf Hpos; simpl;
    destruct (Z.ltb_spec (pos st) (strlen html)) as [Hlt|Hge];
    intros H; try discriminate; try (injection H as <-; auto).
  inv_bind H. apply tokenize_body_Ok in E; try (auto; lia).
  pose proof (body_post_advances _ _ E).
  apply (IH a st'); try (auto; lia).
  - apply (Hstep st); auto; lia.
  - apply (body_post_buf_ok st); auto; lia.
Qed.

Lemma tokenize_loop_not_fuel (fuel : nat) (st : tok_state) :
  buf_ok st -> 0 <= pos st ->
  (Z.to_nat (strlen html - pos st) <= fuel)%nat ->
  tokenize_loop fuel html st <> Err OutOfFuel.
Proof.
  revert st.
  induction fuel as [|fuel IH]; intros st Hbuf Hpos Hf; simpl;
    destruct (Z.ltb_spec (pos st) (strlen html)) as [Hlt|Hge];
    try discriminate; try lia.
  apply bind_not_fuel; [apply tokenize_body_not_fuel; auto|].
  intros st' E. apply tokenize_body_Ok in E; try (auto; lia).
  pose proof (body_post_advances _ _ E).
  apply IH; try lia.
  apply (body_post_buf_ok st); auto; lia.
Qed.

Lemma flush_text_pos (st st' : tok_state) :
  flush_text st = Ok st' -> pos st' = pos st.
Proof.
  unfold flush_text. destruct (buffer_pos st >? 0); intros H.
  - inv_bind H. inv_bind H.
    apply push_token_Ok in E0 as (d & capacity & _ & ->).
    inv_bind H. injection H as <-. reflexivity.
  - injection H as <-. reflexivity.
Qed.

(** Whatever the buffers hold, an iteration that succeeds moves the scan
    position forward. *)
Lemma tokenize_body_advances (st st' : tok_state) :
  0 <= pos st -> tokenize_body html st = Ok st' -> pos st < pos st'.
Proof.
  intros Hpos. unfold tokenize_body.
  destruct (Ascii.eqb (char_at html (pos st)) "<"%char); intros H.
  - inv_bind H. apply flush_text_pos in E. rewrite E in H.
    inv_bind H. destruct a0 as [[p2 tag_pos] tag_name]. simpl in H.
    apply scan_tag_name_Ok in E0 as ([Hp2 _] & _);
      [| destruct ((pos st + 1 <? strlen html)
                   && Ascii.eqb (char_at html (pos st + 1)) "/"%char); lia
       | lia].
    inv_bind H. apply push_token_Ok in H as (d & capacity & _ & ->). simpl.
    destruct ((pos st + 1 <? strlen html)
              && Ascii.eqb (char_at html (pos st + 1)) "/"%char); lia.
  - inv_bind H. injection H as <-. simpl. lia.
Qed.

Lemma tokenize_init_buf_ok (capacity : Z) : buf_ok (tokenize_init capacity).
Proof. repeat split; [simpl; lia | constructor]. Qed.

End Tokenizer.

(** ** Positions and slices *)

Section Slices.

Variable s : list ascii.

Lemma elem_of_slice (c : ascii) (a b : Z) :
  0 <= a -> b <= strlen s ->
  c ∈ slice s a b <-> exists q, a <= q < b /\ char_at s q = c.
Proof.
  intros Ha Hb.
  remember (Z.to_nat (b - a)) as k eqn:Hk. revert a Ha Hk.
  induction k as [|k IH]; intros a Ha Hk.
  - unfold slice. rewrite <- Hk. simpl. split.
    + intros H. inversion H.
    + intros (q & Hq & _). lia.
  - rewrite slice_cons by lia. rewrite elem_of_cons, IH by lia. split.
    + intros [->|(q & Hq & Hc)]; [exists a | exists q]; split; auto; lia.
    + intros (q & Hq & Hc). destruct (Z.eq_dec q a) as [->|Hne]; [auto|].
      right. exists q. split; [lia | exact Hc].
Qed.

(** An input with an unterminated ['<'] has a first one. *)
Lemma first_unterminated_exists (q : Z) :
  unterminated s q -> exists p, p <= q /\ first_unterminated s p.
Proof.
  intros Hq.
  assert (Hk : forall k : nat,
             (forall r, 0 <= r < Z.of_nat k -> ~ unterminated s r)
             \/ exists p, p < Z.of_nat k /\ first_unterminated s p).
  { induction k as [|k [IH|(p & Hp & Hf)]].
    - left. intros r Hr. lia.
    - destruct (decide (unterminated s (Z.of_nat k))) as [Hu|Hu].
      + right. exists (Z.of_nat k). split; [lia|]. split; assumption.
      + left. intros r Hr. destruct (Z.eq_dec r (Z.of_nat k)) as [->|]; [exact Hu|].
        apply IH. lia.
    - right. exists p. split; [lia | exact Hf]. }
  destruct (proj1 Hq) as [Hq0 _].
  destruct (Hk (Z.to_nat (q + 1))) as [Hnone|(p & Hp & Hf)].
  - exfalso. apply (Hnone q); [lia | exact Hq].
  - exists p. split; [lia | exact Hf].
Qed.

End Slices.

(** ** The tokenizer as a whole *)

Section TokenizerRun.

Variable html : list ascii.

(** A loop invariant that holds initially describes the variables at the
    end of a run. *)
Lemma tokenize_run_invariant (P : tok_state -> Prop) (capacity : Z)
    (final : tok_state) :
  (forall st st', P st -> buf_ok st -> 0 <= pos st < strlen html ->
                  body_post html st st' -> P st') ->
  P (tokenize_init capacity) ->
  tokenize_run html capacity = Ok final ->
  exists st, P st /\ buf_ok st /\ strlen html <= pos st /\
             tokens final = tokens st ++ flushed st /\
             steps final = steps st /\ pos final = pos st.
Proof.
  intros Hstep Hinit H. unfold tokenize_run in H. inv_bind H.
  apply (tokenize_loop_invariant html P Hstep) in E as (HP & Hbuf & Hpos);
    [| exact Hinit | apply tokenize_init_buf_ok | simpl; lia].
  apply (flush_remaining_Ok _ _ Hbuf) in H as (Ht & Hp & Hs).
  exists a. auto 7.
Qed.

Lemma tokenize_run_not_fuel (capacity : Z) :
  tokenize_run html capacity <> Err OutOfFuel.
Proof.
  unfold tokenize_run. apply bind_not_fuel.
  - apply tokenize_loop_not_fuel;
      [apply tokenize_init_buf_ok | simpl; lia | simpl; lia].
  - intros st _. apply flush_remaining_not_fuel.
Qed.

Lemma flushed_nonempty (st : tok_state) :
  buf_ok st ->
  Forall (fun t => type t = Text -> data t <> EmptyString) (flushed st).
Proof.
  intros (Hb & Hall & Hlen). unfold flushed.
  destruct (Z.gtb_spec (buffer_pos st) 0) as [Hgt|Hle]; [|constructor].
  constructor; [|constructor]. intros _. simpl.
  apply string_of_list_ascii_nonempty. intros Hnil.
  rewrite Hnil in Hlen. simpl in Hlen. lia.
Qed.

Lemma flushed_length (st : tok_state) :
  Z.of_nat (length (flushed st)) = if buffer_pos st >? 0 then 1 else 0.
Proof. unfold flushed. destruct (buffer_pos st >? 0); reflexivity. Qed.

(** Every [Text] token of a run carries at least one byte. *)
Lemma tokenize_run_texts_nonempty (capacity : Z) (final : tok_state) :
  tokenize_run html capacity = Ok final ->
  Forall (fun t => type t = Text -> data t <> EmptyString) (tokens final).
Proof.
  intros H.
  apply (tokenize_run_invariant
           (fun st => Forall (fun t => type t = Text -> data t <> EmptyString)
                             (tokens st))) in H
    as (st & HP & Hbuf & _ & -> & _ & _).
  - apply Forall_app. split; [exact HP | apply flushed_nonempty, Hbuf].
  - intros st st' HP Hbuf Hpos. unfold body_post.
    destruct (Ascii.eqb (char_at html (pos st)) "<"%char).
    + intros (p2 & _ & _ & _ & -> & _).
      apply Forall_app. split; [exact HP|].
      apply Forall_app. split; [apply flushed_nonempty, Hbuf|].
      constructor; [|constructor].
      destruct ((pos st + 1 <? strlen html)
                && Ascii.eqb (char_at html (pos st + 1)) "/"%char);
        simpl; discriminate.
    + intros (-> & _). exact HP.
  - constructor.
Qed.

(** Tokens and loop iterations are paid for by bytes of the input. *)
Lemma tokenize_run_linear (capacity : Z) (final : tok_state) :
  tokenize_run html capacity = Ok final ->
  token_count final <= strlen html /\ steps final <= strlen html.
Proof.
  intros H.
  apply (tokenize_run_invariant
           (fun st => token_count st + Z.of_nat (length (flushed st))
                      <= Z.min (pos st) (strlen html) /\
                      steps st <= Z.min (pos st) (strlen html))) in H
    as (st & [HP1 HP2] & Hbuf & Hpos & Ht & Hs & _).
  - unfold token_count in *. rewrite Ht, Hs, length_app. lia.
  - intros st st' [HP1 HP2] Hbuf Hpos. unfold body_post, token_count in *.
    rewrite (flushed_length st').
    destruct (Ascii.eqb (char_at html (pos st)) "<"%char).
    + intros (p2 & Hp2 & _ & _ & -> & -> & -> & ->).
      rewrite !length_app. simpl.
      destruct ((pos st + 1 <? strlen html)
                && Ascii.eqb (char_at html (pos st + 1)) "/"%char);
        lia.
    + intros (-> & -> & -> & _ & ->).
      destruct Hbuf as [Hb _].
      destruct (Z.gtb_spec (buffer_pos st + 1) 0); lia.
  - unfold token_count, flushed. simpl. pose proof (strlen_nonneg html). lia.
Qed.

(** The run ends with the tag opened by the first unterminated ['<']. *)
Lemma tokenize_run_unterminated (capacity : Z) (final : tok_state) (p : Z) :
  first_unterminated html p ->
  tokenize_run html capacity = Ok final ->
  (exists front, tokens final = front ++ [open_tag_token html p]) /\
  pos final = strlen html + 1.
Proof.
  intros [(Hp & Hlt & Hgt) Hfirst] H.
  apply (tokenize_run_invariant
           (fun st => pos st <= p \/
                      (pos st = strlen html + 1 /\ buffer_pos st = 0 /\
                       exists front,
                         tokens st = front ++ [open_tag_token html p]))) in H
    as (st & HP & Hbuf & Hpos & Ht & Hs & Hpf).
  - destruct HP as [HP|(Hend & Hb & front & Hfront)]; [lia|].
    split; [|congruence].
    exists front. rewrite Ht, Hfront. unfold flushed. rewrite Hb. simpl.
    apply app_nil_r.
  - intros st st' [HP|HP] Hbuf Hpos; [|lia]. unfold body_post.
    destruct (Ascii.eqb_spec (char_at html (pos st)) "<"%char) as [Hc|Hc].
    + set (is_end_tag := (pos st + 1 <? strlen html)
                         && Ascii.eqb (char_at html (pos st + 1)) "/"%char).
      set (p1 := pos st + (if is_end_tag then 2 else 1)).
      intros (p2 & Hp2 & Hbefore & Hat & Htok & Hpos' & Hb' & _).
      assert (Hp1 : pos st + 1 <= p1) by (subst p1; destruct is_end_tag; lia).
      assert (Hslash : forall q, pos st < q < p1 -> char_at html q <> ">"%char).
      { intros q Hq. subst p1 is_end_tag.
        destruct (Z.ltb_spec (pos st + 1) (strlen html)); simpl in Hq; [|lia].
        destruct (Ascii.eqb_spec (char_at html (pos st + 1)) "/"%char)
          as [Hs1|Hs1]; simpl in Hq; [|lia].
        replace q with (pos st + 1) by lia. rewrite Hs1. discriminate. }
      destruct (Z.eq_dec (pos st) p) as [Heq|Hne].
      * (* the tag that never closes *)
        right. assert (p2 = strlen html) as ->.
        { destruct (Z.eq_dec p2 (strlen html)); [assumption|].
          exfalso. apply Hgt. apply elem_of_slice; [lia | lia |].
          exists p2. split; [lia|]. apply Hat. lia. }
        repeat split; auto.
        exists (tokens st ++ flushed st). rewrite Htok, app_assoc.
        f_equal. f_equal. unfold open_tag_token. rewrite <- Heq.
        fold is_end_tag. subst p1. destruct is_end_tag; reflexivity.
      * (* a tag in front of it closes in front of it *)
        left. assert (Hclosed : p2 < strlen html).
        { destruct (Z.eq_dec p2 (strlen html)) as [->|]; [|lia].
          exfalso. apply (Hfirst (pos st)); [lia|].
          repeat split; try lia; [exact Hc|].
          rewrite elem_of_slice by lia. intros (q & Hq & Hq').
          destruct (Z.lt_ge_cases q p1).
          - apply (Hslash q); [lia | exact Hq'].
          - apply (Hbefore q); [lia | exact Hq']. }
        specialize (Hat Hclosed).
        assert (p2 <> p) by (intros ->; rewrite Hlt in Hat; discriminate).
        assert (~ p < p2).
        { intros Hlater. apply Hgt. apply elem_of_slice; [lia | lia |].
          exists p2. split; [lia | exact Hat]. }
        lia.
    + intros (_ & -> & _). left.
      assert (pos st <> p) by (intros Heq; rewrite Heq in Hc; contradiction).
      lia.
  - left. simpl. lia.
Qed.

End TokenizerRun.

(** ** The tree builder, step by step *)

Section TreeBuilder.

Lemma stack_get_Ok (st : dom_state) (i : Z) (p : ptr) :
  stack_get st i = Ok p ->
  0 <= i < Z.of_nat (length (stack st)) /\
  stack st !! Z.to_nat i = Some (Some p).
Proof.
  unfold stack_get. intros H.
  destruct (Z.leb_spec 0 i); destruct (Z.ltb_spec i (Z.of_nat (length (stack st))));
    simpl in H; try discriminate.
  destruct (stack st !! Z.to_nat i) as [[q|]|]; try discriminate.
  injection H as <-. split; [lia | reflexivity].
Qed.

Lemma add_child_Ok (parent child : ptr) (h h' : list Node) :
  add_child parent child h = Ok h' ->
  exists n capacity,
    h !! parent = Some n /\
    h' = <[parent := mkNode (name n) (children n ++ [child]) capacity
                            (is_text n)]> h.
Proof.
  unfold add_child. destruct (h !! parent) as [n|]; [|discriminate].
  intros H. inv_bind H.
  destruct (child_count n <? a); [|discriminate].
  injection H as <-. eauto.
Qed.

Lemma add_child_not_fuel (parent child : ptr) (h : list Node) :
  add_child parent child h <> Err OutOfFuel.
Proof.
  unfold add_child. destruct (h !! parent) as [n|]; [|discriminate].
  apply bind_not_fuel.
  - destruct (child_count n >=? child_capacity n);
      [apply double_capacity_not_fuel | discriminate].
  - intros c _. destruct (child_count n <? c); discriminate.
Qed.

Lemma stack_get_not_fuel (st : dom_state) (i : Z) :
  stack_get st i <> Err OutOfFuel.
Proof.
  unfold stack_get.
  destruct ((0 <=? i) && (i <? Z.of_nat (length (stack st)))); [|discriminate].
  destruct (stack st !! Z.to_nat i) as [[q|]|]; discriminate.
Qed.

Lemma build_dom_body_not_fuel (t : Token) (st : dom_state) :
  build_dom_body t st <> Err OutOfFuel.
Proof.
  unfold build_dom_body, create_node. destruct (type t).
  - apply bind_not_fuel; [apply stack_get_not_fuel|]. intros top _.
    apply bind_not_fuel; [apply add_child_not_fuel|]. intros h' _.
    apply bind_not_fuel; [apply array_set_not_fuel; discriminate|].
    discriminate.
  - destruct (stack_size st >? 0); discriminate.
  - apply bind_not_fuel; [apply stack_get_not_fuel|]. intros top _.
    apply bind_not_fuel; [apply add_child_not_fuel|]. discriminate.
Qed.

(** An end tag touches nothing but [stack_size]. *)
Lemma build_dom_body_end (t : Token) (st : dom_state) :
  type t = EndTag ->
  build_dom_body t st
  = Ok (mkDom (heap st) (stack st)
              (if stack_size st >? 0 then stack_size st - 1 else stack_size st)).
Proof.
  intros Ht. unfold build_dom_body. rewrite Ht.
  destruct (stack_size st >? 0); [reflexivity | destruct st; reflexivity].
Qed.

(** A start tag or a text allocates one node and hangs it below the node on
    top of the stack; a start tag also pushes it. *)
Lemma build_dom_body_new (t : Token) (st st' : dom_state) :
  type t <> EndTag -> build_dom_body t st = Ok st' ->
  exists top n capacity,
    let new := mkNode (data t) [] 4
                 (match type t with Text => 1 | _ => 0 end) in
    stack st !! Z.to_nat (stack_size st - 1) = Some (Some top) /\
    0 <= stack_size st - 1 /\
    (heap st ++ [new]) !! top = Some n /\
    heap st' = <[top := mkNode (name n) (children n ++ [length (heap st)])
                               capacity (is_text n)]> (heap st ++ [new]) /\
    stack st' = match type t with
                | StartTag => <[Z.to_nat (stack_size st) :=
                                  Some (length (heap st))]> (stack st)
                | _ => stack st
                end /\
    stack_size st' = match type t with
                     | StartTag => stack_size st + 1
                     | _ => stack_size st
                     end /\
    (type t = StartTag -> stack_size st < Z.of_nat (length (stack st))).
Proof.
  intros Ht. unfold build_dom_body, create_node.
  destruct (type t); [|congruence|]; intros H.
  - inv_bind H. apply stack_get_Ok in E as [Hi Htop].
    inv_bind H. apply add_child_Ok in E as (n & capacity & Hn & ->).
    inv_bind H. apply array_set_Ok in E as [Hs ->]. injection H as <-.
    exists a, n, capacity. simpl. repeat split; auto; lia.
  - inv_bind H. apply stack_get_Ok in E as [Hi Htop].
    inv_bind H. apply add_child_Ok in E as (n & capacity & Hn & ->).
    injection H as <-.
    exists a, n, capacity. simpl. repeat split; auto; try lia. discriminate.
Qed.

(** The loop over the indices is the recursion over the tokens. *)
Lemma build_dom_loop_fold (fuel : nat) (toks : list Token) (i : Z)
    (st : dom_state) :
  0 <= i -> (Z.to_nat (Z.of_nat (length toks) - i) <= fuel)%nat ->
  build_dom_loop fuel toks (Z.of_nat (length toks)) i st
  = build_dom_fold (drop (Z.to_nat i) toks) st.
Proof.
  revert i st.
  induction fuel as [|fuel IH]; intros i st Hi Hf; simpl;
    destruct (Z.ltb_spec i (Z.of_nat (length toks))) as [Hlt|Hge];
    try lia; try (rewrite drop_ge by lia; reflexivity).
  destruct (Z.ltb_spec i 0); [lia|].
  destruct (toks !! Z.to_nat i) as [t|] eqn:Et.
  - rewrite (drop_S _ _ _ Et). simpl.
    destruct (build_dom_body t st) as [st'|e]; simpl; [|reflexivity].
    rewrite IH by lia. replace (Z.to_nat (i + 1)) with (S (Z.to_nat i)) by lia.
    reflexivity.
  - apply lookup_ge_None in Et. lia.
Qed.

Lemma build_dom_init_Ok :
  build_dom_init
  = Ok (mkDom [mkNode "document" [] 4 0] (Some 0%nat :: replicate 127 None) 1).
Proof. reflexivity. Qed.

Lemma build_dom_run_fold (toks : list Token) :
  build_dom_run toks (Z.of_nat (length toks))
  = build_dom_fold toks
      (mkDom [mkNode "document" [] 4 0] (Some 0%nat :: replicate 127 None) 1).
Proof.
  unfold build_dom_run. rewrite build_dom_init_Ok. simpl.
  rewrite build_dom_loop_fold by lia. reflexivity.
Qed.

Lemma build_dom_fold_not_fuel (toks : list Token) (st : dom_state) :
  build_dom_fold toks st <> Err OutOfFuel.
Proof.
  revert st. induction toks as [|t r IH]; intros st; simpl; [discriminate|].
  apply bind_not_fuel; [apply build_dom_body_not_fuel|]. intros st' _. apply IH.
Qed.

(** The invariant rule of the loop of [build_dom]. *)
Lemma build_dom_fold_invariant (P : dom_state -> Prop) :
  (forall t st st', P st -> build_dom_body t st = Ok st' -> P st') ->
  forall toks st st', P st -> build_dom_fold toks st = Ok st' -> P st'.
Proof.
  intros Hstep. induction toks as [|t r IH]; intros st st' HP H; simpl in H.
  - injection H as <-. exact HP.
  - inv_bind H. apply (IH a); [|exact H]. exact (Hstep t st a HP E).
Qed.

End TreeBuilder.

(** ** Invariants of the tree builder *)

Section TreeBuilderInvariants.

Lemma dom_ok_init :
  dom_ok (mkDom [mkNode "document" [] 4 0] (Some 0%nat :: replicate 127 None) 1).
Proof.
  split; [|split]; cbn [heap stack].
  - intros [|p] n Hn Ht; [|discriminate]. injection Hn as <-. reflexivity.
  - intros [|i] p Hp.
    + injection Hp as <-. eexists. split; reflexivity.
    + change (replicate 127 (@None nat) !! i = Some (Some p)) in Hp.
      apply lookup_replicate in Hp as [Hp _]. discriminate.
  - intros [|p] n c Hn Hc; [|discriminate]. injection Hn as <-.
    simpl in Hc. inversion Hc.
Qed.

Lemma dom_ok_body (t : Token) (st st' : dom_state) :
  dom_ok st -> build_dom_body t st = Ok st' -> dom_ok st'.
Proof.
  intros (Htext & Hstack & Hkids) H.
  destruct (decide (type t = EndTag)) as [Ht|Ht].
  - rewrite (build_dom_body_end _ _ Ht) in H. injection H as <-.
    split; [|split]; assumption.
  - apply (build_dom_body_new _ _ _ Ht) in H
      as (top & n & capacity & Htop & _ & Hn & Hheap & Hst & _ & _).
    simpl in *.
    destruct (Hstack _ _ Htop) as (n0 & Hn0 & Helt).
    pose proof (lookup_lt_Some _ _ _ Hn0) as Hlt.
    rewrite lookup_app_l in Hn by exact Hlt.
    assert (n0 = n) as -> by congruence. clear Hn0.
    (* the nodes of the new heap *)
    assert (Hlook : forall p m, heap st' !! p = Some m ->
              (p = top /\ m = mkNode (name n) (children n ++ [length (heap st)])
                                     capacity (is_text n))
              \/ (p <> top /\ heap st !! p = Some m)
              \/ (p = length (heap st) /\
                  m = mkNode (data t) [] 4
                             (match type t with Text => 1 | _ => 0 end))).
    { intros p m Hm. rewrite Hheap in Hm.
      destruct (decide (p = top)) as [->|Hne].
      - rewrite list_lookup_insert_eq in Hm
          by (rewrite length_app; simpl; lia).
        left. split; congruence.
      - rewrite list_lookup_insert_ne in Hm by congruence.
        right. apply lookup_app_Some in Hm as [Hm|[Hge Hm]]; [left; auto|].
        right. apply list_lookup_singleton_Some in Hm as [Hz <-].
        split; [lia | reflexivity]. }
    assert (Hlen : length (heap st') = S (length (heap st))).
    { rewrite Hheap, length_insert, length_app. simpl. lia. }
    assert (Hold : forall p m, heap st !! p = Some m -> is_text m = 0 ->
              exists m', heap st' !! p = Some m' /\ is_text m' = 0).
    { intros p m Hm Hm0. rewrite Hheap.
      destruct (decide (p = top)) as [->|Hne].
      - eexists. rewrite list_lookup_insert_eq
          by (rewrite length_app; simpl; lia).
        split; [reflexivity | exact Helt].
      - exists m. rewrite list_lookup_insert_ne by congruence.
        rewrite lookup_app_l by (eapply lookup_lt_Some; eauto). auto. }
    split; [|split].
    + intros p m Hm Hm1.
      destruct (Hlook p m Hm) as [[-> ->]|[[_ Hm']|[-> ->]]]; simpl in *.
      * congruence.
      * eauto.
      * reflexivity.
    + intros i p Hp. rewrite Hst in Hp.
      assert (Hcase : stack st !! i = Some (Some p)
                      \/ (type t = StartTag /\ p = length (heap st))).
      { destruct (type t); auto.
        destruct (decide (i = Z.to_nat (stack_size st))) as [->|Hne].
        - destruct (decide (Z.to_nat (stack_size st) < length (stack st))%nat).
          + rewrite list_lookup_insert_eq in Hp by assumption.
            right. split; congruence.
          + rewrite list_insert_ge in Hp by lia. auto.
        - rewrite list_lookup_insert_ne in Hp by congruence. auto. }
      destruct Hcase as [Hp'|[Hty ->]].
      * destruct (Hstack _ _ Hp') as (m & Hm & Hm0). eauto.
      * rewrite Hheap. eexists.
        rewrite list_lookup_insert_ne by lia.
        rewrite lookup_app_r, Nat.sub_diag by lia. simpl.
        split; [reflexivity|]. rewrite Hty. reflexivity.
    + intros p m c Hm Hc. rewrite Hlen.
      destruct (Hlook p m Hm) as [[-> ->]|[[_ Hm']|[-> ->]]]; simpl in *.
      * apply elem_of_app in Hc as [Hc|Hc].
        -- specialize (Hkids _ _ _ Hn Hc). lia.
        -- apply list_elem_of_singleton in Hc. lia.
      * specialize (Hkids _ _ _ Hm' Hc). lia.
      * inversion Hc.
Qed.



Lemma build_dom_fold_ok (toks : list Token) (st st' : dom_state) :
  dom_ok st -> build_dom_fold toks st = Ok st' -> dom_ok st'.
Proof.
  intros Hok. apply (build_dom_fold_invariant dom_ok); [|exact Hok].
  intros t s s' Hs. apply dom_ok_body. exact Hs.
Qed.



End TreeBuilderInvariants.

(** ** Trees read off the heap *)

Section Trees.

Variable h : list Node.

(** What holds for the nodes of the heap holds for the nodes of the tree. *)
Lemma tree_of_childless (fuel : nat) (p : ptr) (t : Tree) :
  (forall q n, h !! q = Some n -> is_text n <> 0 -> children n = []) ->
  tree_of fuel h p = Some t ->
  Forall (fun sub => tree_is_text sub <> 0 -> tree_kids sub = [])
         (tree_nodes t).
Proof.
  intros Hheap. revert p t.
  induction fuel as [|fuel IH]; intros p t H; simpl in H; [discriminate|].
  destruct (h !! p) as [n|] eqn:En; simpl in H; [|discriminate].
  destruct (mapM (tree_of fuel h) (children n)) as [kids|] eqn:Ek;
    simpl in H; [|discriminate].
  injection H as <-. apply mapM_Some in Ek. simpl. constructor.
  - simpl. intros Ht. rewrite (Hheap p n En Ht) in Ek.
    inversion Ek. reflexivity.
  - apply Forall_concat, Forall_fmap.
    induction Ek as [|c k cs ks Hck _ IHk]; constructor; [|exact IHk].
    simpl. exact (IH c k Hck).
Qed.

End Trees.

(** ** Inputs on which the tokenizer is defined *)

Section TokenizerDefined.

Variable html : list ascii.
Hypothesis html_short : strlen html <= 255.

Lemma array_set_in_range {A : Type} (oob : Z -> error) (a : list A) (i : Z) (c : A) :
  0 <= i < Z.of_nat (length a) ->
  array_set oob a i c = Ok (<[Z.to_nat i := c]> a).
Proof.
  intros Hi. unfold array_set.
  destruct (Z.leb_spec 0 i); destruct (Z.ltb_spec i (Z.of_nat (length a)));
    simpl; try lia. reflexivity.
Qed.

Lemma double_capacity_small (c : Z) :
  0 < c <= 1073741823 -> double_capacity c = Ok (c * 2).
Proof.
  intros Hc. unfold double_capacity.
  rewrite !(proj2 (Z.leb_le _ _)) by (unfold INT_MAX; lia). reflexivity.
Qed.

Lemma push_token_defined (ty : TokenType) (a : list ascii) (d : string)
    (st : tok_state) :
  strdup a = Ok d -> 0 < token_capacity st ->
  token_count st <= token_capacity st -> token_count st <= 1024 ->
  exists capacity,
    push_token ty a st
    = Ok (mkTok (tokens st ++ [mkToken ty d]) capacity (pos st) (buffer st)
                (buffer_pos st) (steps st)) /\
    0 < capacity /\ token_count st + 1 <= capacity.
Proof.
  intros Hd Hcap Hcount Hsmall. unfold push_token.
  destruct (Z.geb_spec (token_count st) (token_capacity st)) as [Hge|Hlt].
  - rewrite double_capacity_small by lia. simpl.
    destruct (Z.ltb_spec (token_count st) (token_capacity st * 2)); [|lia].
    rewrite Hd. simpl. eexists. split; [reflexivity | lia].
  - simpl. destruct (Z.ltb_spec (token_count st) (token_capacity st)); [|lia].
    rewrite Hd. simpl. eexists. split; [reflexivity | lia].
Qed.

Lemma flushed_bound (st : tok_state) :
  0 <= Z.of_nat (length (flushed st)) <= 1.
Proof. rewrite flushed_length. destruct (buffer_pos st >? 0); lia. Qed.

Lemma strdup_pending (st : tok_state) :
  buf_ok st -> (Z.to_nat (buffer_pos st) < length (buffer st))%nat ->
  strdup (<[Z.to_nat (buffer_pos st) := NUL]> (buffer st))
  = Ok (string_of_list_ascii (pending st)).
Proof. intros (_ & Hall & _) Hlt. apply strdup_insert; assumption. Qed.

Lemma flush_remaining_defined (st : tok_state) :
  fits st -> pos st <= 256 -> exists st', flush_remaining st = Ok st'.
Proof.
  intros (Hbuf & Hlen & Hbp & Hcap & Hcount & Htok) Hpos.
  pose proof (flushed_bound st) as Hfl.
  unfold flush_remaining. destruct (buffer_pos st >? 0); [|eauto].
  destruct Hbuf as (Hb0 & Hall & Hpl).
  rewrite array_set_in_range by lia. simpl.
  destruct (push_token_defined Text
              (<[Z.to_nat (buffer_pos st) := NUL]> (buffer st))
              (string_of_list_ascii (pending st))
              (mkTok (tokens st) (token_capacity st) (pos st)
                 (<[Z.to_nat (buffer_pos st) := NUL]> (buffer st))
                 (buffer_pos st) (steps st)))
    as (capacity & Hpush & _);
    [apply strdup_pending; [repeat split; auto | lia]
    | exact Hcap | exact Hcount | unfold token_count in *; simpl; lia |].
  rewrite Hpush. eauto.
Qed.

Lemma flush_text_defined (st : tok_state) :
  fits st -> pos st <= 256 ->
  exists st', flush_text st = Ok st' /\
    length (buffer st') = 1024%nat /\
    0 < token_capacity st' /\ token_count st' <= token_capacity st'.
Proof.
  intros (Hbuf & Hlen & Hbp & Hcap & Hcount & Htok) Hpos.
  pose proof (flushed_bound st) as Hfl.
  unfold flush_text, flushed in *.
  destruct (buffer_pos st >? 0); [|eauto 6].
  destruct Hbuf as (Hb0 & Hall & Hpl).
  rewrite array_set_in_range by lia. simpl.
  destruct (push_token_defined Text
              (<[Z.to_nat (buffer_pos st) := NUL]> (buffer st))
              (string_of_list_ascii (pending st))
              (mkTok (tokens st) (token_capacity st) (pos st)
                 (<[Z.to_nat (buffer_pos st) := NUL]> (buffer st))
                 (buffer_pos st) (steps st)))
    as (capacity & Hpush & Hc0 & Hc1);
    [apply strdup_pending; [repeat split; auto | lia]
    | exact Hcap | exact Hcount | unfold token_count in *; simpl; lia |].
  rewrite Hpush. simpl.
  rewrite array_set_in_range by (simpl; rewrite length_insert; lia). simpl.
  eexists. split; [reflexivity|]. simpl.
  rewrite !length_insert. unfold token_count in *. simpl in *.
  rewrite length_app. simpl. repeat split; lia.
Qed.

Lemma scan_tag_name_defined (fuel : nat) (p tag_pos : Z) (tag_name : list ascii) :
  0 <= p -> 0 <= tag_pos ->
  (Z.to_nat (strlen html - p) <= fuel)%nat ->
  tag_pos + Z.max 0 (strlen html - p) <= Z.of_nat (length tag_name) ->
  exists p2 tag_pos2 tag_name2,
    scan_tag_name fuel html p tag_pos tag_name = Ok (p2, tag_pos2, tag_name2) /\
    length tag_name2 = length tag_name.
Proof.
  revert p tag_pos tag_name.
  induction fuel as [|fuel IH]; intros p tag_pos tag_name Hp Ht Hf Hfit; simpl;
    destruct (Z.ltb_spec p (strlen html)) as [Hlt|Hge]; simpl;
    try destruct (Ascii.eqb (char_at html p) ">"%char); simpl;
    try lia; eauto.
  rewrite array_set_in_range by lia. simpl.
  destruct (IH (p + 1) (tag_pos + 1)
               (<[Z.to_nat tag_pos := char_at html p]> tag_name))
    as (p2 & tp2 & t2 & Hscan & Hlen); try lia.
  - rewrite length_insert. lia.
  - rewrite length_insert in Hlen. eauto.
Qed.

Lemma tokenize_body_defined (st : tok_state) :
  fits st -> 0 <= pos st < strlen html ->
  exists st', tokenize_body html st = Ok st' /\ fits st'.
Proof.
  intros Hfits Hpos.
  assert (Hex : exists st', tokenize_body html st = Ok st' /\
            length (buffer st') = 1024%nat /\
            0 < token_capacity st' /\ token_count st' <= token_capacity st').
  { pose proof Hfits as (Hbuf & Hlen & Hbp & Hcap & Hcount & Htok).
    pose proof (flushed_bound st) as Hfl.
    unfold tokenize_body.
    destruct (Ascii.eqb (char_at html (pos st)) "<"%char).
    - destruct (flush_text_defined st) as (st1 & Hflush & Hl1 & Hc1 & Hk1);
        [exact Hfits | lia |].
      rewrite Hflush, bind_Ok. cbv beta.
      destruct (flush_text_Ok _ _ Hbuf Hflush) as (Ht1 & Hp1 & _ & Hb1).
      rewrite Hp1.
      set (is_end_tag := (pos st + 1 <? strlen html)
                         && Ascii.eqb (char_at html (pos st + 1)) "/"%char).
      set (p1 := pos st + (if is_end_tag then 2 else 1)).
      assert (Hp1' : pos st < p1 <= strlen html).
      { subst p1 is_end_tag.
        destruct (Z.ltb_spec (pos st + 1) (strlen html)); simpl;
          try destruct (Ascii.eqb _ "/"%char); lia. }
      destruct (scan_tag_name_defined (Z.to_nat (strlen html)) p1 0
                  (replicate 256 NUL))
        as (p2 & tag_pos & tag_name & Hscan & Hlt);
        [lia | lia | lia | rewrite length_replicate; lia |].
      rewrite Hscan, bind_Ok. cbv beta iota.
      apply scan_tag_name_Ok in Hscan as (H1 & H2 & _ & _ & H5); try lia.
      rewrite length_replicate in Hlt.
      change (take (Z.to_nat 0) (replicate 256 NUL)) with (@nil ascii) in H5.
      simpl in H5.
      rewrite array_set_in_range by lia. rewrite bind_Ok.
      destruct (push_token_defined (if is_end_tag then EndTag else StartTag)
                  (<[Z.to_nat tag_pos := NUL]> tag_name)
                  (string_of_list_ascii (slice html p1 p2))
                  (mkTok (tokens st1) (token_capacity st1) (p2 + 1)
                     (buffer st1) (buffer_pos st1) (steps st1 + 1 + tag_pos)))
        as (capacity & Hpush & Hc0 & Hc1').
      + rewrite strdup_insert; [rewrite H5; reflexivity | lia |].
        rewrite H5. apply slice_not_NUL; lia.
      + exact Hc1.
      + exact Hk1.
      + unfold token_count in *. simpl. rewrite Ht1, length_app. lia.
      + rewrite Hpush. eexists. split; [reflexivity|].
        unfold token_count in *. simpl in *. rewrite length_app. simpl.
        repeat split; auto; lia.
    - destruct Hbuf as (Hb0 & _).
      rewrite array_set_in_range by lia. rewrite bind_Ok.
      eexists. split; [reflexivity|]. simpl. rewrite length_insert. auto. }
  destruct Hex as (st' & Hbody & Hlen' & Hcap' & Hcount').
  exists st'. split; [exact Hbody|].
  destruct Hfits as (Hbuf & Hlen & Hbp & Hcap & Hcount & Htok).
  pose proof (flushed_bound st) as Hfl.
  pose proof (tokenize_body_Ok html _ _ Hbuf Hpos Hbody) as Hpost.
  pose proof (body_post_buf_ok html _ _ Hbuf Hpos Hpost) as Hbuf'.
  repeat split; try assumption; try apply Hbuf'.
  - unfold body_post in Hpost.
    destruct (Ascii.eqb (char_at html (pos st)) "<"%char).
    + destruct Hpost as (p2 & Hp2 & _ & _ & _ & -> & -> & _).
      destruct ((pos st + 1 <? strlen html)
                && Ascii.eqb (char_at html (pos st + 1)) "/"%char); lia.
    + destruct Hpost as (_ & -> & -> & _). lia.
  - rewrite flushed_length. unfold body_post, token_count in *.
    destruct (Ascii.eqb (char_at html (pos st)) "<"%char).
    + destruct Hpost as (p2 & Hp2 & _ & _ & -> & -> & -> & _).
      rewrite !length_app. simpl.
      destruct ((pos st + 1 <? strlen html)
                && Ascii.eqb (char_at html (pos st + 1)) "/"%char); lia.
    + destruct Hpost as (-> & -> & -> & _).
      destruct (buffer_pos st + 1 >? 0); lia.
Qed.

Lemma tokenize_loop_defined (fuel : nat) (st : tok_state) :
  fits st -> 0 <= pos st <= strlen html + 1 ->
  (Z.to_nat (strlen html - pos st) <= fuel)%nat ->
  exists st', tokenize_loop fuel html st = Ok st' /\ fits st' /\
              pos st' <= strlen html + 1.
Proof.
  revert st.
  induction fuel as [|fuel IH]; intros st Hfits Hpos Hf; simpl;
    destruct (Z.ltb_spec (pos st) (strlen html)) as [Hlt|Hge];
    try (exfalso; lia);
    try (exists st; split; [reflexivity|]; split; [assumption | lia]).
  destruct (tokenize_body_defined st Hfits) as (st1 & Hbody & Hfits1); [lia|].
  rewrite Hbody. simpl.
  destruct Hfits as (Hbuf & _).
  assert (Hpost : body_post html st st1)
    by (apply tokenize_body_Ok; auto; lia).
  pose proof (body_post_advances html _ _ Hpost) as Hadv.
  apply IH; [exact Hfits1 | | lia].
  split; [lia|]. unfold body_post in Hpost.
  destruct (Ascii.eqb (char_at html (pos st)) "<"%char).
  - destruct Hpost as (p2 & Hp2 & _ & _ & _ & -> & _). lia.
  - destruct Hpost as (_ & -> & _). lia.
Qed.

(** An input of at most 255 bytes overruns none of the arrays. *)
Lemma tokenize_run_defined (capacity : Z) :
  0 < capacity -> exists st, tokenize_run html capacity = Ok st.
Proof.
  intros Hcap. unfold tokenize_run.
  pose proof (strlen_nonneg html) as Hn.
  destruct (tokenize_loop_defined (Z.to_nat (strlen html))
              (tokenize_init capacity))
    as (st & Hloop & Hfits & Hpos).
  - repeat split; simpl; try lia; try constructor;
      unfold token_count; simpl; lia.
  - simpl. lia.
  - simpl. lia.
  - rewrite Hloop. simpl. apply flush_remaining_defined; [exact Hfits | lia].
Qed.

End TokenizerDefined.

(** ** The shape of the tree *)

Section TreeShape.

Lemma tree_ptrs_S (fuel : nat) (h : list Node) (p : ptr) :
  tree_ptrs (S fuel) h p
  = (n ← h !! p; ks ← mapM (tree_ptrs fuel h) (children n);
     Some (p :: concat ks)).
Proof. reflexivity. Qed.

(** Where the pointers of a tree can be listed, the tree can be read off,
    and it has as many nodes as the list has pointers. *)
Lemma tree_of_ptrs (h : list Node) (fuel : nat) (p : ptr) (l : list ptr) :
  tree_ptrs fuel h p = Some l ->
  exists t, tree_of fuel h p = Some t /\ length (tree_nodes t) = length l.
Proof.
  revert p l. induction fuel as [|fuel IH]; intros p l H; [discriminate|].
  rewrite tree_ptrs_S in H.
  destruct (h !! p) as [n|] eqn:En; simpl in H; [|discriminate].
  destruct (mapM (tree_ptrs fuel h) (children n)) as [ks|] eqn:Ek;
    simpl in H; [|discriminate].
  injection H as <-. apply mapM_Some in Ek.
  assert (Hkids : exists kids,
             Forall2 (fun c k => tree_of fuel h c = Some k) (children n) kids /\
             length (concat (map tree_nodes kids)) = length (concat ks)).
  { clear En. induction Ek as [|c k cs ks0 Hck _ IHk].
    - exists []. split; [constructor | reflexivity].
    - destruct (IH _ _ Hck) as (t & Ht & Hl).
      destruct IHk as (kids & Hk & Hlen).
      exists (t :: kids). split; [constructor; assumption|].
      simpl. rewrite !length_app. congruence. }
  destruct Hkids as (kids & Hk & Hlen).
  exists (TreeNode (name n) (is_text n) kids). split.
  - simpl. rewrite En. simpl. rewrite (mapM_Some_2 _ _ _ Hk). reflexivity.
  - simpl. f_equal. exact Hlen.
Qed.

Section Graft.

(** The heap [h'] after a new leaf has been allocated and put below the
    node [top] of the heap [h]. *)
Variables (h : list Node) (top : ptr) (n new : Node) (capacity : Z).
Hypothesis top_node : h !! top = Some n.
Hypothesis new_leaf : children new = [].

Let h' : list Node :=
  <[top := mkNode (name n) (children n ++ [length h]) capacity (is_text n)]>
    (h ++ [new]).

Lemma graft_lookup_top :
  h' !! top
  = Some (mkNode (name n) (children n ++ [length h]) capacity (is_text n)).
Proof.
  pose proof (lookup_lt_Some _ _ _ top_node). unfold h'.
  apply list_lookup_insert_eq. rewrite length_app. simpl. lia.
Qed.

Lemma graft_lookup_old (p : ptr) (m : Node) :
  p <> top -> h !! p = Some m -> h' !! p = Some m.
Proof.
  intros Hne Hm. unfold h'. rewrite list_lookup_insert_ne by congruence.
  rewrite lookup_app_l by (eapply lookup_lt_Some; eauto). exact Hm.
Qed.

Lemma graft_lookup_new : h' !! length h = Some new.
Proof.
  pose proof (lookup_lt_Some _ _ _ top_node). unfold h'.
  rewrite list_lookup_insert_ne by lia.
  rewrite lookup_app_r, Nat.sub_diag by lia. reflexivity.
Qed.

Lemma graft_ptrs_new (fuel : nat) :
  tree_ptrs (S fuel) h' (length h) = Some [length h].
Proof.
  rewrite tree_ptrs_S, graft_lookup_new. simpl. rewrite new_leaf. reflexivity.
Qed.

(** The pointers below [p] in [h'] are those in [h] and the new leaf, once
    for every occurrence of [top]. *)
Lemma graft_ptrs (fuel : nat) (p : ptr) (l : list ptr) :
  tree_ptrs fuel h p = Some l ->
  exists l',
    tree_ptrs (S fuel) h' p = Some l' /\
    l' ≡ₚ l ++ replicate (count_occ Nat.eq_dec l top) (length h).
Proof.
  revert p l. induction fuel as [|fuel IH]; intros p l H; [discriminate|].
  rewrite tree_ptrs_S in H.
  destruct (h !! p) as [m|] eqn:Em; simpl in H; [|discriminate].
  destruct (mapM (tree_ptrs fuel h) (children m)) as [ks|] eqn:Ek;
    simpl in H; [|discriminate].
  injection H as <-. apply mapM_Some in Ek.
  assert (Hkids : exists ks',
             Forall2 (fun c k => tree_ptrs (S fuel) h' c = Some k)
                     (children m) ks' /\
             concat ks'
             ≡ₚ concat ks
                ++ replicate (count_occ Nat.eq_dec (concat ks) top) (length h)).
  { clear Em. induction Ek as [|c k cs ks0 Hck _ IHk].
    - exists []. split; [constructor | reflexivity].
    - destruct (IH _ _ Hck) as (k' & Hk' & Hp).
      destruct IHk as (ks' & Hks' & Hps).
      exists (k' :: ks'). split; [constructor; assumption|].
      simpl. rewrite count_occ_app, replicate_add, Hp, Hps.
      rewrite <- !app_assoc. apply Permutation_app_head.
      rewrite !app_assoc. apply Permutation_app_tail, Permutation_app_comm. }
  destruct Hkids as (ks' & Hks' & Hperm).
  destruct (decide (p = top)) as [->|Hne].
  - assert (m = n) as -> by congruence.
    exists (top :: concat (ks' ++ [[length h]])). split.
    + rewrite tree_ptrs_S, graft_lookup_top. cbn [mbind option_bind children].
      rewrite (mapM_Some_2 _ _ (ks' ++ [[length h]])); [reflexivity|].
      apply Forall2_app; [exact Hks'|].
      constructor; [apply graft_ptrs_new | constructor].
    + rewrite concat_app. simpl concat.
      rewrite count_occ_cons_eq by reflexivity.
      rewrite replicate_S_end, Hperm. simpl. rewrite <- app_assoc. reflexivity.
  - exists (p :: concat ks'). split.
    + rewrite tree_ptrs_S, (graft_lookup_old _ _ Hne Em).
      cbn [mbind option_bind].
      rewrite (mapM_Some_2 _ _ _ Hks'). reflexivity.
    + rewrite count_occ_cons_neq by congruence. simpl. rewrite Hperm.
      reflexivity.
Qed.

End Graft.

Lemma tree_shape_init :
  tree_shape (mkDom [mkNode "document" [] 4 0]
                    (Some 0%nat :: replicate 127 None) 1).
Proof. exists [0%nat]. split; reflexivity. Qed.

Lemma tree_shape_body (t : Token) (st st' : dom_state) :
  dom_ok st -> tree_shape st -> build_dom_body t st = Ok st' -> tree_shape st'.
Proof.
  intros (_ & Hstack & _) (l & Hl & Hperm) H.
  destruct (decide (type t = EndTag)) as [Ht|Ht].
  - rewrite (build_dom_body_end _ _ Ht) in H. injection H as <-.
    exists l. auto.
  - apply (build_dom_body_new _ _ _ Ht) in H
      as (top & n & capacity & Htop & _ & Hn & Hheap & _).
    simpl in *.
    destruct (Hstack _ _ Htop) as (n0 & Hn0 & _).
    pose proof (lookup_lt_Some _ _ _ Hn0) as Hlt.
    rewrite lookup_app_l in Hn by exact Hlt.
    destruct (graft_ptrs (heap st) top n
                (mkNode (data t) [] 4 (match type t with Text => 1 | _ => 0 end))
                capacity Hn eq_refl _ _ _ Hl) as (l' & Hl' & Hperm').
    rewrite <- Hheap in Hl'.
    assert (Hlen : length (heap st') = S (length (heap st))).
    { rewrite Hheap, length_insert, length_app. simpl. lia. }
    exists l'. rewrite Hlen. split; [exact Hl'|].
    rewrite Hperm', seq_S. simpl.
    assert (Hcount : count_occ Nat.eq_dec l top = 1%nat).
    { rewrite (proj1 (Permutation_count_occ Nat.eq_dec _ _) Hperm).
      apply NoDup_count_occ'; [apply List.seq_NoDup|].
      apply in_seq. lia. }
    rewrite Hcount. simpl. rewrite Hperm. reflexivity.
Qed.

Lemma build_dom_fold_shape (toks : list Token) (st st' : dom_state) :
  dom_ok st -> tree_shape st -> build_dom_fold toks st = Ok st' ->
  tree_shape st'.
Proof.
  intros Hok Hshape H.
  apply (build_dom_fold_invariant (fun s => dom_ok s /\ tree_shape s)
           (fun t s s' Hs Hb =>
              conj (dom_ok_body t s s' (proj1 Hs) Hb)
                   (tree_shape_body t s s' (proj1 Hs) (proj2 Hs) Hb))
           toks st st' (conj Hok Hshape) H).
Qed.

(** The tree [build_dom] returns can be read off the heap, and its nodes
    are the nodes of the heap. *)
Lemma build_tree_shape (toks : list Token) (root : ptr) (h : list Node) :
  build_tree toks = Ok (root, h) ->
  exists t, tree_of_dom (root, h) = Some t /\
            length (tree_nodes t) = length h.
Proof.
  unfold build_tree, build_dom. intros H. inv_bind H. injection H as <- <-.
  rewrite build_dom_run_fold in E.
  destruct (build_dom_fold_shape _ _ _ dom_ok_init tree_shape_init E)
    as (l & Hl & Hperm).
  destruct (tree_of_ptrs _ _ _ _ Hl) as (t & Ht & Hlen).
  exists t. split; [exact Ht|].
  rewrite Hlen, Hperm. apply length_seq.
Qed.

End TreeShape.

(** ** Token sequences on which the tree builder is defined *)

Section TreeBuilderDefined.

Lemma stack_get_defined (st : dom_state) (i : Z) (p : ptr) :
  0 <= i < Z.of_nat (length (stack st)) ->
  stack st !! Z.to_nat i = Some (Some p) -> stack_get st i = Ok p.
Proof.
  intros Hi Hp. unfold stack_get.
  destruct (Z.leb_spec 0 i); destruct (Z.ltb_spec i (Z.of_nat (length (stack st))));
    simpl; try lia. rewrite Hp. reflexivity.
Qed.

Lemma add_child_defined (parent child : ptr) (h : list Node) (n : Node) :
  h !! parent = Some n ->
  4 <= child_capacity n -> child_count n <= child_capacity n ->
  child_count n <= 1073741823 ->
  exists capacity,
    add_child parent child h
    = Ok (<[parent := mkNode (name n) (children n ++ [child]) capacity
                             (is_text n)]> h) /\
    4 <= capacity /\ child_count n + 1 <= capacity.
Proof.
  intros Hn Hcap Hcount Hsmall. unfold add_child. rewrite Hn.
  destruct (Z.geb_spec (child_count n) (child_capacity n)) as [Hge|Hlt].
  - rewrite double_capacity_small, bind_Ok by lia.
    destruct (Z.ltb_spec (child_count n) (child_capacity n * 2)); [|lia].
    eexists. split; [reflexivity | lia].
  - rewrite bind_Ok.
    destruct (Z.ltb_spec (child_count n) (child_capacity n)); [|lia].
    eexists. split; [reflexivity | lia].
Qed.

(** Allocating a node and hanging it below the node on top of the stack. *)
Lemma attach_defined (st : dom_state) (new : Node) :
  dom_fits st -> 1 <= stack_size st ->
  Z.of_nat (length (heap st)) <= 1073741823 ->
  children new = [] -> child_capacity new = 4 ->
  exists top h',
    stack_get st (stack_size st - 1) = Ok top /\
    add_child top (length (heap st)) (heap st ++ [new]) = Ok h' /\
    length h' = S (length (heap st)) /\
    (forall p n, h' !! p = Some n ->
                 4 <= child_capacity n /\ child_count n <= child_capacity n /\
                 child_count n < Z.of_nat (length h')).
Proof.
  intros (Hlen & Hsize & Hstack & Hnodes) Hopen Hsmall Hkids Hcap.
  destruct (Hstack (Z.to_nat (stack_size st - 1))) as (top & Htop & Hlt); [lia|].
  destruct (lookup_lt_is_Some_2 (heap st) top Hlt) as [n Hn].
  destruct (Hnodes _ _ Hn) as (Hn4 & Hnc & Hnl).
  destruct (add_child_defined top (length (heap st)) (heap st ++ [new]) n)
    as (capacity & Hadd & Hc4 & Hcc); try assumption; try lia.
  { rewrite lookup_app_l by exact Hlt. exact Hn. }
  exists top. eexists. split; [apply stack_get_defined; [lia | exact Htop]|].
  split; [exact Hadd|].
  assert (Hl : length (<[top := mkNode (name n) (children n ++ [length (heap st)])
                                       capacity (is_text n)]> (heap st ++ [new]))
               = S (length (heap st))).
  { rewrite length_insert, length_app. simpl. lia. }
  split; [exact Hl|]. rewrite Hl.
  intros p m Hm. destruct (decide (p = top)) as [->|Hne].
  - rewrite list_lookup_insert_eq in Hm by (rewrite length_app; simpl; lia).
    injection Hm as <-. unfold child_count in *. simpl.
    rewrite length_app. simpl. lia.
  - rewrite list_lookup_insert_ne in Hm by congruence.
    apply lookup_app_Some in Hm as [Hm|[_ Hm]].
    + destruct (Hnodes _ _ Hm) as (H4 & Hc & Hl'). lia.
    + apply list_lookup_singleton_Some in Hm as [_ <-].
      unfold child_count. rewrite Hkids, Hcap. simpl. lia.
Qed.

Lemma build_dom_body_defined (t : Token) (r : list Token) (st : dom_state) :
  dom_fits st -> Z.of_nat (length (heap st)) <= 1073741823 ->
  nesting_ok (stack_size st) (t :: r) = true ->
  exists st',
    build_dom_body t st = Ok st' /\ dom_fits st' /\
    (length (heap st') <= S (length (heap st)))%nat /\
    nesting_ok (stack_size st') r = true.
Proof.
  intros Hfits Hsmall Hnest. simpl in Hnest.
  pose proof Hfits as (Hlen & Hsize & Hstack & Hnodes).
  unfold build_dom_body, create_node. destruct (type t).
  - apply andb_prop in Hnest as [Hnest Hr]. apply andb_prop in Hnest as [H1 H2].
    apply Z.leb_le in H1, H2.
    destruct (attach_defined st (mkNode (data t) [] 4 0))
      as (top & h' & Hget & Hadd & Hl & Hn'); auto.
    rewrite Hget, bind_Ok, Hadd, bind_Ok.
    rewrite array_set_in_range, bind_Ok by lia.
    eexists. split; [reflexivity|]. unfold dom_fits. simpl.
    split; [|split; [lia | exact Hr]].
    split; [rewrite length_insert; exact Hlen|]. split; [lia|].
    split; [|exact Hn'].
    intros i Hi. rewrite Hl.
    destruct (decide (i = Z.to_nat (stack_size st))) as [->|Hne].
    + exists (length (heap st)).
      rewrite list_lookup_insert_eq by lia. split; [reflexivity | lia].
    + rewrite list_lookup_insert_ne by congruence.
      destruct (Hstack i) as (p & Hp & Hlt); [lia|]. exists p. split; [exact Hp | lia].
  - destruct (Z.gtb_spec (stack_size st) 0);
      (eexists; split; [reflexivity|];
       split; [|split; [simpl; lia | exact Hnest]]).
    + unfold dom_fits. simpl.
      split; [exact Hlen|]. split; [lia|]. split; [|exact Hnodes].
      intros i Hi. apply Hstack. lia.
    + exact Hfits.
  - apply andb_prop in Hnest as [H1 Hr]. apply Z.leb_le in H1.
    destruct (attach_defined st (mkNode (data t) [] 4 1))
      as (top & h' & Hget & Hadd & Hl & Hn'); auto.
    rewrite Hget, bind_Ok, Hadd, bind_Ok.
    eexists. split; [reflexivity|]. unfold dom_fits. simpl.
    split; [|split; [lia | exact Hr]].
    split; [exact Hlen|]. split; [lia|]. split; [|exact Hn'].
    intros i Hi. rewrite Hl.
    destruct (Hstack i Hi) as (p & Hp & Hlt). exists p. split; [exact Hp | lia].
Qed.

Lemma build_dom_fold_defined (toks : list Token) (st : dom_state) :
  dom_fits st ->
  Z.of_nat (length (heap st)) + Z.of_nat (length toks) <= 1073741824 ->
  nesting_ok (stack_size st) toks = true ->
  exists st', build_dom_fold toks st = Ok st'.
Proof.
  revert st. induction toks as [|t r IH]; intros st Hfits Hsmall Hnest; simpl.
  - eauto.
  - simpl in Hsmall.
    destruct (build_dom_body_defined t r st Hfits) as (st1 & Hb & Hf1 & Hl1 & Hn1);
      [lia | exact Hnest |].
    rewrite Hb, bind_Ok. apply IH; [exact Hf1 | lia | exact Hn1].
Qed.

Lemma build_dom_fold_nesting (toks : list Token) (st st' : dom_state) :
  length (stack st) = 128%nat ->
  build_dom_fold toks st = Ok st' -> nesting_ok (stack_size st) toks = true.
Proof.
  revert st. induction toks as [|t r IH]; intros st Hlen H; simpl in *;
    [reflexivity|].
  inv_bind H. destruct (decide (type t = EndTag)) as [Ht|Ht].
  - rewrite Ht. rewrite (build_dom_body_end _ _ Ht) in E. injection E as <-.
    apply IH in H; [exact H | exact Hlen].
  - apply (build_dom_body_new _ _ _ Ht) in E
      as (top & n & capacity & _ & Hopen & _ & _ & Hst & Hsz & Hfree).
    assert (Hlen' : length (stack a) = 128%nat).
    { rewrite Hst. destruct (type t); try exact Hlen.
      rewrite length_insert. exact Hlen. }
    specialize (IH _ Hlen' H). rewrite Hsz in IH.
    destruct (type t); [|congruence|].
    + specialize (Hfree eq_refl). rewrite Hlen in Hfree.
      rewrite IH, andb_true_r. apply andb_true_intro.
      split; [apply Z.leb_le | apply Z.leb_le]; lia.
    + rewrite IH, andb_true_r. apply Z.leb_le. lia.
Qed.

Lemma dom_fits_init :
  dom_fits (mkDom [mkNode "document" [] 4 0]
                  (Some 0%nat :: replicate 127 None) 1).
Proof.
  split; [reflexivity|]. split; [simpl; lia|]. split.
  - intros i Hi. assert (i = 0%nat) as -> by (simpl in Hi; lia).
    exists 0%nat. split; [reflexivity | simpl; lia].
  - intros [|p] n Hn; [|discriminate]. injection Hn as <-.
    unfold child_count. simpl. lia.
Qed.

(** [build_dom] is defined exactly on the token sequences that keep
    [stack_size] between 1 and the size of [stack] where a node is
    attached. *)
Lemma build_tree_defined_iff (toks : list Token) :
  Z.of_nat (length toks) < 1073741824 ->
  (exists d, build_tree toks = Ok d) <-> nesting_ok 1 toks = true.
Proof.
  intros Hsmall. unfold build_tree, build_dom.
  rewrite build_dom_run_fold. split.
  - intros [d H]. inv_bind H.
    apply build_dom_fold_nesting in E; [exact E | reflexivity].
  - intros Hnest.
    destruct (build_dom_fold_defined toks _ dom_fits_init) as [st Hst];
      [simpl; lia | exact Hnest |].
    rewrite Hst. eexists. reflexivity.
Qed.

End TreeBuilderDefined.

(** * The properties of the specification *)

Lemma tokenize_Ok (html : string) (capacity : Z) (toks : list Token) :
  tokenize html capacity = Ok toks ->
  exists st, tokenize_run (list_ascii_of_string html) capacity = Ok st /\
             tokens st = toks.
Proof.
  unfold tokenize. intros H. inv_bind H. injection H as <-. eauto.
Qed.


(** An end tag met while the root alone is on the stack takes the root off
    the stack. *)
Lemma end_tag_on_root (t : Token) (st : dom_state) :
  type t = EndTag -> stack_size st = 1 ->
  build_dom_body t st = Ok (mkDom (heap st) (stack st) 0).
Proof. intros Ht Hs. rewrite (build_dom_body_end _ _ Ht), Hs. reflexivity. Qed.

(** With the root off the stack, a start tag or a text reads [stack[-1]]. *)
Lemma no_parent_below_root (t : Token) (st : dom_state) :
  type t <> EndTag -> stack_size st = 0 ->
  build_dom_body t st = Err (StackOutOfBounds (-1)).
Proof.
  intros Ht Hs. unfold build_dom_body, create_node, stack_get.
  rewrite Hs. destruct (type t); [reflexivity | congruence | reflexivity].
Qed.

(** C1 (the code fails it): an end tag that meets the root alone on the
    stack should leave the root there, and later tokens should still be
    appended under the root.  In [build_dom] the guard is
    [stack_size > 0]: the end tag lowers [stack_size] from 1 to 0, the root
    is off the stack, and the next text (or start tag) reads [stack[-1]]
    instead of appending under the root. *)
Theorem extra_end_tag_pops_root :
  (exists st, build_dom_run [mkToken EndTag "a"] 1 = Ok st /\
              stack_size st = 0) /\
  build_tree [mkToken EndTag "a"; mkToken Text "x"]
  = Err (StackOutOfBounds (-1)) /\
  parse "</a>x" = Err (StackOutOfBounds (-1)).
Proof.
  split; [|split].
  - eexists. split; [vm_compute; reflexivity | reflexivity].
  - vm_compute. reflexivity.
  - vm_compute. reflexivity.
Qed.

(** C2: the result of the tree builder does not depend on the names carried
    by the end tags: two token sequences that differ at most in these names
    give the same pointer and the same heap (or fail alike). *)
Theorem build_tree_ignores_end_tag_names (ts1 ts2 : list Token) :
  Forall2 same_but_end_name ts1 ts2 -> build_tree ts1 = build_tree ts2.
Proof.
  intros H. unfold build_tree, build_dom.
  rewrite !build_dom_run_fold. f_equal.
  generalize (mkDom [mkNode "document" [] 4 0]
                    (Some 0%nat :: replicate 127 None) 1).
  induction H as [|t1 t2 r1 r2 [Hty Hdata] _ IH]; intros st; [reflexivity|].
  simpl. assert (Hbody : build_dom_body t1 st = build_dom_body t2 st).
  { unfold build_dom_body. rewrite <- Hty.
    destruct (type t1) eqn:E; try reflexivity; rewrite Hdata by congruence;
      reflexivity. }
  rewrite Hbody. destruct (build_dom_body t2 st); simpl; [apply IH | reflexivity].
Qed.

Lemma build_tree_ignores_end_tag_names_witness :
  Forall2 same_but_end_name
    [mkToken StartTag "a"; mkToken Text "x"; mkToken EndTag "a"]
    [mkToken StartTag "a"; mkToken Text "x"; mkToken EndTag "zzz"] /\
  build_tree [mkToken StartTag "a"; mkToken Text "x"; mkToken EndTag "a"]
  = build_tree [mkToken StartTag "a"; mkToken Text "x"; mkToken EndTag "zzz"].
Proof.
  assert (H : Forall2 same_but_end_name
    [mkToken StartTag "a"; mkToken Text "x"; mkToken EndTag "a"]
    [mkToken StartTag "a"; mkToken Text "x"; mkToken EndTag "zzz"]).
  { repeat constructor; simpl; congruence. }
  split; [exact H | exact (build_tree_ignores_end_tag_names _ _ H)].
Defined.

(** C3: for the input "hello<b>world</b>" the tokenizer yields the text
    "hello", the start tag "b", the text "world" and the end tag "b".  In
    general, an iteration that sees a ['<'] appends the pending text as a
    [Text] token (if there is any), then the token of the tag, and leaves
    the buffer empty: no text runs across a tag. *)
Theorem tokenize_flushes_text_at_tag :
  tokenize "hello<b>world</b>" 16
  = Ok [mkToken Text "hello"; mkToken StartTag "b";
        mkToken Text "world"; mkToken EndTag "b"] /\
  forall (html : list ascii) (st st' : tok_state),
    buf_ok st -> 0 <= pos st < strlen html ->
    char_at html (pos st) = "<"%char ->
    tokenize_body html st = Ok st' ->
    exists tag,
      type tag <> Text /\
      tokens st'
      = tokens st
        ++ (if buffer_pos st >? 0
            then [mkToken Text (string_of_list_ascii (pending st))] else [])
        ++ [tag] /\
      buffer_pos st' = 0.
Proof.
  split; [vm_compute; reflexivity|].
  intros html st st' Hbuf Hpos Hc H.
  apply tokenize_body_Ok in H; [|assumption..].
  unfold body_post in H. rewrite Hc in H. simpl in H.
  destruct H as (p2 & _ & _ & _ & Htok & _ & Hb & _).
  eexists. split; [|split; [exact Htok | exact Hb]].
  destruct ((pos st + 1 <? strlen html)
            && Ascii.eqb (char_at html (pos st + 1)) "/"%char); discriminate.
Qed.

Lemma tokenize_flushes_text_at_tag_witness :
  buf_ok (mkTok [] 16 2 ("h" :: "i" :: replicate 1022 NUL)%char 2 2) /\
  tokenize_body (list_ascii_of_string "hi<b>")
    (mkTok [] 16 2 ("h" :: "i" :: replicate 1022 NUL)%char 2 2)
  = Ok (mkTok [mkToken Text "hi"; mkToken StartTag "b"] 16 5
              (NUL :: "i" :: NUL :: replicate 1021 NUL)%char 0 4) /\
  exists tag,
    type tag <> Text /\
    [mkToken Text "hi"; mkToken StartTag "b"]
    = [] ++ [mkToken Text "hi"] ++ [tag] /\
    0 = 0.
Proof.
  assert (H1 : buf_ok (mkTok [] 16 2 ("h" :: "i" :: replicate 1022 NUL)%char 2 2)).
  { split; [simpl; lia|]. split; [|reflexivity].
    repeat constructor; discriminate. }
  assert (H2 : tokenize_body (list_ascii_of_string "hi<b>")
                 (mkTok [] 16 2 ("h" :: "i" :: replicate 1022 NUL)%char 2 2)
               = Ok (mkTok [mkToken Text "hi"; mkToken StartTag "b"] 16 5
                           (NUL :: "i" :: NUL :: replicate 1021 NUL)%char 0 4))
    by (vm_compute; reflexivity).
  split; [exact H1|]. split; [exact H2|].
  refine (proj2 tokenize_flushes_text_at_tag _ _ _ H1 _ _ H2);
    [simpl; lia | reflexivity].
Defined.

(** C4: no [Text] token of the tokenizer has an empty payload; for the input
    "<a><b></b></a>" there is no [Text] token at all. *)
Theorem tokenize_no_empty_text :
  (forall (html : string) (capacity : Z) (toks : list Token),
      tokenize html capacity = Ok toks ->
      Forall (fun t => type t = Text -> data t <> EmptyString) toks) /\
  (exists toks, tokenize "<a><b></b></a>" 16 = Ok toks /\
                Forall (fun t => type t <> Text) toks).
Proof.
  split.
  - intros html capacity toks H.
    apply tokenize_Ok in H as (st & H & <-).
    exact (tokenize_run_texts_nonempty _ _ _ H).
  - eexists. split; [vm_compute; reflexivity|].
    repeat constructor; discriminate.
Qed.

Lemma tokenize_no_empty_text_witness :
  tokenize "a<b>c" 16
  = Ok [mkToken Text "a"; mkToken StartTag "b"; mkToken Text "c"] /\
  Forall (fun t => type t = Text -> data t <> EmptyString)
    [mkToken Text "a"; mkToken StartTag "b"; mkToken Text "c"].
Proof.
  assert (H : tokenize "a<b>c" 16
              = Ok [mkToken Text "a"; mkToken StartTag "b"; mkToken Text "c"])
    by (vm_compute; reflexivity).
  split; [exact H | exact (proj1 tokenize_no_empty_text _ _ _ H)].
Defined.

(** C5: for the input "</a>" alone the run is defined, so no stack slot
    outside the array is touched; the end tag lowers [stack_size] from 1 to
    0 and not below (nothing under the root is popped, and no slot is read
    afterwards), and the tree returned is the root "document" without
    children. *)
Theorem lone_end_tag_is_absorbed :
  tokenize "</a>" 16 = Ok [mkToken EndTag "a"] /\
  (exists st, build_dom_run [mkToken EndTag "a"] 1 = Ok st /\
              stack_size st = 0 /\
              heap st = [mkNode "document" [] 4 0]) /\
  parse "</a>" = Ok (0%nat, [mkNode "document" [] 4 0]) /\
  parse_tree "</a>" = Ok (Some (Element "document" [])).
Proof.
  split; [|split; [|split]]; try (vm_compute; reflexivity).
  eexists. split; [vm_compute; reflexivity|]. split; reflexivity.
Qed.


(** C6: in every tree the tree builder returns, a text node has no
    children: the nodes on the open-element stack are elements, never text
    nodes, and children are only ever added to the node on top of the
    stack.  Stated for the nodes of the heap and for the tree read off the
    heap. *)
Theorem text_nodes_have_no_children (toks : list Token) (st : dom_state) :
  build_dom_run toks (Z.of_nat (length toks)) = Ok st ->
  build_tree toks = Ok (0%nat, heap st) /\
  (forall p n, heap st !! p = Some n -> is_text n <> 0 -> children n = []) /\
  (forall i p, stack st !! i = Some (Some p) ->
               exists n, heap st !! p = Some n /\ is_text n = 0) /\
  (exists t, tree_of_dom (0%nat, heap st) = Some t /\
             Forall (fun sub => tree_is_text sub <> 0 -> tree_kids sub = [])
                    (tree_nodes t)).
Proof.
  intros H.
  assert (Hbt : build_tree toks = Ok (0%nat, heap st)).
  { unfold build_tree, build_dom. rewrite H. reflexivity. }
  rewrite build_dom_run_fold in H.
  destruct (build_dom_fold_ok _ _ _ dom_ok_init H) as (Htext & Hstack & _).
  destruct (build_tree_shape _ _ _ Hbt) as (t & Ht & _).
  split; [exact Hbt|]. split; [exact Htext|]. split; [exact Hstack|].
  exists t. split; [exact Ht|].
  exact (tree_of_childless _ _ _ _ Htext Ht).
Qed.

Lemma text_nodes_have_no_children_witness :
  build_dom_run [mkToken StartTag "p"; mkToken Text "x"; mkToken Text "y"] 3
  = Ok (mkDom [mkNode "document" [1%nat] 4 0; mkNode "p" [2%nat; 3%nat] 4 0;
               mkNode "x" [] 4 1; mkNode "y" [] 4 1]
              (Some 0%nat :: Some 1%nat :: replicate 126 None) 2) /\
  forall p n,
    [mkNode "document" [1%nat] 4 0; mkNode "p" [2%nat; 3%nat] 4 0;
     mkNode "x" [] 4 1; mkNode "y" [] 4 1] !! p = Some n ->
    is_text n <> 0 -> children n = [].
Proof.
  assert (H : build_dom_run
                [mkToken StartTag "p"; mkToken Text "x"; mkToken Text "y"]
                (Z.of_nat 3)
              = Ok (mkDom [mkNode "document" [1%nat] 4 0;
                           mkNode "p" [2%nat; 3%nat] 4 0;
                           mkNode "x" [] 4 1; mkNode "y" [] 4 1]
                          (Some 0%nat :: Some 1%nat :: replicate 126 None) 2))
    by (vm_compute; reflexivity).
  split; [exact H|].
  exact (proj1 (proj2 (text_nodes_have_no_children _ _ H))).
Defined.

(** C8: the tokenizer and the tree builder terminate on every input.  The
    loops of the tokenizer, run with one unit of fuel per byte of the input,
    never run out of it, because every iteration of the outer loop moves the
    scan position forward; on an input that ends inside a tag the position
    ends one past the end of the input.  The loop of the tree builder, run
    with one unit of fuel per token, never runs out of it either. *)
Theorem tokenize_and_build_terminate :
  (forall (html : list ascii) (capacity : Z),
      tokenize_run html capacity <> Err OutOfFuel) /\
  (forall (html : list ascii) (st st' : tok_state),
      0 <= pos st < strlen html ->
      tokenize_body html st = Ok st' -> pos st < pos st') /\
  (forall (html : list ascii) (capacity : Z) (st : tok_state) (p : Z),
      unterminated html p -> tokenize_run html capacity = Ok st ->
      pos st = strlen html + 1) /\
  (forall toks : list Token,
      build_dom_run toks (Z.of_nat (length toks)) <> Err OutOfFuel) /\
  (forall html : string, parse html <> Err OutOfFuel).
Proof.
  split; [|split; [|split; [|split]]].
  - apply tokenize_run_not_fuel.
  - intros html st st' Hpos H.
    apply (tokenize_body_advances html st st'); [lia | exact H].
  - intros html capacity st p Hp H.
    destruct (first_unterminated_exists _ _ Hp) as (p0 & _ & Hp0).
    exact (proj2 (tokenize_run_unterminated _ _ _ _ Hp0 H)).
  - intros toks. rewrite build_dom_run_fold. apply build_dom_fold_not_fuel.
  - intros html. unfold parse, tokenize.
    apply bind_not_fuel.
    + apply bind_not_fuel; [apply tokenize_run_not_fuel | discriminate].
    + intros toks _. unfold build_tree, build_dom.
      apply bind_not_fuel; [|discriminate].
      rewrite build_dom_run_fold. apply build_dom_fold_not_fuel.
Qed.

Lemma tokenize_and_build_terminate_witness :
  0 <= pos (tokenize_init 16) < strlen (list_ascii_of_string "<a") /\
  tokenize_body (list_ascii_of_string "<a") (tokenize_init 16)
  = Ok (mkTok [mkToken StartTag "a"] 16 3 (replicate 1024 NUL) 0 2) /\
  pos (tokenize_init 16)
  < pos (mkTok [mkToken StartTag "a"] 16 3 (replicate 1024 NUL) 0 2).
Proof.
  assert (H2 : 0 <= pos (tokenize_init 16)
               < strlen (list_ascii_of_string "<a")) by (simpl; lia).
  assert (H3 : tokenize_body (list_ascii_of_string "<a") (tokenize_init 16)
               = Ok (mkTok [mkToken StartTag "a"] 16 3 (replicate 1024 NUL) 0 2))
    by (vm_compute; reflexivity).
  split; [exact H2|]. split; [exact H3|].
  exact (proj1 (proj2 tokenize_and_build_terminate) _ _ _ H2 H3).
Defined.

(** C9: on an input with a ['<'] that no ['>'] follows, the last token of
    the tokenizer is the tag opened by the first such ['<']: a start tag
    (an end tag if a ['/'] follows the ['<']) whose name is everything
    behind the ['<'] (behind the ["</"]) up to the end of the input.  A
    later ['<'] without ['>'] is part of that name. *)
Theorem unterminated_tag_is_last_token (html : string) (capacity : Z)
    (toks : list Token) (q : Z) :
  tokenize html capacity = Ok toks ->
  unterminated (list_ascii_of_string html) q ->
  exists p front,
    p <= q /\ first_unterminated (list_ascii_of_string html) p /\
    toks = front ++ [open_tag_token (list_ascii_of_string html) p].
Proof.
  intros H Hq. apply tokenize_Ok in H as (st & H & <-).
  destruct (first_unterminated_exists _ _ Hq) as (p & Hpq & Hp).
  destruct (proj1 (tokenize_run_unterminated _ _ _ _ Hp H)) as [front Hfront].
  exists p, front. auto.
Qed.

Lemma unterminated_tag_is_last_token_witness :
  tokenize "ab</cd<e" 16 = Ok [mkToken Text "ab"; mkToken EndTag "cd<e"] /\
  unterminated (list_ascii_of_string "ab</cd<e") 6 /\
  exists p front,
    p <= 6 /\ first_unterminated (list_ascii_of_string "ab</cd<e") p /\
    [mkToken Text "ab"; mkToken EndTag "cd<e"]
    = front ++ [open_tag_token (list_ascii_of_string "ab</cd<e") p].
Proof.
  assert (H1 : tokenize "ab</cd<e" 16
               = Ok [mkToken Text "ab"; mkToken EndTag "cd<e"])
    by (vm_compute; reflexivity).
  assert (H2 : unterminated (list_ascii_of_string "ab</cd<e") 6)
    by (apply (bool_decide_unpack _); vm_compute; exact I).
  split; [exact H1|]. split; [exact H2|].
  exact (unterminated_tag_is_last_token _ _ _ _ H1 H2).
Defined.

(** On an input of at most 255 bytes the run is defined, so the token of
    the unterminated tag is indeed produced. *)
Corollary unterminated_tag_is_emitted (html : string) (capacity : Z) (q : Z) :
  strlen (list_ascii_of_string html) <= 255 -> 0 < capacity ->
  unterminated (list_ascii_of_string html) q ->
  exists toks p front,
    tokenize html capacity = Ok toks /\
    first_unterminated (list_ascii_of_string html) p /\
    toks = front ++ [open_tag_token (list_ascii_of_string html) p].
Proof.
  intros Hshort Hcap Hq.
  destruct (tokenize_run_defined _ Hshort capacity Hcap) as [st Hst].
  destruct (first_unterminated_exists _ _ Hq) as (p & _ & Hp).
  destruct (proj1 (tokenize_run_unterminated _ _ _ _ Hp Hst)) as [front Hfront].
  exists (tokens st), p, front. split; [|auto].
  unfold tokenize. rewrite Hst. reflexivity.
Qed.

(** C10: the input "<>" gives one start tag with the empty name, the input
    "</>" one end tag with the empty name, and the tree builder makes of the
    former an element whose name is the empty string. *)
Theorem empty_tag_names :
  tokenize "<>" 16 = Ok [mkToken StartTag ""] /\
  tokenize "</>" 16 = Ok [mkToken EndTag ""] /\
  build_tree [mkToken StartTag ""]
  = Ok (0%nat, [mkNode "document" [1%nat] 4 0; mkNode "" [] 4 0]) /\
  parse_tree "<>" = Ok (Some (Element "document" [Element "" []])).
Proof. repeat split; vm_compute; reflexivity. Qed.


(** * Further properties of the code *)

(** ** The tokenizer loses nothing *)

Section Lossless.

Variable html : list ascii.

Lemma slice_snoc (a b : Z) :
  0 <= a <= b -> b < strlen html ->
  slice html a (b + 1) = slice html a b ++ [char_at html b].
Proof.
  intros Ha Hb.
  remember (Z.to_nat (b - a)) as k eqn:Hk. revert a Ha Hk.
  induction k as [|k IH]; intros a Ha Hk.
  - assert (a = b) as -> by lia.
    rewrite slice_cons, !slice_empty by lia. reflexivity.
  - rewrite (slice_cons html a (b + 1)), (slice_cons html a b) by lia.
    rewrite IH by lia. reflexivity.
Qed.

Lemma slice_app (a b c : Z) :
  0 <= a <= b -> b <= c <= strlen html ->
  slice html a c = slice html a b ++ slice html b c.
Proof.
  intros Ha Hc.
  remember (Z.to_nat (b - a)) as k eqn:Hk. revert a Ha Hk.
  induction k as [|k IH]; intros a Ha Hk.
  - assert (a = b) as -> by lia. rewrite slice_empty. reflexivity.
  - rewrite (slice_cons html a c), (slice_cons html a b) by lia.
    rewrite (IH (a + 1)) by lia. reflexivity.
Qed.

Lemma render_app (l1 l2 : list Token) : render (l1 ++ l2) = render l1 ++ render l2.
Proof. unfold render. rewrite map_app, concat_app. reflexivity. Qed.

Lemma render_flushed (st : tok_state) :
  buf_ok st -> render (flushed st) = pending st.
Proof.
  intros (Hb & _ & Hlen). unfold flushed, render.
  destruct (Z.gtb_spec (buffer_pos st) 0); simpl.
  - unfold render_token. simpl.
    rewrite list_ascii_of_string_of_list_ascii. apply app_nil_r.
  - destruct (pending st); [reflexivity | simpl in Hlen; lia].
Qed.

Lemma spelled_body (st st' : tok_state) :
  spelled html st -> buf_ok st -> 0 <= pos st < strlen html ->
  body_post html st st' -> spelled html st'.
Proof.
  intros [[_ Hsp]|[Hp _]] Hbuf Hpos; [|lia]. unfold body_post.
  destruct (Ascii.eqb_spec (char_at html (pos st)) "<"%char) as [Hc|Hc].
  - set (is_end_tag := (pos st + 1 <? strlen html)
                       && Ascii.eqb (char_at html (pos st + 1)) "/"%char).
    set (p1 := pos st + (if is_end_tag then 2 else 1)).
    intros (p2 & Hp2 & Hbefore & Hat & Htok & Hpos' & Hb' & _).
    assert (Hhead : slice html 0 (pos st)
                    ++ "<"%char :: (if is_end_tag then ["/"%char] else [])
                    = slice html 0 p1).
    { subst p1 is_end_tag.
      destruct (Z.ltb_spec (pos st + 1) (strlen html)) as [Hlt|Hge]; simpl.
      - destruct (Ascii.eqb_spec (char_at html (pos st + 1)) "/"%char)
          as [Hs|Hs]; simpl.
        + replace (pos st + 2) with (pos st + 1 + 1) by lia.
          rewrite (slice_snoc 0 (pos st + 1)), (slice_snoc 0 (pos st)) by lia.
          rewrite Hc, Hs, <- app_assoc. reflexivity.
        + rewrite (slice_snoc 0 (pos st)), Hc by lia. reflexivity.
      - rewrite (slice_snoc 0 (pos st)), Hc by lia. reflexivity. }
    assert (Hp1 : pos st + 1 <= p1) by (subst p1; destruct is_end_tag; lia).
    assert (Hrender : render (tokens st') = slice html 0 p2 ++ [">"%char]).
    { rewrite Htok, !render_app, (render_flushed _ Hbuf), app_assoc, Hsp.
      unfold render. simpl. rewrite app_nil_r. unfold render_token. simpl.
      rewrite (slice_app 0 p1 p2), <- Hhead by lia.
      destruct is_end_tag; simpl;
        rewrite list_ascii_of_string_of_list_ascii, <- !app_assoc; reflexivity. }
    destruct (Z.eq_dec p2 (strlen html)) as [Heq|Hne].
    + right. rewrite Hpos', Heq. split; [reflexivity|]. split; [exact Hb'|].
      split; [rewrite Hrender, Heq; reflexivity|].
      exists (pos st). split; [lia|]. split; [exact Hc|].
      rewrite elem_of_slice by lia. intros (q & Hq & Hq').
      destruct (Z.lt_ge_cases q p1) as [Hlt|Hge].
      * subst p1 is_end_tag.
        destruct (Z.ltb_spec (pos st + 1) (strlen html)); simpl in Hlt; [|lia].
        destruct (Ascii.eqb_spec (char_at html (pos st + 1)) "/"%char) as [Hs|Hs];
          simpl in Hlt; [|lia].
        replace q with (pos st + 1) in Hq' by lia. rewrite Hs in Hq'.
        discriminate.
      * apply (Hbefore q); [lia | exact Hq'].
    + left. rewrite Hpos'. split; [lia|].
      unfold pending. rewrite Hb'. simpl. rewrite app_nil_r, Hrender.
      rewrite (slice_snoc 0 p2), Hat by lia. reflexivity.
  - intros (Htok & Hpos' & _ & Hpend & _). left.
    rewrite Hpos', Htok, Hpend, app_assoc, Hsp. split; [lia|].
    rewrite (slice_snoc 0 (pos st)) by lia. reflexivity.
Qed.

Lemma tokenize_run_spelled (capacity : Z) (final : tok_state) :
  tokenize_run html capacity = Ok final ->
  (pos final <= strlen html /\ render (tokens final) = c_string html) \/
  (render (tokens final) = c_string html ++ [">"%char] /\
   exists p, unterminated html p).
Proof.
  intros H.
  apply (tokenize_run_invariant html (spelled html)) in H
    as (st & Hsp & Hbuf & Hpos & Ht & _ & Hpf).
  - rewrite Ht, render_app, (render_flushed _ Hbuf).
    destruct Hsp as [[Hle Hsp]|(Hp & Hb & Hr & Hu)].
    + left. split; [lia|]. rewrite Hsp. unfold c_string.
      replace (pos st) with (strlen html) by lia. reflexivity.
    + right. unfold pending. rewrite Hb. simpl. rewrite app_nil_r. auto.
  - exact spelled_body.
  - left. simpl. split; [apply strlen_nonneg|]. reflexivity.
Qed.

End Lossless.

(** X1: the tokenizer loses no byte of its input.  Writing every token back
    as markup (a text as it is, a tag between ['<'] or ["</"] and ['>'])
    gives the input again; on an input that ends inside a tag it gives the
    input followed by the ['>'] that is missing. *)
Theorem tokenize_round_trip (html : string) (capacity : Z) (toks : list Token) :
  tokenize html capacity = Ok toks ->
  ((forall p, ~ unterminated (list_ascii_of_string html) p) ->
   render toks = c_string (list_ascii_of_string html)) /\
  ((exists p, unterminated (list_ascii_of_string html) p) ->
   render toks = c_string (list_ascii_of_string html) ++ [">"%char]).
Proof.
  intros H. apply tokenize_Ok in H as (st & H & <-).
  destruct (tokenize_run_spelled _ _ _ H) as [[Hpos Hr]|[Hr Hu]]; split.
  - intros _. exact Hr.
  - intros [p Hp].
    destruct (first_unterminated_exists _ _ Hp) as (p0 & _ & Hp0).
    pose proof (proj2 (tokenize_run_unterminated _ _ _ _ Hp0 H)). lia.
  - intros Hnone. destruct Hu as [p Hp]. destruct (Hnone p Hp).
  - intros _. exact Hr.
Qed.

Lemma tokenize_round_trip_witness :
  tokenize "a<b>c</b" 16
  = Ok [mkToken Text "a"; mkToken StartTag "b"; mkToken Text "c";
        mkToken EndTag "b"] /\
  (exists p, unterminated (list_ascii_of_string "a<b>c</b") p) /\
  render [mkToken Text "a"; mkToken StartTag "b"; mkToken Text "c";
          mkToken EndTag "b"]
  = c_string (list_ascii_of_string "a<b>c</b") ++ [">"%char].
Proof.
  assert (H1 : tokenize "a<b>c</b" 16
               = Ok [mkToken Text "a"; mkToken StartTag "b"; mkToken Text "c";
                     mkToken EndTag "b"]) by (vm_compute; reflexivity).
  assert (H2 : exists p, unterminated (list_ascii_of_string "a<b>c</b") p).
  { exists 5. apply (bool_decide_unpack _). vm_compute. exact I. }
  split; [exact H1|]. split; [exact H2|].
  exact (proj2 (tokenize_round_trip _ _ _ H1) H2).
Defined.

Lemma c_string_no_nul (s : list ascii) : NUL ∉ s -> c_string s = s.
Proof.
  intros Hs. unfold c_string, slice. rewrite Z.sub_0_r. simpl.
  assert (Hlen : strlen s = Z.of_nat (length s)).
  { induction s as [|c r IH]; simpl; [reflexivity|].
    destruct (Ascii.eqb_spec c NUL) as [->|_].
    - exfalso. apply Hs. left.
    - rewrite IH; [lia|]. intros Hr. apply Hs. right. exact Hr. }
  rewrite Hlen, Nat2Z.id. apply take_ge. lia.
Qed.

(** ** What a token can carry *)

Section Payloads.

Variable html : list ascii.

Lemma not_elem_of_Forall_ne (c : ascii) (l : list ascii) :
  Forall (fun x => x <> c) l -> c ∉ l.
Proof.
  intros Hall Hin. rewrite Forall_forall in Hall. exact (Hall c Hin eq_refl).
Qed.

Lemma flushed_wf (st : tok_state) :
  buf_ok st -> "<"%char ∉ pending st -> Forall token_wf (flushed st).
Proof.
  intros (Hb & Hall & Hlen) Hlt. unfold flushed.
  destruct (Z.gtb_spec (buffer_pos st) 0); [|constructor].
  constructor; [|constructor]. unfold token_wf. simpl.
  rewrite list_ascii_of_string_of_list_ascii.
  split; [apply not_elem_of_Forall_ne, Hall|]. split; [|exact Hlt].
  apply string_of_list_ascii_nonempty. intros Hnil.
  rewrite Hnil in Hlen. simpl in Hlen. lia.
Qed.

Lemma tokenize_run_wf (capacity : Z) (final : tok_state) :
  tokenize_run html capacity = Ok final -> Forall token_wf (tokens final).
Proof.
  intros H.
  apply (tokenize_run_invariant html
           (fun st => Forall token_wf (tokens st) /\ "<"%char ∉ pending st)) in H
    as (st & [HP Hlt] & Hbuf & _ & -> & _).
  - apply Forall_app. split; [exact HP | apply flushed_wf; assumption].
  - intros st st' [HP Hlt] Hbuf Hpos. unfold body_post.
    destruct (Ascii.eqb_spec (char_at html (pos st)) "<"%char) as [Hc|Hc].
    + set (is_end_tag := (pos st + 1 <? strlen html)
                         && Ascii.eqb (char_at html (pos st + 1)) "/"%char).
      set (p1 := pos st + (if is_end_tag then 2 else 1)).
      intros (p2 & Hp2 & Hbefore & _ & -> & _ & Hb' & _).
      assert (Hp1 : pos st + 1 <= p1) by (subst p1; destruct is_end_tag; lia).
      split; [|unfold pending; rewrite Hb'; simpl; apply not_elem_of_nil].
      apply Forall_app. split; [exact HP|].
      apply Forall_app. split; [apply flushed_wf; assumption|].
      constructor; [|constructor]. unfold token_wf. simpl.
      rewrite list_ascii_of_string_of_list_ascii.
      assert (Hgt : ">"%char ∉ slice html p1 p2).
      { rewrite elem_of_slice by lia. intros (q & Hq & Hq').
        exact (Hbefore q Hq Hq'). }
      split; [apply not_elem_of_Forall_ne, slice_not_NUL; lia|].
      destruct is_end_tag eqn:Hend; simpl; [exact Hgt|].
      split; [exact Hgt|].
      destruct (Z.eq_dec p1 p2) as [<-|Hne];
        [rewrite slice_empty; discriminate|].
      rewrite slice_cons by lia. simpl. intros Hs. injection Hs as Hs.
      subst p1 is_end_tag.
      destruct (Z.ltb_spec (pos st + 1) (strlen html)); simpl in *; [|lia].
      rewrite Hs in Hend. discriminate.
    + intros (-> & _ & _ & -> & _). split; [exact HP|].
      intros Hin. apply elem_of_app in Hin as [Hin|Hin]; [exact (Hlt Hin)|].
      apply list_elem_of_singleton in Hin. congruence.
  - split; [constructor | apply not_elem_of_nil].
Qed.

Lemma no_adjacent_text_snoc (l : list Token) (t : Token) :
  no_adjacent_text l ->
  (forall t0, last l = Some t0 -> type t0 = Text -> type t <> Text) ->
  no_adjacent_text (l ++ [t]).
Proof.
  induction l as [|t1 [|t2 r] IH]; intros Hl Hlast; simpl in *; [exact I | |].
  - split; [|exact I]. intros [H1 H2]. exact (Hlast t1 eq_refl H1 H2).
  - destruct Hl as [H12 Hr]. split; [exact H12|]. apply IH; assumption.
Qed.

Lemma tokenize_run_no_adjacent_text (capacity : Z) (final : tok_state) :
  tokenize_run html capacity = Ok final -> no_adjacent_text (tokens final).
Proof.
  intros H.
  assert (Hflush : forall st,
             no_adjacent_text (tokens st) ->
             (forall t0, last (tokens st) = Some t0 -> type t0 <> Text) ->
             no_adjacent_text (tokens st ++ flushed st)).
  { intros st Hna Hlast. unfold flushed.
    destruct (buffer_pos st >? 0); [|rewrite app_nil_r; exact Hna].
    apply no_adjacent_text_snoc; [exact Hna|].
    intros t0 Ht0 Htext. destruct (Hlast t0 Ht0 Htext). }
  apply (tokenize_run_invariant html
           (fun st => no_adjacent_text (tokens st) /\
                      forall t0, last (tokens st) = Some t0 -> type t0 <> Text))
    in H as (st & [HP Hlast] & _ & _ & -> & _).
  - apply Hflush; assumption.
  - intros st st' [HP Hlast] Hbuf Hpos. unfold body_post.
    destruct (Ascii.eqb (char_at html (pos st)) "<"%char).
    + intros (p2 & _ & _ & _ & -> & _).
      assert (Htag : forall b : bool, (if b then EndTag else StartTag) <> Text)
        by (intros []; discriminate).
      rewrite app_assoc. split.
      * apply no_adjacent_text_snoc; [apply Hflush; assumption|].
        intros _ _ _. apply Htag.
      * intros t0. rewrite last_snoc. intros Ht0. injection Ht0 as <-.
        simpl. apply Htag.
    + intros (-> & _). auto.
  - split; [exact I | discriminate].
Qed.

End Payloads.

(** X2: what the payload of a token can be.  No payload holds a NUL byte; a
    text is not empty and holds no ['<']; a tag name holds no ['>'], and the
    name of a start tag does not begin with ['/']. *)
Theorem tokens_well_formed (html : string) (capacity : Z) (toks : list Token) :
  tokenize html capacity = Ok toks -> Forall token_wf toks.
Proof.
  intros H. apply tokenize_Ok in H as (st & H & <-).
  exact (tokenize_run_wf _ _ _ H).
Qed.

Lemma tokens_well_formed_witness :
  tokenize "a<b>c</b" 16
  = Ok [mkToken Text "a"; mkToken StartTag "b"; mkToken Text "c";
        mkToken EndTag "b"] /\
  Forall token_wf [mkToken Text "a"; mkToken StartTag "b"; mkToken Text "c";
                   mkToken EndTag "b"].
Proof.
  assert (H1 : tokenize "a<b>c</b" 16
               = Ok [mkToken Text "a"; mkToken StartTag "b"; mkToken Text "c";
                     mkToken EndTag "b"]) by (vm_compute; reflexivity).
  split; [exact H1 | exact (tokens_well_formed _ _ _ H1)].
Defined.

(** X3: a run of text is never split: no two neighbours in the token
    sequence are both [Text] tokens. *)
Theorem text_runs_are_maximal (html : string) (capacity : Z)
    (toks : list Token) :
  tokenize html capacity = Ok toks -> no_adjacent_text toks.
Proof.
  intros H. apply tokenize_Ok in H as (st & H & <-).
  exact (tokenize_run_no_adjacent_text _ _ _ H).
Qed.

Lemma text_runs_are_maximal_witness :
  tokenize "ab<c>de" 16
  = Ok [mkToken Text "ab"; mkToken StartTag "c"; mkToken Text "de"] /\
  no_adjacent_text
    [mkToken Text "ab"; mkToken StartTag "c"; mkToken Text "de"].
Proof.
  assert (H1 : tokenize "ab<c>de" 16
               = Ok [mkToken Text "ab"; mkToken StartTag "c"; mkToken Text "de"])
    by (vm_compute; reflexivity).
  split; [exact H1 | exact (text_runs_are_maximal _ _ _ H1)].
Defined.

(** ** Inputs without a tag *)

Lemma render_only_text (toks : list Token) :
  "<"%char ∉ render toks -> Forall (fun t => type t = Text) toks.
Proof.
  induction toks as [|t r IH]; intros Hlt; [constructor|].
  unfold render in Hlt. simpl in Hlt. fold (render r) in Hlt.
  constructor.
  - destruct (type t) eqn:Ht; [| |reflexivity]; exfalso; apply Hlt;
      apply elem_of_app; left; unfold render_token; rewrite Ht; left.
  - apply IH. intros Hin. apply Hlt, elem_of_app. right. exact Hin.
Qed.

(** X4: an input without any ['<'] is one [Text] token that holds the whole
    input, and the empty input gives no token at all. *)
Theorem plain_text_is_one_token (html : string) (capacity : Z)
    (toks : list Token) :
  tokenize html capacity = Ok toks ->
  "<"%char ∉ c_string (list_ascii_of_string html) ->
  toks = if strlen (list_ascii_of_string html) =? 0 then []
         else [mkToken Text
                 (string_of_list_ascii (c_string (list_ascii_of_string html)))].
Proof.
  intros H Hlt. apply tokenize_Ok in H as (st & H & <-).
  set (s := list_ascii_of_string html) in *.
  pose proof (strlen_nonneg s) as Hn.
  assert (Hlen : Z.of_nat (length (c_string s)) = strlen s)
    by (unfold c_string; rewrite slice_length; lia).
  assert (Hrender : render (tokens st) = c_string s).
  { destruct (tokenize_run_spelled _ _ _ H) as [[_ Hr]|[_ [p Hp]]]; [exact Hr|].
    exfalso. destruct Hp as (Hp & Hc & _). apply Hlt. unfold c_string.
    apply elem_of_slice; [lia | lia |]. exists p. split; [lia | exact Hc]. }
  pose proof (tokenize_run_no_adjacent_text _ _ _ H) as Hadj.
  pose proof (tokenize_run_wf _ _ _ H) as Hwf.
  assert (Htext : Forall (fun t => type t = Text) (tokens st))
    by (apply render_only_text; rewrite Hrender; exact Hlt).
  destruct (tokens st) as [|[ty d] [|t2 r]].
  - unfold render in Hrender. simpl in Hrender. rewrite <- Hrender in Hlen.
    simpl in Hlen. rewrite <- Hlen. reflexivity.
  - apply Forall_cons in Htext as [Hty _]. simpl in Hty. subst ty.
    apply Forall_cons in Hwf as [(_ & Hne & _) _]. simpl in Hne.
    unfold render in Hrender. simpl in Hrender. rewrite app_nil_r in Hrender.
    unfold render_token in Hrender. simpl in Hrender.
    rewrite <- Hrender, string_of_list_ascii_of_string.
    destruct (Z.eqb_spec (strlen s) 0) as [Hz|_]; [|reflexivity].
    exfalso. rewrite <- Hrender in Hlen. destruct d; [congruence|].
    simpl in Hlen. lia.
  - exfalso. apply Forall_cons in Htext as [H1 Htext].
    apply Forall_cons in Htext as [H2 _].
    simpl in Hadj. destruct Hadj as [Hadj _]. apply Hadj. auto.
Qed.

Lemma plain_text_is_one_token_witness :
  tokenize "hello" 16 = Ok [mkToken Text "hello"] /\
  ("<"%char ∉ c_string (list_ascii_of_string "hello")) /\
  [mkToken Text "hello"]
  = (if strlen (list_ascii_of_string "hello") =? 0 then []
     else [mkToken Text
             (string_of_list_ascii (c_string (list_ascii_of_string "hello")))]).
Proof.
  assert (H1 : tokenize "hello" 16 = Ok [mkToken Text "hello"])
    by (vm_compute; reflexivity).
  assert (H2 : "<"%char ∉ c_string (list_ascii_of_string "hello"))
    by (apply (bool_decide_unpack _); vm_compute; exact I).
  split; [exact H1|]. split; [exact H2|].
  exact (plain_text_is_one_token _ _ _ H1 H2).
Defined.

(** ** The sizes of the arrays *)

Section Sizes.

Variable html : list ascii.

(** The invariant rule of the outer loop, for properties that need the
    body itself and not only [body_post]. *)
Lemma tokenize_loop_invariant_body (P : tok_state -> Prop) :
  (forall st st', P st -> buf_ok st -> 0 <= pos st < strlen html ->
                  tokenize_body html st = Ok st' -> P st') ->
  forall fuel st st',
    P st -> buf_ok st -> 0 <= pos st ->
    tokenize_loop fuel html st = Ok st' ->
    P st' /\ buf_ok st' /\ strlen html <= pos st'.
Proof.
  intros Hstep.
  induction fuel as [|fuel IH]; intros st st' HP Hbuf Hpos; simpl;
    destruct (Z.ltb_spec (pos st) (strlen html)) as [Hlt|Hge];
    intros H; try discriminate; try (injection H as <-; auto).
  inv_bind H.
  assert (Hpost : body_post html st a) by (apply tokenize_body_Ok; auto; lia).
  pose proof (body_post_advances html _ _ Hpost).
  apply (IH a st'); try (auto; lia).
  - apply (Hstep st); auto; lia.
  - apply (body_post_buf_ok html st); auto; lia.
Qed.

Lemma string_of_list_ascii_length (l : list ascii) :
  String.length (string_of_list_ascii l) = length l.
Proof. induction l as [|c r IH]; simpl; congruence. Qed.

Lemma push_token_capacity (ty : TokenType) (a : list ascii) (st st' : tok_state) :
  push_token ty a st = Ok st' ->
  0 < token_capacity st /\ 0 < token_capacity st' /\
  (token_capacity st' = token_capacity st
   \/ token_capacity st' = token_capacity st * 2).
Proof.
  unfold push_token, double_capacity, token_count. intros H. inv_bind H.
  destruct (Z.ltb_spec (Z.of_nat (length (tokens st))) a0); [|discriminate].
  inv_bind H. injection H as <-. simpl.
  destruct (Z.of_nat (length (tokens st)) >=? token_capacity st).
  - destruct ((token_capacity st * 2 <=? INT_MAX)
              && (- INT_MAX - 1 <=? token_capacity st * 2)); [|discriminate].
    injection E as <-. lia.
  - injection E as <-. lia.
Qed.

Lemma scan_tag_name_length (fuel : nat) (p tag_pos : Z) (tag_name : list ascii)
    (p2 tag_pos2 : Z) (tag_name2 : list ascii) :
  scan_tag_name fuel html p tag_pos tag_name = Ok (p2, tag_pos2, tag_name2) ->
  length tag_name2 = length tag_name.
Proof.
  revert p tag_pos tag_name.
  induction fuel as [|fuel IH]; intros p tag_pos tag_name; simpl;
    destruct ((p <? strlen html) && negb (Ascii.eqb (char_at html p) ">"%char));
    intros H; try discriminate; try (injection H as _ _ <-; reflexivity).
  inv_bind H. apply array_set_Ok in E as [_ ->].
  apply IH in H. rewrite length_insert in H. exact H.
Qed.

(** A flush needs room for the terminator behind the text. *)
Lemma flush_text_fits (st st' : tok_state) :
  buf_ok st -> length (buffer st) = 1024%nat -> flush_text st = Ok st' ->
  length (buffer st') = 1024%nat /\ Forall token_fits (flushed st) /\
  (0 < buffer_pos st -> 0 < token_capacity st) /\
  (0 < token_capacity st' -> 0 < token_capacity st).
Proof.
  intros (Hb & _ & Hlen) Hbuf. unfold flush_text, flushed.
  destruct (Z.gtb_spec (buffer_pos st) 0) as [Hgt|Hle]; intros H.
  - inv_bind H. apply array_set_Ok in E as [Hi ->].
    inv_bind H. pose proof (push_token_capacity _ _ _ _ E) as (Hc & Hc' & _).
    apply push_token_Ok in E as (d & capacity & _ & ->).
    simpl in *. inv_bind H. apply array_set_Ok in E as [_ ->].
    injection H as <-. simpl. rewrite !length_insert.
    split; [exact Hbuf|]. split; [|auto].
    constructor; [|constructor]. unfold token_fits. simpl.
    rewrite string_of_list_ascii_length. lia.
  - injection H as <-. split; [exact Hbuf|]. split; [constructor|].
    split; [lia | auto].
Qed.

Lemma flush_remaining_fits (st st' : tok_state) :
  buf_ok st -> length (buffer st) = 1024%nat -> flush_remaining st = Ok st' ->
  Forall token_fits (flushed st) /\
  (0 < buffer_pos st -> 0 < token_capacity st).
Proof.
  intros (Hb & _ & Hlen) Hbuf. unfold flush_remaining, flushed.
  destruct (Z.gtb_spec (buffer_pos st) 0) as [Hgt|Hle]; intros H.
  - inv_bind H. apply array_set_Ok in E as [Hi ->].
    pose proof (push_token_capacity _ _ _ _ H) as (Hc & _). simpl in Hc.
    split; [|auto].
    constructor; [|constructor]. unfold token_fits. simpl.
    rewrite string_of_list_ascii_length. lia.
  - split; [constructor | lia].
Qed.

(** One iteration: the buffer keeps its size, the new tokens fit their
    arrays, and a tag can only be stored with a positive capacity. *)
Lemma tokenize_body_fits (st st' : tok_state) :
  buf_ok st -> 0 <= pos st < strlen html -> length (buffer st) = 1024%nat ->
  tokenize_body html st = Ok st' ->
  length (buffer st') = 1024%nat /\
  (exists new, tokens st' = tokens st ++ new /\ Forall token_fits new) /\
  (char_at html (pos st) = "<"%char -> 0 < token_capacity st) /\
  (char_at html (pos st) <> "<"%char ->
   token_capacity st' = token_capacity st).
Proof.
  intros Hbuf Hpos Hlen. unfold tokenize_body.
  destruct (Ascii.eqb_spec (char_at html (pos st)) "<"%char) as [Hc|Hc];
    intros H.
  - inv_bind H.
    destruct (flush_text_fits _ _ Hbuf Hlen E) as (Hlen1 & Hfl & _ & Hcap1).
    apply (flush_text_Ok _ _ Hbuf) in E as (Htok & Hp & _ & _).
    rewrite Hp in H.
    set (is_end_tag := (pos st + 1 <? strlen html)
                       && Ascii.eqb (char_at html (pos st + 1)) "/"%char) in *.
    set (p1 := pos st + (if is_end_tag then 2 else 1)) in *.
    assert (Hp1 : pos st < p1 <= strlen html).
    { subst p1 is_end_tag.
      destruct (Z.ltb_spec (pos st + 1) (strlen html)); simpl;
        try destruct (Ascii.eqb _ "/"%char); lia. }
    inv_bind H. destruct a0 as [[p2 tag_pos] tag_name].
    cbv beta iota in H.
    pose proof (scan_tag_name_length _ _ _ _ _ _ _ E) as Hl.
    rewrite length_replicate in Hl.
    apply scan_tag_name_Ok in E as (H1 & H2 & _ & _ & H5); try lia.
    inv_bind H. apply array_set_Ok in E as [Hi ->].
    pose proof (push_token_capacity _ _ _ _ H) as (Hc1 & _). simpl in Hc1.
    apply push_token_Ok in H as (d & capacity & Hd & ->). simpl.
    change (take (Z.to_nat 0) (replicate 256 NUL)) with (@nil ascii) in H5.
    simpl in H5.
    rewrite strdup_insert in Hd;
      [| lia | rewrite H5; apply slice_not_NUL; lia].
    injection Hd as <-.
    split; [exact Hlen1|]. split; [|split; [auto | congruence]].
    exists (flushed st
            ++ [mkToken (if is_end_tag then EndTag else StartTag)
                  (string_of_list_ascii (take (Z.to_nat tag_pos) tag_name))]).
    rewrite Htok, <- app_assoc. split; [reflexivity|].
    apply Forall_app. split; [exact Hfl|].
    constructor; [|constructor]. unfold token_fits.
    destruct is_end_tag; simpl;
      rewrite string_of_list_ascii_length, length_take; lia.
  - inv_bind H. apply array_set_Ok in E as [Hi ->]. injection H as <-.
    simpl. rewrite length_insert. split; [exact Hlen|].
    split; [exists []; rewrite app_nil_r; split; [reflexivity | constructor]|].
    split; [congruence | reflexivity].
Qed.

(** Without room for a single token nothing can be stored. *)
Lemma tokenize_run_no_capacity (capacity : Z) (final : tok_state) :
  capacity <= 0 -> tokenize_run html capacity = Ok final ->
  tokens final = [].
Proof.
  intros Hcap. unfold tokenize_run. intros H. inv_bind H.
  apply (tokenize_loop_invariant_body
           (fun st => length (buffer st) = 1024%nat /\
                      token_capacity st = capacity /\ tokens st = [])) in E
    as ((Hlen & Hc & Ht) & Hbuf & _).
  - destruct (flush_remaining_fits _ _ Hbuf Hlen H) as [_ Hpos].
    apply (flush_remaining_Ok _ _ Hbuf) in H as (-> & _).
    rewrite Ht. unfold flushed.
    destruct (Z.gtb_spec (buffer_pos a) 0) as [Hgt|Hle]; [|reflexivity].
    specialize (Hpos ltac:(lia)). lia.
  - intros st st' (Hlen & Hc & Ht) Hbuf Hpos Hb.
    destruct (tokenize_body_fits _ _ Hbuf Hpos Hlen Hb)
      as (Hlen' & _ & Htag & Hchar).
    destruct (Ascii.eqb_spec (char_at html (pos st)) "<"%char) as [Hlt|Hne].
    + specialize (Htag Hlt). lia.
    + split; [exact Hlen'|]. split; [rewrite (Hchar Hne); exact Hc|].
      apply tokenize_body_Ok in Hb; [|assumption..].
      unfold body_post in Hb.
      destruct (Ascii.eqb_spec (char_at html (pos st)) "<"%char);
        [contradiction|].
      destruct Hb as (-> & _). exact Ht.
  - repeat split.
  - apply tokenize_init_buf_ok.
  - simpl. lia.
Qed.

End Sizes.

(** X6: an input of at most 255 bytes overruns none of the arrays: with a
    positive [token_capacity] the tokenizer returns its tokens. *)
Theorem short_input_is_tokenized (html : string) (capacity : Z) :
  strlen (list_ascii_of_string html) <= 255 -> 0 < capacity ->
  exists toks, tokenize html capacity = Ok toks.
Proof.
  intros Hshort Hcap.
  destruct (tokenize_run_defined _ Hshort capacity Hcap) as [st Hst].
  exists (tokens st). unfold tokenize. rewrite Hst. reflexivity.
Qed.

Lemma short_input_is_tokenized_witness :
  strlen (list_ascii_of_string "<p>x</p>") <= 255 /\ 0 < 1 /\
  exists toks, tokenize "<p>x</p>" 1 = Ok toks.
Proof.
  assert (H1 : strlen (list_ascii_of_string "<p>x</p>") <= 255)
    by (simpl; lia).
  assert (H2 : 0 < 1) by lia.
  split; [exact H1|]. split; [exact H2|].
  exact (short_input_is_tokenized _ _ H1 H2).
Defined.

(** X7: the caller has to pass a positive [token_capacity]: with a capacity
    of 0 or less the tokenizer succeeds on the empty input only, and stores
    no token. *)
Theorem no_capacity_no_tokens (html : string) (capacity : Z)
    (toks : list Token) :
  capacity <= 0 -> tokenize html capacity = Ok toks ->
  toks = [] /\ strlen (list_ascii_of_string html) = 0.
Proof.
  intros Hcap H. apply tokenize_Ok in H as (st & H & <-).
  pose proof (tokenize_run_no_capacity _ _ _ Hcap H) as Hnil.
  split; [exact Hnil|].
  pose proof (strlen_nonneg (list_ascii_of_string html)) as Hn.
  assert (Hlen : Z.of_nat (length (c_string (list_ascii_of_string html)))
                 = strlen (list_ascii_of_string html))
    by (unfold c_string; rewrite slice_length; lia).
  destruct (tokenize_run_spelled _ _ _ H) as [[_ Hr]|[Hr _]];
    rewrite Hnil in Hr; unfold render in Hr; simpl in Hr.
  - rewrite <- Hr in Hlen. simpl in Hlen. lia.
  - destruct (c_string (list_ascii_of_string html)); discriminate.
Qed.

Lemma no_capacity_no_tokens_witness :
  0 <= 0 /\ tokenize "" 0 = Ok [] /\
  @nil Token = [] /\ strlen (list_ascii_of_string "") = 0.
Proof.
  assert (H1 : 0 <= 0) by lia.
  assert (H2 : tokenize "" 0 = Ok []) by (vm_compute; reflexivity).
  split; [exact H1|]. split; [exact H2|].
  exact (no_capacity_no_tokens _ _ _ H1 H2).
Defined.

(** ** Where the tree builder is defined, and how it fails *)

Section BuilderDomain.

Lemma build_dom_fold_app (l1 l2 : list Token) (st : dom_state) :
  build_dom_fold (l1 ++ l2) st
  = (st' ← build_dom_fold l1 st; build_dom_fold l2 st').
Proof.
  revert st. induction l1 as [|t r IH]; intros st; simpl; [reflexivity|].
  destruct (build_dom_body t st) as [st'|e]; simpl; [apply IH | reflexivity].
Qed.

Lemma build_dom_fold_end_tags (ends : list Token) (st : dom_state) :
  Forall (fun t => type t = EndTag) ends ->
  exists st', build_dom_fold ends st = Ok st' /\ heap st' = heap st.
Proof.
  intros Hends. revert st.
  induction Hends as [|t r Ht _ IH]; intros st; simpl; [eauto|].
  rewrite (build_dom_body_end _ _ Ht), bind_Ok.
  destruct (IH (mkDom (heap st) (stack st)
                      (if stack_size st >? 0 then stack_size st - 1
                       else stack_size st)))
    as (st' & Hst' & Hheap).
  exists st'. split; [exact Hst' | exact Hheap].
Qed.

(** The two ways in which one iteration of [build_dom] can fail. *)
Lemma build_dom_body_failure (t : Token) (st : dom_state) :
  dom_fits st -> Z.of_nat (length (heap st)) <= 1073741823 ->
  (exists st', build_dom_body t st = Ok st' /\ dom_fits st' /\
               (length (heap st') <= S (length (heap st)))%nat) \/
  (stack_size st = 0 /\ type t <> EndTag /\
   build_dom_body t st = Err (StackOutOfBounds (-1))) \/
  (stack_size st = 128 /\ type t = StartTag /\
   build_dom_body t st = Err (StackOutOfBounds 128)).
Proof.
  intros Hfits Hsmall.
  pose proof Hfits as (Hlen & Hsize & _).
  destruct (decide (type t = EndTag)) as [Hend|Hend].
  - left. destruct (build_dom_body_defined t [] st Hfits Hsmall)
      as (st' & Hb & Hf & Hl & _); [simpl; rewrite Hend; reflexivity|].
    eauto.
  - destruct (Z.eq_dec (stack_size st) 0) as [Hz|Hnz].
    { right. left. split; [exact Hz|]. split; [exact Hend|].
      apply no_parent_below_root; assumption. }
    destruct (type t) eqn:Ht; [|congruence|].
    + destruct (Z.eq_dec (stack_size st) 128) as [Hfull|Hfree].
      * right. right. split; [exact Hfull|]. split; [reflexivity|].
        unfold build_dom_body, create_node. rewrite Ht.
        destruct (attach_defined st (mkNode (data t) [] 4 0))
          as (top & h' & Hget & Hadd & _); auto; [lia|].
        rewrite Hget, bind_Ok, Hadd, bind_Ok.
        unfold array_set. rewrite Hlen, Hfull. reflexivity.
      * left. destruct (build_dom_body_defined t [] st Hfits Hsmall)
          as (st' & Hb & Hf & Hl & _).
        { simpl. rewrite Ht, andb_true_r. apply andb_true_intro.
          split; apply Z.leb_le; lia. }
        eauto.
    + left. destruct (build_dom_body_defined t [] st Hfits Hsmall)
        as (st' & Hb & Hf & Hl & _).
      { simpl. rewrite Ht, andb_true_r. apply Z.leb_le. lia. }
      eauto.
Qed.

Lemma build_dom_fold_failure (toks : list Token) (st : dom_state) (e : error) :
  dom_fits st ->
  Z.of_nat (length (heap st)) + Z.of_nat (length toks) <= 1073741824 ->
  build_dom_fold toks st = Err e ->
  e = StackOutOfBounds (-1) \/ e = StackOutOfBounds 128.
Proof.
  revert st. induction toks as [|t r IH]; intros st Hfits Hsmall H;
    simpl in H; [discriminate|].
  simpl in Hsmall.
  destruct (build_dom_body_failure t st Hfits)
    as [(st' & Hb & Hf & Hl)|[(_ & _ & Hb)|(_ & _ & Hb)]]; [lia | | |];
    rewrite Hb in H; simpl in H.
  - apply (IH st' Hf); [lia | exact H].
  - injection H as <-. auto.
  - injection H as <-. auto.
Qed.

End BuilderDomain.

(** X8: [build_dom] is defined exactly on the token sequences that keep the
    stack in bounds: wherever a start tag or a text arrives, [stack_size] is
    at least 1, and wherever a start tag arrives it is at most 127
    ([nesting_ok] follows [stack_size] through the tokens). *)
Theorem build_tree_defined_exactly (toks : list Token) :
  Z.of_nat (length toks) < 1073741824 ->
  (exists d, build_tree toks = Ok d) <-> nesting_ok 1 toks = true.
Proof. apply build_tree_defined_iff. Qed.

Lemma build_tree_defined_exactly_witness :
  Z.of_nat (length [mkToken StartTag "a"; mkToken EndTag "a";
                    mkToken EndTag "a"; mkToken Text "x"]) < 1073741824 /\
  nesting_ok 1 [mkToken StartTag "a"; mkToken EndTag "a";
                mkToken EndTag "a"; mkToken Text "x"] = false /\
  ~ exists d, build_tree [mkToken StartTag "a"; mkToken EndTag "a";
                          mkToken EndTag "a"; mkToken Text "x"] = Ok d.
Proof.
  assert (H1 : Z.of_nat (length [mkToken StartTag "a"; mkToken EndTag "a";
                                 mkToken EndTag "a"; mkToken Text "x"])
               < 1073741824) by (simpl; lia).
  split; [exact H1|]. split; [reflexivity|].
  intros Hd. apply (proj1 (build_tree_defined_exactly _ H1)) in Hd.
  discriminate Hd.
Defined.

(** X9: the only ways in which [build_dom] fails are the two accesses
    outside [stack]: reading [stack[-1]] after the root has been popped, and
    writing [stack[128]] at the 128th open element.  The children arrays
    and the node pointers are never the reason. *)
Theorem build_tree_failures (toks : list Token) (e : error) :
  Z.of_nat (length toks) < 1073741824 ->
  build_tree toks = Err e ->
  e = StackOutOfBounds (-1) \/ e = StackOutOfBounds 128.
Proof.
  intros Hsmall H. unfold build_tree, build_dom in H.
  rewrite build_dom_run_fold in H.
  destruct (build_dom_fold toks _) as [st|e'] eqn:Hfold; simpl in H;
    [discriminate|].
  injection H as <-.
  apply (build_dom_fold_failure _ _ _ dom_fits_init) in Hfold;
    [exact Hfold | simpl; lia].
Qed.

Lemma build_tree_failures_witness :
  Z.of_nat (length [mkToken EndTag "a"; mkToken StartTag "b"]) < 1073741824 /\
  build_tree [mkToken EndTag "a"; mkToken StartTag "b"]
  = Err (StackOutOfBounds (-1)) /\
  (StackOutOfBounds (-1) = StackOutOfBounds (-1)
   \/ StackOutOfBounds (-1) = StackOutOfBounds 128).
Proof.
  assert (H1 : Z.of_nat (length [mkToken EndTag "a"; mkToken StartTag "b"])
               < 1073741824) by (simpl; lia).
  assert (H2 : build_tree [mkToken EndTag "a"; mkToken StartTag "b"]
               = Err (StackOutOfBounds (-1))) by (vm_compute; reflexivity).
  split; [exact H1|]. split; [exact H2|].
  exact (build_tree_failures _ _ H1 H2).
Defined.

(** X10: end tags at the end of the token sequence do not change the tree:
    an element that is still open when the tokens end is part of the tree
    just as if it had been closed. *)
Theorem trailing_end_tags_are_optional (toks ends : list Token) :
  Forall (fun t => type t = EndTag) ends ->
  build_tree (toks ++ ends) = build_tree toks.
Proof.
  intros Hends. unfold build_tree, build_dom.
  rewrite !build_dom_run_fold, build_dom_fold_app.
  destruct (build_dom_fold toks _) as [st|e]; simpl; [|reflexivity].
  destruct (build_dom_fold_end_tags ends st Hends) as (st' & Hst' & Hheap).
  rewrite Hst'. simpl. rewrite Hheap. reflexivity.
Qed.

Lemma trailing_end_tags_are_optional_witness :
  Forall (fun t => type t = EndTag) [mkToken EndTag "b"; mkToken EndTag "a"] /\
  build_tree ([mkToken StartTag "a"; mkToken StartTag "b"; mkToken Text "x"]
              ++ [mkToken EndTag "b"; mkToken EndTag "a"])
  = build_tree [mkToken StartTag "a"; mkToken StartTag "b"; mkToken Text "x"].
Proof.
  assert (H : Forall (fun t => type t = EndTag)
                [mkToken EndTag "b"; mkToken EndTag "a"])
    by (repeat constructor).
  split; [exact H | exact (trailing_end_tags_are_optional _ _ H)].
Defined.

(** ** Document order *)

Section Spine.

(** The heap [h'] after a new leaf has been allocated and put below the
    node [top] of the heap [h]. *)
Variables (h : list Node) (top : ptr) (n new : Node) (capacity : Z).
Hypothesis top_node : h !! top = Some n.
Hypothesis new_leaf : children new = [].

Let h' : list Node :=
  <[top := mkNode (name n) (children n ++ [length h]) capacity (is_text n)]>
    (h ++ [new]).

(** A subtree that does not hold [top] is not touched. *)
Lemma ptrs_unchanged (fuel : nat) (p : ptr) (l : list ptr) :
  tree_ptrs fuel h p = Some l -> top ∉ l ->
  tree_ptrs (S fuel) h' p = Some l.
Proof.
  unfold h'. revert p l.
  induction fuel as [|fuel IH]; intros p l H Htop; [discriminate|].
  rewrite tree_ptrs_S in H.
  destruct (h !! p) as [m|] eqn:Em; simpl in H; [|discriminate].
  destruct (mapM (tree_ptrs fuel h) (children m)) as [ks|] eqn:Ek;
    simpl in H; [|discriminate].
  injection H as <-. apply mapM_Some in Ek.
  apply not_elem_of_cons in Htop as [Hne Htop].
  rewrite tree_ptrs_S.
  rewrite (graft_lookup_old h top n new capacity p m) by auto.
  cbn [mbind option_bind].
  rewrite (mapM_Some_2 _ _ ks); [reflexivity|].
  clear Em. induction Ek as [|c k cs ks0 Hck _ IHk]; constructor.
  - apply IH; [exact Hck|]. intros Hin. apply Htop. simpl.
    apply elem_of_app. left. exact Hin.
  - apply IHk. intros Hin. apply Htop. simpl. apply elem_of_app. right.
    exact Hin.
Qed.

Lemma ptrs_unchanged_all (fuel : nat) (cs : list ptr) (ks : list (list ptr)) :
  Forall2 (fun c k => tree_ptrs fuel h c = Some k) cs ks ->
  top ∉ concat ks ->
  Forall2 (fun c k => tree_ptrs (S fuel) h' c = Some k) cs ks.
Proof.
  induction 1 as [|c k cs0 ks0 Hck _ IHk]; intros Htop; constructor.
  - apply ptrs_unchanged; [exact Hck|]. intros Hin. apply Htop. simpl.
    apply elem_of_app. left. exact Hin.
  - apply IHk. intros Hin. apply Htop. simpl. apply elem_of_app. right.
    exact Hin.
Qed.

Lemma on_spine_elem (p : ptr) :
  on_spine h top p ->
  forall fuel l, tree_ptrs fuel h p = Some l -> top ∈ l.
Proof.
  induction 1 as [|p m c Hm Hlast _ IH]; intros fuel l H;
    (destruct fuel as [|fuel]; [discriminate|]); rewrite tree_ptrs_S in H.
  - destruct (h !! top) as [m|]; simpl in H; [|discriminate].
    destruct (mapM (tree_ptrs fuel h) (children m)); simpl in H;
      [|discriminate].
    injection H as <-. left.
  - rewrite Hm in H. simpl in H.
    destruct (mapM (tree_ptrs fuel h) (children m)) as [ks|] eqn:Ek;
      simpl in H; [|discriminate].
    injection H as <-. right. apply mapM_Some in Ek.
    apply last_Some in Hlast as [cs Hcs]. rewrite Hcs in Ek.
    apply Forall2_app_inv_l in Ek as (ks0 & ks1 & _ & Hc & ->).
    inversion Hc as [|? kc ? ? Hkc Hnil]; subst. inversion Hnil; subst.
    rewrite concat_app. apply elem_of_app. right. simpl.
    rewrite app_nil_r. exact (IH _ _ Hkc).
Qed.

(** Below a node whose last-child path leads to [top], the new leaf comes
    last. *)
Lemma graft_spine (p : ptr) :
  on_spine h top p ->
  forall fuel l, tree_ptrs fuel h p = Some l -> NoDup l ->
                 tree_ptrs (S fuel) h' p = Some (l ++ [length h]).
Proof.
  pose proof ptrs_unchanged_all as Hsame. unfold h' in *.
  induction 1 as [|p m c Hm Hlast Hspine IH]; intros fuel l H Hnd;
    (destruct fuel as [|fuel]; [discriminate|]); rewrite tree_ptrs_S in H.
  - rewrite top_node in H. simpl in H.
    destruct (mapM (tree_ptrs fuel h) (children n)) as [ks|] eqn:Ek;
      simpl in H; [|discriminate].
    injection H as <-. apply mapM_Some in Ek.
    apply NoDup_cons in Hnd as [Htop _].
    rewrite tree_ptrs_S.
    rewrite (graft_lookup_top h top n new capacity top_node).
    cbn [mbind option_bind children].
    rewrite (mapM_Some_2 _ _ (ks ++ [[length h]])).
    + simpl. rewrite concat_app. simpl. reflexivity.
    + apply Forall2_app.
      * apply Hsame; assumption.
      * constructor; [|constructor].
        apply (graft_ptrs_new h top n new capacity top_node new_leaf).
  - rewrite Hm in H. simpl in H.
    destruct (mapM (tree_ptrs fuel h) (children m)) as [ks|] eqn:Ek;
      simpl in H; [|discriminate].
    injection H as <-. apply mapM_Some in Ek.
    apply last_Some in Hlast as [cs Hcs]. rewrite Hcs in Ek.
    apply Forall2_app_inv_l in Ek as (ks0 & ks1 & Hks0 & Hc & ->).
    inversion Hc as [|? kc ? ? Hkc Hnil]; subst. inversion Hnil; subst.
    apply NoDup_cons in Hnd as [Hp Hnd].
    rewrite concat_app in Hp, Hnd. simpl in Hp, Hnd.
    rewrite app_nil_r in Hp, Hnd.
    apply NoDup_app in Hnd as (_ & Hdisj & Hndc).
    pose proof (on_spine_elem c Hspine _ _ Hkc) as Htopc.
    assert (Hne : p <> top).
    { intros ->. apply Hp, elem_of_app. right. exact Htopc. }
    rewrite tree_ptrs_S.
    rewrite (graft_lookup_old h top n new capacity p m) by auto.
    cbn [mbind option_bind]. rewrite Hcs.
    rewrite (mapM_Some_2 _ _ (ks0 ++ [kc ++ [length h]])).
    + simpl. rewrite !concat_app. simpl. rewrite !app_nil_r, app_assoc.
      reflexivity.
    + apply Forall2_app.
      * assert (Htop0 : top ∉ concat ks0).
        { intros Hin. exact (Hdisj _ Hin Htopc). }
        apply Hsame; assumption.
      * constructor; [|constructor]. apply IH; assumption.
Qed.

End Spine.

Section DocumentOrder.

Lemma stack_chain_init :
  stack_chain (mkDom [mkNode "document" [] 4 0]
                     (Some 0%nat :: replicate 127 None) 1).
Proof.
  split; [|split; [|split]]; cbn [heap stack stack_size].
  - intros i Hi. assert (i = 0%nat) as -> by lia. exists 0%nat. reflexivity.
  - reflexivity.
  - intros i j p q Hij. lia.
  - intros i p q Hi. lia.
Qed.

(** The node on top of the stack lies on the last-child path of the root. *)
Lemma stack_chain_spine (st : dom_state) (top : ptr) :
  stack_chain st -> 0 <= stack_size st - 1 ->
  stack st !! Z.to_nat (stack_size st - 1) = Some (Some top) ->
  on_spine (heap st) top 0.
Proof.
  intros (Hall & Hroot & _ & Hlast) Hsize Htop.
  assert (Hgen : forall d i p,
             (i + d = Z.to_nat (stack_size st - 1))%nat ->
             stack st !! i = Some (Some p) -> on_spine (heap st) top p).
  { induction d as [|d IH]; intros i p Hi Hp.
    - replace i with (Z.to_nat (stack_size st - 1)) in Hp by lia.
      rewrite Htop in Hp. injection Hp as <-. constructor.
    - destruct (Hall (S i)) as [q Hq]; [lia|].
      destruct (Hlast i p q) as (n & Hn & Hl); [lia | exact Hp | exact Hq |].
      apply (spine_down _ _ p n q Hn Hl). apply (IH (S i)); [lia | exact Hq]. }
  apply (Hgen (Z.to_nat (stack_size st - 1)) 0%nat); [lia|].
  apply Hroot. lia.
Qed.

Lemma stack_chain_body (t : Token) (st st' : dom_state) :
  dom_ok st -> stack_chain st -> build_dom_body t st = Ok st' ->
  stack_chain st'.
Proof.
  intros (_ & Hstack & _) (Hall & Hroot & Hinc & Hlast) H.
  destruct (decide (type t = EndTag)) as [Ht|Ht].
  - rewrite (build_dom_body_end _ _ Ht) in H. injection H as <-.
    cbn [heap stack stack_size] in *.
    destruct (stack_size st >? 0); (split; [|split; [|split]]);
      cbn [heap stack stack_size].
    all: try (intros i Hi; apply Hall; lia).
    all: try (intros Hpos; apply Hroot; lia).
    all: try (intros i j p q Hij; apply Hinc; lia).
    all: intros i p q Hi; apply Hlast; lia.
  - apply (build_dom_body_new _ _ _ Ht) in H
      as (top & n & capacity & Htop & Hopen & Hn & Hheap & Hst & Hsz & Hfree).
    simpl in Hn, Hheap.
    destruct (Hstack _ _ Htop) as (n0 & Hn0 & _).
    pose proof (lookup_lt_Some _ _ _ Hn0) as Hlt.
    rewrite lookup_app_l in Hn by exact Hlt.
    (* the entries below the top are older than the top *)
    assert (Hbelow : forall i p,
               (S i < Z.to_nat (stack_size st))%nat ->
               stack st !! i = Some (Some p) -> (p < top)%nat).
    { intros i p Hi Hp.
      apply (Hinc i (Z.to_nat (stack_size st - 1)) p top); [lia | exact Hp|].
      exact Htop. }
    assert (Hsame : forall p m, p <> top -> heap st !! p = Some m ->
                                heap st' !! p = Some m).
    { intros p m Hne Hm. rewrite Hheap. apply graft_lookup_old; assumption. }
    assert (Hold : forall i p q,
               (S i < Z.to_nat (stack_size st))%nat ->
               stack st !! i = Some (Some p) ->
               stack st !! S i = Some (Some q) ->
               exists n1, heap st' !! p = Some n1 /\
                          last (children n1) = Some q).
    { intros i p q Hi Hp Hq.
      destruct (Hlast i p q Hi Hp Hq) as (n1 & Hn1 & Hl).
      exists n1. split; [|exact Hl]. apply Hsame; [|exact Hn1].
      specialize (Hbelow i p Hi Hp). lia. }
    destruct (type t) eqn:Hty; [|congruence|].
    + (* a start tag pushes the new node *)
      specialize (Hfree eq_refl). unfold stack_chain. rewrite Hst, Hsz.
      split; [|split; [|split]].
      * intros i Hi.
        destruct (decide (i = Z.to_nat (stack_size st))) as [->|Hne].
        -- exists (length (heap st)). apply list_lookup_insert_eq. lia.
        -- rewrite list_lookup_insert_ne by congruence. apply Hall. lia.
      * intros _. rewrite list_lookup_insert_ne by lia. apply Hroot. lia.
      * intros i j p q Hij Hp Hq.
        rewrite list_lookup_insert_ne in Hp by lia.
        destruct (decide (j = Z.to_nat (stack_size st))) as [->|Hne].
        -- rewrite list_lookup_insert_eq in Hq by lia. injection Hq as <-.
           destruct (Hstack _ _ Hp) as (m & Hm & _).
           exact (lookup_lt_Some _ _ _ Hm).
        -- rewrite list_lookup_insert_ne in Hq by congruence.
           apply (Hinc i j); [lia | exact Hp | exact Hq].
      * intros i p q Hi Hp Hq.
        rewrite list_lookup_insert_ne in Hp by lia.
        destruct (decide (S i = Z.to_nat (stack_size st))) as [Heq|Hne].
        -- rewrite Heq, list_lookup_insert_eq in Hq by lia.
           injection Hq as <-.
           replace i with (Z.to_nat (stack_size st - 1)) in Hp by lia.
           rewrite Htop in Hp. injection Hp as <-.
           eexists. split.
           ++ rewrite Hheap. apply graft_lookup_top. exact Hn.
           ++ simpl. apply last_snoc.
        -- rewrite list_lookup_insert_ne in Hq by congruence.
           apply (Hold i); [lia | exact Hp | exact Hq].
    + (* a text leaves the stack as it is *)
      unfold stack_chain. rewrite Hst, Hsz.
      split; [exact Hall|]. split; [exact Hroot|]. split; [exact Hinc|].
      exact Hold.
Qed.

Lemma node_tags_body (t : Token) (st st' : dom_state) :
  dom_ok st -> build_dom_body t st = Ok st' ->
  map node_tag (heap st')
  = map node_tag (heap st)
    ++ (if decide (type t <> EndTag) then [token_tag t] else []).
Proof.
  intros (_ & Hstack & _) H.
  destruct (decide (type t <> EndTag)) as [Ht|Ht].
  - apply (build_dom_body_new _ _ _ Ht) in H
      as (top & n & capacity & Htop & _ & Hn & -> & _).
    simpl in Hn.
    change (map node_tag) with (fmap (M := list) node_tag).
    rewrite list_fmap_insert, list_insert_id.
    + rewrite fmap_app. simpl. unfold token_tag, node_tag at 2. simpl.
      destruct (type t); reflexivity.
    + rewrite list_lookup_fmap, Hn. reflexivity.
  - assert (Hend : type t = EndTag)
      by (destruct (type t); try reflexivity; exfalso; apply Ht; discriminate).
    rewrite (build_dom_body_end _ _ Hend) in H. injection H as <-.
    simpl. rewrite app_nil_r. reflexivity.
Qed.

Lemma node_tags_fold (toks : list Token) (st st' : dom_state) :
  dom_ok st -> build_dom_fold toks st = Ok st' ->
  map node_tag (heap st')
  = map node_tag (heap st)
    ++ map token_tag (filter (fun t => type t <> EndTag) toks).
Proof.
  revert st. induction toks as [|t r IH]; intros st Hok H; simpl in H.
  - injection H as <-. simpl. rewrite app_nil_r. reflexivity.
  - inv_bind H. rewrite (IH a (dom_ok_body _ _ _ Hok E) H).
    rewrite (node_tags_body _ _ _ Hok E), filter_cons.
    destruct (decide (type t <> EndTag)); simpl;
      rewrite <- app_assoc; reflexivity.
Qed.

(** The walk from the root meets the nodes in the order of their
    allocation. *)
Lemma preorder_body (t : Token) (st st' : dom_state) :
  dom_ok st -> stack_chain st ->
  tree_ptrs (length (heap st)) (heap st) 0 = Some (seq 0 (length (heap st))) ->
  build_dom_body t st = Ok st' ->
  tree_ptrs (length (heap st')) (heap st') 0
  = Some (seq 0 (length (heap st'))).
Proof.
  intros Hok Hchain Hpre H.
  destruct (decide (type t = EndTag)) as [Ht|Ht].
  - rewrite (build_dom_body_end _ _ Ht) in H. injection H as <-. exact Hpre.
  - pose proof Hok as (_ & Hstack & _).
    apply (build_dom_body_new _ _ _ Ht) in H
      as (top & n & capacity & Htop & Hopen & Hn & Hheap & _).
    simpl in Hn, Hheap.
    destruct (Hstack _ _ Htop) as (n0 & Hn0 & _).
    pose proof (lookup_lt_Some _ _ _ Hn0) as Hlt.
    rewrite lookup_app_l in Hn by exact Hlt.
    pose proof (stack_chain_spine _ _ Hchain Hopen Htop) as Hspine.
    assert (Hlen : length (heap st') = S (length (heap st))).
    { rewrite Hheap, length_insert, length_app. simpl. lia. }
    rewrite Hlen, seq_S, Hheap. simpl.
    apply (graft_spine (heap st) top n
             (mkNode (data t) [] 4 (match type t with Text => 1 | _ => 0 end))
             capacity Hn eq_refl 0%nat Hspine);
      [exact Hpre | apply NoDup_seq].
Qed.

Lemma build_tree_preorder (toks : list Token) (root : ptr) (h : list Node) :
  build_tree toks = Ok (root, h) ->
  tree_ptrs (length h) h root = Some (seq 0 (length h)) /\
  map node_tag h
  = ("document"%string, 0) ::
    map token_tag (filter (fun t => type t <> EndTag) toks).
Proof.
  unfold build_tree, build_dom. intros H. inv_bind H. injection H as <- <-.
  rewrite build_dom_run_fold in E. split.
  - apply (build_dom_fold_invariant
             (fun s => dom_ok s /\ stack_chain s /\
                       tree_ptrs (length (heap s)) (heap s) 0
                       = Some (seq 0 (length (heap s))))) in E.
    + apply E.
    + intros t s s' (Hok & Hchain & Hpre) Hb.
      split; [exact (dom_ok_body _ _ _ Hok Hb)|].
      split; [exact (stack_chain_body _ _ _ Hok Hchain Hb)|].
      exact (preorder_body _ _ _ Hok Hchain Hpre Hb).
    + split; [exact dom_ok_init|]. split; [exact stack_chain_init|].
      reflexivity.
  - rewrite (node_tags_fold _ _ _ dom_ok_init E). reflexivity.
Qed.

(** The tree that is read off along a list of pointers carries the names
    and kinds of the nodes behind these pointers. *)
Lemma tree_of_ptrs_tags (h : list Node) (fuel : nat) (p : ptr) (l : list ptr) :
  tree_ptrs fuel h p = Some l ->
  exists t, tree_of fuel h p = Some t /\
            Forall2 (fun sub q => exists n, h !! q = Some n /\
                                            tree_tag sub = node_tag n)
                    (tree_nodes t) l.
Proof.
  revert p l. induction fuel as [|fuel IH]; intros p l H; [discriminate|].
  rewrite tree_ptrs_S in H.
  destruct (h !! p) as [n|] eqn:En; simpl in H; [|discriminate].
  destruct (mapM (tree_ptrs fuel h) (children n)) as [ks|] eqn:Ek;
    simpl in H; [|discriminate].
  injection H as <-. apply mapM_Some in Ek.
  assert (Hkids : exists kids,
             Forall2 (fun c k => tree_of fuel h c = Some k) (children n) kids /\
             Forall2 (fun sub q => exists n, h !! q = Some n /\
                                             tree_tag sub = node_tag n)
                     (concat (map tree_nodes kids)) (concat ks)).
  { clear En. induction Ek as [|c k cs ks0 Hck _ IHk].
    - exists []. split; constructor.
    - destruct (IH _ _ Hck) as (t & Ht & Hl).
      destruct IHk as (kids & Hk & Hall).
      exists (t :: kids). split; [constructor; assumption|].
      simpl. apply Forall2_app; assumption. }
  destruct Hkids as (kids & Hk & Hall).
  exists (TreeNode (name n) (is_text n) kids). split.
  - simpl. rewrite En. simpl. rewrite (mapM_Some_2 _ _ _ Hk). reflexivity.
  - simpl. constructor; [|exact Hall]. exists n. split; [exact En | reflexivity].
Qed.

End DocumentOrder.

(** X11: the tree keeps the order of the document.  Walking the tree that
    [build_dom] returns from the root, every node before its children and
    the children from first to last, meets the root "document" and then one
    node for every start tag or text of the token sequence, in the order of
    the tokens, each with the payload of its token as name. *)
Theorem tree_keeps_document_order (toks : list Token) (d : ptr * list Node) :
  build_tree toks = Ok d ->
  exists t,
    tree_of_dom d = Some t /\
    map tree_tag (tree_nodes t)
    = ("document"%string, 0) ::
      map token_tag (filter (fun t => type t <> EndTag) toks).
Proof.
  destruct d as [root h]. intros H.
  destruct (build_tree_preorder _ _ _ H) as [Hpre Htags].
  destruct (tree_of_ptrs_tags _ _ _ _ Hpre) as (t & Ht & Hall).
  exists t. split; [exact Ht|]. rewrite <- Htags.
  apply list_eq. intros i. rewrite !list_lookup_fmap.
  destruct (tree_nodes t !! i) as [sub|] eqn:Hsub; simpl.
  - destruct (Forall2_lookup_l _ _ _ _ _ Hall Hsub) as (q & Hq & n & Hn & Htag).
    apply lookup_seq in Hq as [-> _]. simpl in Hn. rewrite Hn. simpl.
    rewrite Htag. reflexivity.
  - apply lookup_ge_None in Hsub.
    rewrite (Forall2_length _ _ _ Hall), length_seq in Hsub.
    rewrite (proj2 (lookup_ge_None h i)) by lia. reflexivity.
Qed.

Lemma tree_keeps_document_order_witness :
  build_tree [mkToken StartTag "a"; mkToken Text "x"; mkToken EndTag "a";
              mkToken Text "y"]
  = Ok (0%nat, [mkNode "document" [1%nat; 3%nat] 4 0; mkNode "a" [2%nat] 4 0;
                mkNode "x" [] 4 1; mkNode "y" [] 4 1]) /\
  exists t,
    tree_of_dom (0%nat, [mkNode "document" [1%nat; 3%nat] 4 0;
                         mkNode "a" [2%nat] 4 0;
                         mkNode "x" [] 4 1; mkNode "y" [] 4 1]) = Some t /\
    map tree_tag (tree_nodes t)
    = ("document"%string, 0) ::
      map token_tag
        (filter (fun t => type t <> EndTag)
           [mkToken StartTag "a"; mkToken Text "x"; mkToken EndTag "a";
            mkToken Text "y"]).
Proof.
  assert (H : build_tree [mkToken StartTag "a"; mkToken Text "x";
                          mkToken EndTag "a"; mkToken Text "y"]
              = Ok (0%nat, [mkNode "document" [1%nat; 3%nat] 4 0;
                            mkNode "a" [2%nat] 4 0;
                            mkNode "x" [] 4 1; mkNode "y" [] 4 1]))
    by (vm_compute; reflexivity).
  split; [exact H | exact (tree_keeps_document_order _ _ H)].
Defined.

(** ** The tree builder and the builder on trees *)

Lemma tree_of_S (fuel : nat) (h : list Node) (p : ptr) :
  tree_of (S fuel) h p
  = (n ← h !! p;
     kids ← mapM (tree_of fuel h) (children n);
     Some (TreeNode (name n) (is_text n) kids)).
Proof. reflexivity. Qed.

Lemma spine_at_on_spine (h : list Node) (top : ptr) (d : nat) (p : ptr) :
  spine_at h top d p -> on_spine h top p.
Proof.
  induction 1 as [|d p n c Hn Hlast _ IH]; [constructor|].
  exact (spine_down _ _ p n c Hn Hlast IH).
Qed.

Lemma map_last_snoc {A : Type} (f : A -> A) (l : list A) (x : A) :
  map_last f (l ++ [x]) = l ++ [f x].
Proof.
  induction l as [|y l IH]; [reflexivity|].
  simpl. rewrite IH. destruct l; reflexivity.
Qed.

Section TreeGraft.

Variables (h : list Node) (top : ptr) (n new : Node) (capacity : Z).
Hypothesis top_node : h !! top = Some n.
Hypothesis new_leaf : children new = [].

Let h' : list Node :=
  <[top := mkNode (name n) (children n ++ [length h]) capacity (is_text n)]>
    (h ++ [new]).

Let leaf : Tree := TreeNode (name new) (is_text new) [].

(** A subtree that does not hold [top] is not touched. *)
Lemma tree_unchanged (fuel : nat) (p : ptr) (l : list ptr) (t : Tree) :
  tree_ptrs fuel h p = Some l -> top ∉ l -> tree_of fuel h p = Some t ->
  tree_of (S fuel) h' p = Some t.
Proof.
  unfold h'. revert p l t.
  induction fuel as [|fuel IH]; intros p l t H Htop Ht; [discriminate|].
  rewrite tree_ptrs_S in H. rewrite tree_of_S in Ht.
  destruct (h !! p) as [m|] eqn:Em; simpl in H, Ht; [|discriminate].
  destruct (mapM (tree_ptrs fuel h) (children m)) as [ks|] eqn:Ek;
    simpl in H; [|discriminate].
  destruct (mapM (tree_of fuel h) (children m)) as [kids|] eqn:Ekids;
    simpl in Ht; [|discriminate].
  injection H as <-. injection Ht as <-.
  apply mapM_Some in Ek. apply mapM_Some in Ekids.
  apply not_elem_of_cons in Htop as [Hne Htop].
  rewrite tree_of_S.
  rewrite (graft_lookup_old h top n new capacity p m) by auto.
  cbn [mbind option_bind].
  rewrite (mapM_Some_2 _ _ kids); [reflexivity|].
  clear Em. revert kids Ekids.
  induction Ek as [|c k cs ks0 Hck _ IHk]; intros kids Hkids;
    inversion Hkids as [|? kt ? kts Hkt Hrest]; subst; constructor.
  - apply (IH _ k); [exact Hck | | exact Hkt]. intros Hin. apply Htop.
    simpl. apply elem_of_app. left. exact Hin.
  - apply IHk; [|exact Hrest]. intros Hin. apply Htop. simpl.
    apply elem_of_app. right. exact Hin.
Qed.

Lemma tree_unchanged_all (fuel : nat) (cs : list ptr) (ks : list (list ptr))
    (kids : list Tree) :
  Forall2 (fun c k => tree_ptrs fuel h c = Some k) cs ks ->
  top ∉ concat ks ->
  Forall2 (fun c t => tree_of fuel h c = Some t) cs kids ->
  Forall2 (fun c t => tree_of (S fuel) h' c = Some t) cs kids.
Proof.
  intros Hks. revert kids.
  induction Hks as [|c k cs0 ks0 Hck _ IHk]; intros kids Htop Hkids;
    inversion Hkids as [|? kt ? kts Hkt Hrest]; subst; constructor.
  - apply (tree_unchanged _ _ k); [exact Hck | | exact Hkt]. intros Hin.
    apply Htop. simpl. apply elem_of_app. left. exact Hin.
  - apply IHk; [|exact Hrest]. intros Hin. apply Htop. simpl.
    apply elem_of_app. right. exact Hin.
Qed.

Lemma graft_tree_new (fuel : nat) :
  tree_of (S fuel) h' (length h) = Some leaf.
Proof.
  unfold h'. rewrite tree_of_S.
  rewrite (graft_lookup_new h top n new capacity top_node).
  simpl. rewrite new_leaf. reflexivity.
Qed.

(** Below a node whose last-child path leads to [top] in [d] steps, the
    tree gets the new leaf at the end of this path. *)
Lemma graft_tree (d : nat) (p : ptr) :
  spine_at h top d p ->
  forall fuel l t,
    tree_ptrs fuel h p = Some l -> NoDup l -> tree_of fuel h p = Some t ->
    tree_of (S fuel) h' p = Some (graft d leaf t).
Proof.
  pose proof tree_unchanged_all as Hsame. unfold h' in *.
  induction 1 as [|d p m c Hm Hlast Hspine IH]; intros fuel l t H Hnd Ht;
    (destruct fuel as [|fuel]; [discriminate|]);
    rewrite tree_ptrs_S in H; rewrite tree_of_S in Ht.
  - rewrite top_node in H, Ht. simpl in H, Ht.
    destruct (mapM (tree_ptrs fuel h) (children n)) as [ks|] eqn:Ek;
      simpl in H; [|discriminate].
    destruct (mapM (tree_of fuel h) (children n)) as [kids|] eqn:Ekids;
      simpl in Ht; [|discriminate].
    injection H as <-. injection Ht as <-.
    apply mapM_Some in Ek. apply mapM_Some in Ekids.
    apply NoDup_cons in Hnd as [Htop _].
    rewrite tree_of_S.
    rewrite (graft_lookup_top h top n new capacity top_node).
    cbn [mbind option_bind children name is_text].
    rewrite (mapM_Some_2 _ _ (kids ++ [leaf])); [reflexivity|].
    apply Forall2_app.
    + apply (Hsame _ _ ks); assumption.
    + constructor; [|constructor]. apply graft_tree_new.
  - rewrite Hm in H, Ht. simpl in H, Ht.
    destruct (mapM (tree_ptrs fuel h) (children m)) as [ks|] eqn:Ek;
      simpl in H; [|discriminate].
    destruct (mapM (tree_of fuel h) (children m)) as [kids|] eqn:Ekids;
      simpl in Ht; [|discriminate].
    injection H as <-. injection Ht as <-.
    apply mapM_Some in Ek. apply mapM_Some in Ekids.
    apply last_Some in Hlast as [cs Hcs]. rewrite Hcs in Ek, Ekids.
    apply Forall2_app_inv_l in Ek as (ks0 & ks1 & Hks0 & Hc & ->).
    inversion Hc as [|? kc ? ? Hkc Hnil]; subst. inversion Hnil; subst.
    apply Forall2_app_inv_l in Ekids as (kids0 & kids1 & Hkids0 & Hct & ->).
    inversion Hct as [|? tc ? ? Htc Hnilt]; subst. inversion Hnilt; subst.
    apply NoDup_cons in Hnd as [Hp Hnd].
    rewrite concat_app in Hp, Hnd. simpl in Hp, Hnd.
    rewrite app_nil_r in Hp, Hnd.
    apply NoDup_app in Hnd as (_ & Hdisj & Hndc).
    pose proof (on_spine_elem h top n top_node c
                  (spine_at_on_spine _ _ _ _ Hspine) _ _ Hkc) as Htopc.
    assert (Hne : p <> top).
    { intros ->. apply Hp, elem_of_app. right. exact Htopc. }
    rewrite tree_of_S.
    rewrite (graft_lookup_old h top n new capacity p m) by auto.
    cbn [mbind option_bind]. rewrite Hcs.
    rewrite (mapM_Some_2 _ _ (kids0 ++ [graft d leaf tc])).
    + simpl. rewrite map_last_snoc. reflexivity.
    + apply Forall2_app.
      * assert (Htop0 : top ∉ concat ks0).
        { intros Hin. exact (Hdisj _ Hin Htopc). }
        apply (Hsame _ _ ks0); assumption.
      * constructor; [|constructor]. apply (IH _ kc); assumption.
Qed.

End TreeGraft.

Section Grown.

(** The open element on top of the stack lies [stack_size - 1] steps down
    the last-child path of the root. *)
Lemma stack_chain_spine_at (st : dom_state) (top : ptr) :
  stack_chain st -> 0 <= stack_size st - 1 ->
  stack st !! Z.to_nat (stack_size st - 1) = Some (Some top) ->
  spine_at (heap st) top (Z.to_nat (stack_size st - 1)) 0.
Proof.
  intros (Hall & Hroot & _ & Hlast) Hsize Htop.
  assert (Hgen : forall d i p,
             (i + d = Z.to_nat (stack_size st - 1))%nat ->
             stack st !! i = Some (Some p) -> spine_at (heap st) top d p).
  { induction d as [|d IH]; intros i p Hi Hp.
    - replace i with (Z.to_nat (stack_size st - 1)) in Hp by lia.
      rewrite Htop in Hp. injection Hp as <-. constructor.
    - destruct (Hall (S i)) as [q Hq]; [lia|].
      destruct (Hlast i p q) as (n & Hn & Hl); [lia | exact Hp | exact Hq |].
      apply (spine_at_down _ _ d p n q Hn Hl).
      apply (IH (S i)); [lia | exact Hq]. }
  apply (Hgen _ 0%nat); [lia|]. apply Hroot. lia.
Qed.

Lemma grow_body (t : Token) (st st' : dom_state) (tree : Tree) :
  dom_ok st -> stack_chain st ->
  tree_ptrs (length (heap st)) (heap st) 0 = Some (seq 0 (length (heap st))) ->
  tree_of (length (heap st)) (heap st) 0 = Some tree ->
  build_dom_body t st = Ok st' ->
  tree_of (length (heap st')) (heap st') 0
  = Some (fst (grow_step t (tree, stack_size st))) /\
  stack_size st' = snd (grow_step t (tree, stack_size st)).
Proof.
  intros Hok Hchain Hpre Htree H.
  destruct (decide (type t = EndTag)) as [Ht|Ht].
  - rewrite (build_dom_body_end _ _ Ht) in H. injection H as <-.
    unfold grow_step. rewrite Ht. simpl.
    destruct (stack_size st >? 0); split; first [exact Htree | reflexivity].
  - pose proof Hok as (_ & Hstack & _).
    apply (build_dom_body_new _ _ _ Ht) in H
      as (top & n & capacity & Htop & Hopen & Hn & Hheap & _ & Hsz & _).
    simpl in Hn, Hheap.
    destruct (Hstack _ _ Htop) as (n0 & Hn0 & _).
    pose proof (lookup_lt_Some _ _ _ Hn0) as Hlt.
    rewrite lookup_app_l in Hn by exact Hlt.
    pose proof (stack_chain_spine_at _ _ Hchain Hopen Htop) as Hspine.
    assert (Hlen : length (heap st') = S (length (heap st))).
    { rewrite Hheap, length_insert, length_app. simpl. lia. }
    rewrite Hlen, Hheap, Hsz.
    rewrite (graft_tree (heap st) top n
               (mkNode (data t) [] 4 (match type t with Text => 1 | _ => 0 end))
               capacity Hn eq_refl _ 0%nat Hspine _ _ _ Hpre
               (NoDup_seq _ _) Htree).
    unfold grow_step, Element, TextNode. simpl.
    destruct (type t); [|congruence|]; split; reflexivity.
Qed.

Lemma grow_fold (toks : list Token) (st st' : dom_state) (tree : Tree) :
  dom_ok st -> stack_chain st ->
  tree_ptrs (length (heap st)) (heap st) 0 = Some (seq 0 (length (heap st))) ->
  tree_of (length (heap st)) (heap st) 0 = Some tree ->
  build_dom_fold toks st = Ok st' ->
  tree_of (length (heap st')) (heap st') 0
  = Some (fst (grow toks (tree, stack_size st))).
Proof.
  revert st tree.
  induction toks as [|t r IH]; intros st tree Hok Hchain Hpre Htree H;
    simpl in H.
  - injection H as <-. exact Htree.
  - inv_bind H.
    destruct (grow_body _ _ _ _ Hok Hchain Hpre Htree E) as [Htree' Hsz].
    cbn [grow].
    rewrite (surjective_pairing (grow_step t (tree, stack_size st))).
    rewrite <- Hsz.
    apply (IH a); [exact (dom_ok_body _ _ _ Hok E) | | | exact Htree' | exact H].
    + exact (stack_chain_body _ _ _ Hok Hchain E).
    + exact (preorder_body _ _ _ Hok Hchain Hpre E).
Qed.

Lemma foldr_max_app (l1 l2 : list nat) :
  foldr Nat.max 0%nat (l1 ++ l2)
  = Nat.max (foldr Nat.max 0%nat l1) (foldr Nat.max 0%nat l2).
Proof.
  induction l1 as [|x l1 IH]; simpl; [reflexivity|]. rewrite IH. lia.
Qed.

Lemma height_graft (leaf : Tree) (d : nat) (t : Tree) :
  height leaf = 1%nat ->
  (height (graft d leaf t) <= Nat.max (height t) (d + 2))%nat.
Proof.
  intros Hleaf. revert t. induction d as [|d IH]; intros [nm it kids].
  - simpl. rewrite map_app, foldr_max_app. simpl. rewrite Hleaf. lia.
  - cbn [graft height].
    assert (Hk : (foldr Nat.max 0 (map height (map_last (graft d leaf) kids))
                  <= Nat.max (foldr Nat.max 0 (map height kids)) (d + 2))%nat).
    { induction kids as [|k kids IHk]; [simpl; lia|].
      destruct kids as [|k' kids].
      - simpl. specialize (IH k). lia.
      - change (map_last (graft d leaf) (k :: k' :: kids))
          with (k :: map_last (graft d leaf) (k' :: kids)).
        cbn [map foldr] in *. lia. }
    lia.
Qed.

Lemma grow_height (toks : list Token) (tree : Tree) (size : Z) :
  nesting_ok size toks = true -> size <= 128 ->
  (height tree <= 129)%nat ->
  (height (fst (grow toks (tree, size))) <= 129)%nat.
Proof.
  revert tree size.
  induction toks as [|t r IH]; intros tree size Hnest Hsize Hh; simpl in *;
    [exact Hh|].
  unfold grow_step. destruct (type t).
  - apply andb_prop in Hnest as [Hnest Hr].
    apply andb_prop in Hnest as [H1 H2].
    apply Z.leb_le in H1. apply Z.leb_le in H2.
    apply IH; [exact Hr | lia|].
    pose proof (height_graft (Element (data t) []) (Z.to_nat (size - 1)) tree
                  eq_refl). lia.
  - apply IH; [exact Hnest | destruct (size >? 0); lia | exact Hh].
  - apply andb_prop in Hnest as [H1 Hr]. apply Z.leb_le in H1.
    apply IH; [exact Hr | lia|].
    pose proof (height_graft (TextNode (data t)) (Z.to_nat (size - 1)) tree
                  eq_refl). lia.
Qed.

End Grown.

Lemma build_tree_grown (toks : list Token) (root : ptr) (h : list Node) :
  build_tree toks = Ok (root, h) ->
  tree_of (length h) h root = Some (grown toks) /\
  (nesting_ok 1 toks = true) /\ (height (grown toks) <= 129)%nat.
Proof.
  unfold build_tree, build_dom. intros H. inv_bind H. injection H as <- <-.
  rewrite build_dom_run_fold in E.
  assert (Hnest : nesting_ok 1 toks = true)
    by (apply build_dom_fold_nesting in E; [exact E | reflexivity]).
  split; [|split; [exact Hnest|]].
  - exact (grow_fold _ _ _ _ dom_ok_init stack_chain_init eq_refl eq_refl E).
  - apply grow_height; [exact Hnest | simpl; lia | simpl; lia].
Qed.

(** X12: [build_dom] builds the tree that the builder on trees builds.
    Its heap, its pointers and its stack of open elements come to this: a
    start tag or a text becomes the last child at the end of the last-child
    path of the tree, as many steps down as elements are open, and nothing
    else in the tree changes. *)
Theorem build_tree_is_grown (toks : list Token) (d : ptr * list Node) :
  build_tree toks = Ok d -> tree_of_dom d = Some (grown toks).
Proof.
  destruct d as [root h]. intros H.
  exact (proj1 (build_tree_grown _ _ _ H)).
Qed.

Lemma build_tree_is_grown_witness :
  tree_of_dom (0%nat, [mkNode "document" [1%nat; 3%nat] 4 0;
                       mkNode "a" [2%nat] 4 0;
                       mkNode "x" [] 4 1; mkNode "y" [] 4 1])
  = Some (Element "document" [Element "a" [TextNode "x"]; TextNode "y"]).
Proof.
  apply (build_tree_is_grown
           [mkToken StartTag "a"; mkToken Text "x"; mkToken EndTag "a";
            mkToken Text "y"]).
  vm_compute. reflexivity.
Defined.

(** X13: the tree is at most 129 levels high: below the root there is room
    for 127 elements inside each other, the size of [stack], and for one
    text or empty element inside the innermost one. *)
Theorem tree_height_bounded (toks : list Token) (d : ptr * list Node) :
  build_tree toks = Ok d ->
  exists t, tree_of_dom d = Some t /\ (height t <= 129)%nat.
Proof.
  destruct d as [root h]. intros H. exists (grown toks).
  destruct (build_tree_grown _ _ _ H) as (Htree & _ & Hh).
  split; [exact Htree | exact Hh].
Qed.

(** The bound is reached: 127 elements inside each other and a text in
    the innermost. *)
Example tree_height_reached :
  height (grown (replicate 127 (mkToken StartTag "a") ++ [mkToken Text "x"]))
  = 129%nat /\
  exists d, build_tree (replicate 127 (mkToken StartTag "a")
                        ++ [mkToken Text "x"]) = Ok d.
Proof.
  split; [vm_compute; reflexivity|]. eexists. vm_compute. reflexivity.
Qed.

Lemma tree_height_bounded_witness :
  exists t,
    tree_of_dom (0%nat, [mkNode "document" [1%nat; 3%nat] 4 0;
                         mkNode "a" [2%nat] 4 0;
                         mkNode "x" [] 4 1; mkNode "y" [] 4 1]) = Some t /\
    (height t <= 129)%nat.
Proof.
  apply (tree_height_bounded
           [mkToken StartTag "a"; mkToken Text "x"; mkToken EndTag "a";
            mkToken Text "y"]).
  vm_compute. reflexivity.
Defined.

(** ** Printing the tree *)

Section Printing.

Lemma print_tree_S (fuel : nat) (h : list Node) (node : ptr) (depth : Z) :
  print_tree (S fuel) h node depth
  = match h !! node with
    | None => Err DanglingPointer
    | Some n =>
        kids ← print_each
                 (fun c => if depth <? INT_MAX
                           then print_tree fuel h c (depth + 1)
                           else Err IntOverflow)
                 (children n);
        Ok (open_line (name n) (is_text n) depth ++ kids
            ++ close_line (name n) (is_text n) depth)
    end.
Proof. reflexivity. Qed.

Lemma height_pos (t : Tree) : (1 <= height t)%nat.
Proof. destruct t. simpl. lia. Qed.

Lemma height_kid (k : Tree) (kids : list Tree) :
  k ∈ kids -> (height k <= foldr Nat.max 0 (map height kids))%nat.
Proof.
  induction 1 as [k kids|k k' kids _ IH]; simpl; lia.
Qed.

(** On a heap from which a tree can be read, [print_tree] writes the lines
    of this tree, unless [depth] runs over. *)
Lemma print_tree_text (fuel : nat) (h : list Node) (p : ptr) (t : Tree)
    (depth : Z) :
  tree_of fuel h p = Some t ->
  depth + Z.of_nat (height t) <= INT_MAX + 1 ->
  print_tree fuel h p depth = Ok (tree_text depth t).
Proof.
  revert p t depth.
  induction fuel as [|fuel IH]; intros p t depth Ht Hd; [discriminate|].
  rewrite tree_of_S in Ht.
  destruct (h !! p) as [m|] eqn:Em; simpl in Ht; [|discriminate].
  destruct (mapM (tree_of fuel h) (children m)) as [kids|] eqn:Ek;
    simpl in Ht; [|discriminate].
  injection Ht as <-. apply mapM_Some in Ek.
  rewrite print_tree_S, Em.
  assert (Hkids : print_each
                    (fun c => if depth <? INT_MAX
                              then print_tree fuel h c (depth + 1)
                              else Err IntOverflow)
                    (children m)
                  = Ok (concat (map (tree_text (depth + 1)) kids))).
  { assert (Hall : forall k, k ∈ kids ->
                             depth + 1 + Z.of_nat (height k) <= INT_MAX + 1).
    { intros k Hk. apply height_kid in Hk. cbn [height] in Hd. lia. }
    set (f := fun c => if depth <? INT_MAX
                       then print_tree fuel h c (depth + 1)
                       else Err IntOverflow).
    clear Em Hd. induction Ek as [|c k cs ks Hck _ IHk]; [reflexivity|].
    cbn [print_each map concat].
    assert (Hk : depth + 1 + Z.of_nat (height k) <= INT_MAX + 1)
      by (apply Hall; left).
    assert (Hf : f c = Ok (tree_text (depth + 1) k)).
    { pose proof (height_pos k). unfold f.
      rewrite (proj2 (Z.ltb_lt depth INT_MAX)) by lia.
      exact (IH _ _ _ Hck Hk). }
    rewrite Hf, bind_Ok, IHk; [reflexivity|].
    intros k' Hk'. apply Hall. right. exact Hk'. }
  rewrite Hkids. reflexivity.
Qed.

End Printing.

Section Streaming.

Lemma closers_snoc (k : Z) (names : list string) (nm : string) :
  closers k (names ++ [nm])
  = close_line nm 0 (k + Z.of_nat (length names)) ++ closers k names.
Proof.
  revert k. induction names as [|x names IH]; intros k.
  - simpl. rewrite Z.add_0_r, app_nil_r. reflexivity.
  - cbn [app closers length]. rewrite IH, <- app_assoc.
    replace (k + 1 + Z.of_nat (length names))
      with (k + Z.of_nat (S (length names))) by lia.
    reflexivity.
Qed.

Lemma close_all_closers (names : list string) :
  close_all names = closers 0 (reverse names).
Proof.
  induction names as [|nm rest IH]; [reflexivity|].
  rewrite reverse_cons, closers_snoc, length_reverse, <- IH. reflexivity.
Qed.

Lemma open_path_nonempty (t : Tree) (names : list string) :
  open_path t names -> names <> [].
Proof. destruct 1; discriminate. Qed.

Lemma open_path_length (t : Tree) (names : list string) :
  open_path t names -> length names = S (length names - 1).
Proof. destruct 1; simpl; lia. Qed.

(** The lines of a tree end with the closing lines of its last-child path,
    and a leaf that is put at the end of the path is written in front of
    them. *)
Lemma text_graft (t : Tree) (names : list string) :
  open_path t names ->
  forall k, exists pre,
    tree_text k t = pre ++ closers k names /\
    forall leaf,
      tree_text k (graft (length names - 1) leaf t)
      = pre ++ tree_text (k + Z.of_nat (length names)) leaf
        ++ closers k names.
Proof.
  induction 1 as [nm kids|nm kids c names Hlast Hpath IH]; intros k.
  - exists (open_line nm 0 k ++ concat (map (tree_text (k + 1)) kids)).
    cbn [tree_text closers length graft Nat.sub app]. split.
    + rewrite <- app_assoc. reflexivity.
    + intros leaf. rewrite map_app, concat_app. cbn [map concat].
      rewrite app_nil_r, <- !app_assoc. reflexivity.
  - apply last_Some in Hlast as [kids0 ->].
    destruct (IH (k + 1)) as (pre & Hpre & Hleaf).
    exists (open_line nm 0 k ++ concat (map (tree_text (k + 1)) kids0) ++ pre).
    cbn [length Nat.sub]. rewrite Nat.sub_0_r.
    rewrite (open_path_length _ _ Hpath).
    cbn [tree_text closers graft]. split.
    + rewrite map_app, concat_app. cbn [map concat].
      rewrite app_nil_r, Hpre, <- !app_assoc. reflexivity.
    + intros leaf. rewrite map_last_snoc, map_app, concat_app.
      cbn [map concat]. rewrite app_nil_r, Hleaf, <- !app_assoc.
      replace (k + 1 + Z.of_nat (length names))
        with (k + Z.of_nat (S (S (length names - 1)))).
      * reflexivity.
      * rewrite <- (open_path_length _ _ Hpath). lia.
Qed.

Lemma path_graft_element (t : Tree) (names : list string) (nm : string) :
  open_path t names ->
  open_path (graft (length names - 1) (TreeNode nm 0 []) t) (names ++ [nm]).
Proof.
  induction 1 as [nm0 kids|nm0 kids c names Hlast Hpath IH].
  - cbn [length Nat.sub graft app]. apply (path_step _ _ (TreeNode nm 0 [])).
    + apply last_snoc.
    + constructor.
  - apply last_Some in Hlast as [kids0 ->].
    cbn [length Nat.sub]. rewrite Nat.sub_0_r.
    rewrite (open_path_length _ _ Hpath). cbn [graft app].
    rewrite map_last_snoc.
    apply (path_step _ _ (graft (length names - 1) (TreeNode nm 0 []) c));
      [apply last_snoc | exact IH].
Qed.

Lemma path_graft_leaf (t : Tree) (names : list string) (leaf : Tree) :
  open_path t names ->
  open_path (graft (length names - 1) leaf t) names.
Proof.
  induction 1 as [nm0 kids|nm0 kids c names Hlast Hpath IH].
  - cbn [length Nat.sub graft]. constructor.
  - apply last_Some in Hlast as [kids0 ->].
    cbn [length Nat.sub]. rewrite Nat.sub_0_r.
    rewrite (open_path_length _ _ Hpath). cbn [graft].
    rewrite map_last_snoc.
    apply (path_step _ _ (graft (length names - 1) leaf c));
      [apply last_snoc | exact IH].
Qed.

Lemma path_prefix (names : list string) (x : string) (t : Tree) :
  names <> [] -> open_path t (names ++ [x]) -> open_path t names.
Proof.
  revert t. induction names as [|a names IH]; intros t Hne H; [congruence|].
  destruct names as [|b names].
  - inversion H; subst; constructor.
  - inversion H as [|? ? c ? Hlast Hc]; subst.
    apply (path_step _ _ c); [exact Hlast|]. apply IH; [discriminate|].
    exact Hc.
Qed.

Lemma text_inv_graft (tree : Tree) (size : Z) (out : list ascii)
    (names : list string) (leaf : Tree) :
  text_inv tree size out names -> 1 <= size ->
  open_path tree (reverse names) /\
  tree_text 0 (graft (Z.to_nat (size - 1)) leaf tree)
  = out ++ tree_text (Z.of_nat (length names)) leaf ++ close_all names.
Proof.
  intros (Hsize & Hpath & Htext) Hpos.
  destruct Hpath as [->|Hpath]; [simpl in Hsize; lia|].
  split; [exact Hpath|].
  destruct (text_graft _ _ Hpath 0) as (pre & Hpre & Hleaf).
  rewrite close_all_closers in Htext. rewrite Hpre in Htext.
  apply app_inv_tail in Htext as ->.
  rewrite length_reverse in Hleaf.
  replace (Z.to_nat (size - 1)) with (length names - 1)%nat by lia.
  rewrite Hleaf, close_all_closers. reflexivity.
Qed.

Lemma text_inv_step (t : Token) (tree : Tree) (size : Z) (out : list ascii)
    (names : list string) :
  text_inv tree size out names ->
  (type t <> EndTag -> 1 <= size) ->
  text_inv (fst (grow_step t (tree, size))) (snd (grow_step t (tree, size)))
           (fst (print_token t (out, names)))
           (snd (print_token t (out, names))).
Proof.
  intros Hinv Hpos. unfold grow_step, print_token.
  destruct (type t) eqn:Hty; cbn [fst snd].
  - destruct (text_inv_graft _ _ _ _ (Element (data t) []) Hinv)
      as [Hpath Htext]; [apply Hpos; discriminate|].
    destruct Hinv as (Hsize & _ & _).
    split; [cbn [length]; lia|]. split.
    + right. rewrite reverse_cons.
      replace (Z.to_nat (size - 1)) with (length (reverse names) - 1)%nat
        by (rewrite length_reverse; lia).
      apply path_graft_element. exact Hpath.
    + rewrite Htext. unfold Element. cbn [tree_text map concat close_all].
      rewrite <- !app_assoc. reflexivity.
  - destruct Hinv as (Hsize & Hpath & Htext).
    destruct names as [|nm rest].
    + simpl in Hsize. subst size. simpl. split; [reflexivity|].
      split; [left; reflexivity | exact Htext].
    + cbn [length] in Hsize.
      rewrite (proj2 (Z.gtb_gt size 0)) by lia. cbn [fst snd].
      split; [lia|]. split.
      * destruct Hpath as [Hnil|Hpath]; [discriminate|].
        destruct rest as [|nm' rest]; [left; reflexivity|]. right.
        rewrite reverse_cons in Hpath.
        apply (path_prefix _ nm); [|exact Hpath].
        rewrite reverse_cons. destruct (reverse rest); discriminate.
      * rewrite Htext. cbn [close_all]. rewrite <- app_assoc. reflexivity.
  - destruct (text_inv_graft _ _ _ _ (TextNode (data t)) Hinv)
      as [Hpath Htext]; [apply Hpos; discriminate|].
    destruct Hinv as (Hsize & _ & _).
    split; [exact Hsize|]. split.
    + right.
      replace (Z.to_nat (size - 1)) with (length (reverse names) - 1)%nat
        by (rewrite length_reverse; lia).
      apply path_graft_leaf. exact Hpath.
    + rewrite Htext. unfold TextNode, close_line.
      cbn [tree_text map concat Z.eqb andb app].
      rewrite app_nil_r, <- app_assoc. reflexivity.
Qed.

Lemma text_inv_fold (toks : list Token) (tree : Tree) (size : Z)
    (out : list ascii) (names : list string) :
  nesting_ok size toks = true ->
  text_inv tree size out names ->
  tree_text 0 (fst (grow toks (tree, size)))
  = fst (print_tokens toks (out, names))
    ++ close_all (snd (print_tokens toks (out, names))).
Proof.
  revert tree size out names.
  induction toks as [|t r IH]; intros tree size out names Hnest Hinv.
  - destruct Hinv as (_ & _ & Htext). exact Htext.
  - cbn [grow print_tokens].
    assert (Hpos : type t <> EndTag -> 1 <= size).
    { intros Ht. simpl in Hnest. destruct (type t); [|congruence|].
      - apply andb_prop in Hnest as [Hnest _].
        apply andb_prop in Hnest as [Hnest _]. apply Z.leb_le. exact Hnest.
      - apply andb_prop in Hnest as [Hnest _]. apply Z.leb_le. exact Hnest. }
    pose proof (text_inv_step t _ _ _ _ Hinv Hpos) as Hstep.
    rewrite (surjective_pairing (grow_step t (tree, size))).
    rewrite (surjective_pairing (print_token t (out, names))).
    apply IH; [|exact Hstep].
    simpl in Hnest. unfold grow_step. destruct (type t); cbn [snd].
    + apply andb_prop in Hnest as [_ Hnest]. exact Hnest.
    + exact Hnest.
    + apply andb_prop in Hnest as [_ Hnest]. exact Hnest.
Qed.

End Streaming.

(** X14: [print_tree] on the tree of [build_dom] writes the tokens line by
    line: first the line of the root; for a start tag or a text its line,
    indented by two blanks for every open element; for an end tag the
    closing line of the innermost open element, under the name of that
    element and not under the name in the end tag, and no line where the
    root is closed; at the end the closing lines of the elements that are
    still open.  The recursion finishes within as many levels as the heap
    has nodes, it follows no pointer out of the heap, and [depth] does not
    run over. *)
Theorem print_tree_follows_tokens (toks : list Token) (root : ptr)
    (h : list Node) :
  build_tree toks = Ok (root, h) ->
  print_tree (length h) h root 0 = Ok (tokens_text toks).
Proof.
  intros H. destruct (build_tree_grown _ _ _ H) as (Htree & Hnest & Hh).
  rewrite (print_tree_text _ _ _ _ 0 Htree) by (unfold INT_MAX; lia).
  f_equal. unfold tokens_text, grown.
  rewrite (surjective_pairing (print_tokens toks _)).
  apply text_inv_fold; [exact Hnest|].
  split; [reflexivity|]. split; [right; constructor | reflexivity].
Qed.

Lemma print_tree_follows_tokens_witness :
  build_tree [mkToken StartTag "a"; mkToken Text "x"; mkToken EndTag "b";
              mkToken Text "y"]
  = Ok (0%nat, [mkNode "document" [1%nat; 3%nat] 4 0; mkNode "a" [2%nat] 4 0;
                mkNode "x" [] 4 1; mkNode "y" [] 4 1]) /\
  print_tree 4
    [mkNode "document" [1%nat; 3%nat] 4 0; mkNode "a" [2%nat] 4 0;
     mkNode "x" [] 4 1; mkNode "y" [] 4 1] 0 0
  = Ok (tokens_text [mkToken StartTag "a"; mkToken Text "x";
                     mkToken EndTag "b"; mkToken Text "y"]).
Proof.
  assert (H : build_tree [mkToken StartTag "a"; mkToken Text "x";
                          mkToken EndTag "b"; mkToken Text "y"]
              = Ok (0%nat, [mkNode "document" [1%nat; 3%nat] 4 0;
                            mkNode "a" [2%nat] 4 0;
                            mkNode "x" [] 4 1; mkNode "y" [] 4 1]))
    by (vm_compute; reflexivity).
  split; [exact H | exact (print_tree_follows_tokens _ _ _ H)].
Defined.

(** ** Freeing the tree *)

Section Freeing.

Lemma access_live (b : block) (live : list block) :
  b ∈ live -> access b live = Done tt.
Proof. intros H. unfold access. rewrite decide_True by exact H. reflexivity. Qed.

Lemma release_live (b : block) (live : list block) :
  b ∈ live -> release b live = Done (filter (fun x => x <> b) live).
Proof.
  intros H. unfold release. rewrite decide_True by exact H. reflexivity.
Qed.

Lemma done_bind {A B : Type} (a : A) (k : A -> outcome B) :
  Done a ≫= k = k a.
Proof. reflexivity. Qed.

Lemma filter_none {A : Type} (P : A -> Prop) `{!forall x, Decision (P x)}
    (l : list A) :
  (forall x, x ∈ l -> ~ P x) -> filter P l = [].
Proof.
  induction l as [|x l IH]; intros Hno; [reflexivity|].
  rewrite filter_cons_False by (apply Hno; left).
  apply IH. intros y Hy. apply Hno. right. exact Hy.
Qed.

Lemma filter_all {A : Type} (P : A -> Prop) `{!forall x, Decision (P x)}
    (l : list A) :
  (forall x, x ∈ l -> P x) -> filter P l = l.
Proof.
  induction l as [|x l IH]; intros Hall; [reflexivity|].
  rewrite filter_cons_True by (apply Hall; left). f_equal.
  apply IH. intros y Hy. apply Hall. right. exact Hy.
Qed.

Lemma elem_of_blocks (ps : list ptr) (b : block) :
  b ∈ concat (map (fun p => [NodeBlock p; NameBlock p; ChildrenBlock p]) ps)
  <-> owner b ∈ ps.
Proof.
  induction ps as [|p ps IH].
  - split; intros H; inversion H.
  - cbn [map concat app]. rewrite !elem_of_cons, IH.
    destruct b; simpl; split; intuition congruence.
Qed.

Lemma elem_of_blocks_of (h : list Node) (b : block) :
  b ∈ blocks_of h <-> (owner b < length h)%nat.
Proof.
  unfold blocks_of. rewrite elem_of_blocks, elem_of_seq. lia.
Qed.

(** Where all the blocks of the nodes below [p] are allocated and no node
    is met twice, [free_node] frees exactly these blocks. *)
Lemma free_node_ptrs (h : list Node) (fuel : nat) (p : ptr) (l : list ptr)
    (live : list block) :
  tree_ptrs fuel h p = Some l -> NoDup l ->
  (forall b, owner b ∈ l -> b ∈ live) ->
  free_node fuel h (Some p) live
  = Done (filter (fun b => owner b ∉ l) live).
Proof.
  revert p l live.
  induction fuel as [|fuel IH]; intros p l live H Hnd Hlive; [discriminate|].
  rewrite tree_ptrs_S in H.
  destruct (h !! p) as [m|] eqn:Em; simpl in H; [|discriminate].
  destruct (mapM (tree_ptrs fuel h) (children m)) as [ks|] eqn:Ek;
    simpl in H; [|discriminate].
  injection H as <-. apply mapM_Some in Ek.
  apply NoDup_cons in Hnd as [Hp Hnd].
  assert (Hloop : forall live0,
             (forall b, owner b ∈ concat ks -> b ∈ live0) ->
             NodeBlock p ∈ live0 -> ChildrenBlock p ∈ live0 ->
             free_each (fun c => free_node fuel h (Some c)) p (children m)
                       live0
             = Done (filter (fun b => owner b ∉ concat ks) live0)).
  { clear Em Hlive. induction Ek as [|c k cs ks0 Hck _ IHk];
      intros live0 Hall Hnode Hkids; cbn [free_each].
    - rewrite (access_live _ _ Hnode), done_bind. simpl.
      f_equal. symmetry. apply filter_all. intros b _ Hin. inversion Hin.
    - cbn [concat] in Hp, Hnd, Hall.
      apply not_elem_of_app in Hp as [Hpk Hpks].
      apply NoDup_app in Hnd as (Hndk & Hdisj & Hndks).
      rewrite (access_live _ _ Hnode), done_bind.
      rewrite (access_live _ _ Hkids), done_bind.
      rewrite (IH c k live0 Hck Hndk)
        by (intros b Hb; apply Hall, elem_of_app; left; exact Hb).
      rewrite done_bind, IHk; [| exact Hpks | exact Hndks | | |].
      + rewrite list_filter_filter. f_equal. apply list_filter_iff.
        intros b. cbn [concat]. rewrite not_elem_of_app. tauto.
      + intros b Hb. apply list_elem_of_filter. split.
        * intros Hbk. exact (Hdisj _ Hbk Hb).
        * apply Hall, elem_of_app. right. exact Hb.
      + apply list_elem_of_filter. split; [exact Hpk | exact Hnode].
      + apply list_elem_of_filter. split; [exact Hpk | exact Hkids]. }
  cbn [free_node]. rewrite Em.
  rewrite access_live by (apply Hlive; left). rewrite done_bind.
  rewrite release_live by (apply Hlive; left). rewrite done_bind.
  set (live1 := filter (fun x => x <> NameBlock p) live).
  assert (Hnode1 : NodeBlock p ∈ live1).
  { apply list_elem_of_filter. split; [discriminate|]. apply Hlive. left. }
  assert (Hkids1 : ChildrenBlock p ∈ live1).
  { apply list_elem_of_filter. split; [discriminate|]. apply Hlive. left. }
  assert (Hall1 : forall b, owner b ∈ concat ks -> b ∈ live1).
  { intros b Hb. apply list_elem_of_filter. split.
    - intros ->. exact (Hp Hb).
    - apply Hlive. right. exact Hb. }
  rewrite (Hloop live1 Hall1 Hnode1 Hkids1), done_bind.
  set (live2 := filter (fun b => owner b ∉ concat ks) live1).
  assert (Hnode2 : NodeBlock p ∈ live2).
  { apply list_elem_of_filter. split; [exact Hp | exact Hnode1]. }
  assert (Hkids2 : ChildrenBlock p ∈ live2).
  { apply list_elem_of_filter. split; [exact Hp | exact Hkids1]. }
  rewrite (access_live _ _ Hnode2), done_bind.
  rewrite (release_live _ _ Hkids2), done_bind.
  rewrite release_live
    by (apply list_elem_of_filter; split; [discriminate | exact Hnode2]).
  unfold live2, live1. rewrite !list_filter_filter. f_equal.
  apply list_filter_iff. intros b. rewrite not_elem_of_cons.
  destruct b; simpl; split; intuition congruence.
Qed.

End Freeing.

(** X15: [free_node] gives back the whole tree of [build_dom].  It frees
    the node, the name and the array of children of every node, each of
    them once: it frees no block twice, reads from no block it has freed,
    follows no pointer out of the heap, ends within as many levels of
    recursion as the heap has nodes, and leaves no block of the tree
    allocated. *)
Theorem free_node_frees_the_tree (toks : list Token) (root : ptr)
    (h : list Node) :
  build_tree toks = Ok (root, h) ->
  free_node (length h) h (Some root) (blocks_of h) = Done [].
Proof.
  intros H. destruct (build_tree_preorder _ _ _ H) as [Hpre _].
  rewrite (free_node_ptrs _ _ _ _ _ Hpre (NoDup_seq _ _)).
  - f_equal. apply filter_none. intros b Hb Hout. apply Hout.
    apply elem_of_blocks_of in Hb. apply elem_of_seq. lia.
  - intros b Hb. apply elem_of_blocks_of. apply elem_of_seq in Hb. lia.
Qed.

Lemma free_node_frees_the_tree_witness :
  build_tree [mkToken StartTag "a"; mkToken Text "x"; mkToken EndTag "a";
              mkToken Text "y"]
  = Ok (0%nat, [mkNode "document" [1%nat; 3%nat] 4 0; mkNode "a" [2%nat] 4 0;
                mkNode "x" [] 4 1; mkNode "y" [] 4 1]) /\
  free_node 4
    [mkNode "document" [1%nat; 3%nat] 4 0; mkNode "a" [2%nat] 4 0;
     mkNode "x" [] 4 1; mkNode "y" [] 4 1] (Some 0%nat)
    (blocks_of [mkNode "document" [1%nat; 3%nat] 4 0; mkNode "a" [2%nat] 4 0;
                mkNode "x" [] 4 1; mkNode "y" [] 4 1])
  = Done [].
Proof.
  assert (H : build_tree [mkToken StartTag "a"; mkToken Text "x";
                          mkToken EndTag "a"; mkToken Text "y"]
              = Ok (0%nat, [mkNode "document" [1%nat; 3%nat] 4 0;
                            mkNode "a" [2%nat] 4 0;
                            mkNode "x" [] 4 1; mkNode "y" [] 4 1]))
    by (vm_compute; reflexivity).
  split; [exact H | exact (free_node_frees_the_tree _ _ _ H)].
Defined.

(** ** The arrays of children *)

Section Children.

Lemma add_child_capacity_ok (parent child : ptr) (h h' : list Node) :
  Forall capacity_ok h -> add_child parent child h = Ok h' ->
  Forall capacity_ok h'.
Proof.
  intros Hall. unfold add_child.
  destruct (h !! parent) as [n|] eqn:En; [|discriminate].
  intros H. inv_bind H.
  destruct (Z.ltb_spec (child_count n) a) as [Hlt|]; [|discriminate].
  injection H as <-. apply Forall_insert; [exact Hall|].
  pose proof (proj1 (Forall_lookup _ _) Hall _ _ En) as (Hcount & k & Hk & Hfull).
  unfold capacity_ok, child_count in *. cbn [children child_capacity].
  rewrite length_app. simpl.
  destruct (Z.geb_spec (Z.of_nat (length (children n))) (child_capacity n))
    as [Hge|Hless].
  - unfold double_capacity in E.
    destruct ((child_capacity n * 2 <=? INT_MAX)
              && (- INT_MAX - 1 <=? child_capacity n * 2)); [|discriminate].
    injection E as <-. split; [lia|]. exists (S k). split; [|lia].
    rewrite Hk, Nat2Z.inj_succ, Z.pow_succ_r by lia. lia.
  - injection E as <-. split; [lia|]. exists k. split; [exact Hk|].
    intros Hpos. specialize (Hfull Hpos). lia.
Qed.

Lemma build_dom_body_capacity_ok (t : Token) (st st' : dom_state) :
  Forall capacity_ok (heap st) -> build_dom_body t st = Ok st' ->
  Forall capacity_ok (heap st').
Proof.
  intros Hall.
  assert (Hnew : forall it,
             Forall capacity_ok (heap st ++ [mkNode (data t) [] 4 it])).
  { intros it. apply Forall_app. split; [exact Hall|].
    constructor; [|constructor]. split; [unfold child_count; simpl; lia|].
    exists 0%nat. split; [reflexivity | lia]. }
  unfold build_dom_body, create_node. destruct (type t); intros H.
  - inv_bind H. inv_bind H. apply (add_child_capacity_ok _ _ _ _ (Hnew 0)) in E0.
    inv_bind H. injection H as <-. exact E0.
  - destruct (stack_size st >? 0); injection H as <-; exact Hall.
  - inv_bind H. inv_bind H. apply (add_child_capacity_ok _ _ _ _ (Hnew 1)) in E0.
    injection H as <-. exact E0.
Qed.

End Children.

(** X16: how [add_child] has left the arrays of children in the tree of
    [build_dom].  In every node the children fit the array
    ([child_count <= child_capacity]); the capacity is 4, doubled some
    number of times; and an array that has been doubled is more than half
    full. *)
Theorem children_arrays_fit (toks : list Token) (root : ptr) (h : list Node) :
  build_tree toks = Ok (root, h) -> Forall capacity_ok h.
Proof.
  unfold build_tree, build_dom. intros H. inv_bind H. injection H as _ <-.
  rewrite build_dom_run_fold in E.
  apply (build_dom_fold_invariant (fun s => Forall capacity_ok (heap s))) in E.
  - exact E.
  - intros t s s'. apply build_dom_body_capacity_ok.
  - constructor; [|constructor]. split; [unfold child_count; simpl; lia|].
    exists 0%nat. split; [reflexivity | lia].
Qed.

Lemma children_arrays_fit_witness :
  Forall capacity_ok
    [mkNode "document" [1%nat; 2%nat; 3%nat; 4%nat; 5%nat] 8 0;
     mkNode "a" [] 4 1; mkNode "b" [] 4 1; mkNode "c" [] 4 1;
     mkNode "d" [] 4 1; mkNode "e" [] 4 0].
Proof.
  apply (children_arrays_fit
           [mkToken Text "a"; mkToken Text "b"; mkToken Text "c";
            mkToken Text "d"; mkToken StartTag "e"] 0%nat).
  vm_compute. reflexivity.
Defined.

(** ** The failures of the tokenizer *)

Section Overruns.

Variable html : list ascii.
Hypothesis html_small : strlen html < 1073741824.

Lemma array_set_outside {A : Type} (oob : Z -> error) (a : list A) (i : Z)
    (c : A) :
  Z.of_nat (length a) <= i -> array_set oob a i c = Err (oob i).
Proof.
  intros Hi. unfold array_set.
  destruct (Z.ltb_spec i (Z.of_nat (length a))); [lia|].
  rewrite andb_false_r. reflexivity.
Qed.

Lemma push_token_total (ty : TokenType) (a : list ascii) (d : string)
    (st : tok_state) :
  strdup a = Ok d -> 0 < token_capacity st ->
  token_count st <= token_capacity st -> token_count st <= 1073741823 ->
  exists capacity,
    push_token ty a st
    = Ok (mkTok (tokens st ++ [mkToken ty d]) capacity (pos st) (buffer st)
                (buffer_pos st) (steps st)) /\
    0 < capacity /\ token_count st + 1 <= capacity.
Proof.
  intros Hd Hcap Hcount Hsmall. unfold push_token.
  destruct (Z.geb_spec (token_count st) (token_capacity st)) as [Hge|Hlt].
  - rewrite double_capacity_small by lia. simpl.
    destruct (Z.ltb_spec (token_count st) (token_capacity st * 2)); [|lia].
    rewrite Hd. simpl. eexists. split; [reflexivity | lia].
  - simpl. destruct (Z.ltb_spec (token_count st) (token_capacity st)); [|lia].
    rewrite Hd. simpl. eexists. split; [reflexivity | lia].
Qed.

Lemma fits_buffer_pos (st : tok_state) :
  fits st -> 0 <= buffer_pos st <= 1024.
Proof.
  intros ((Hb0 & _ & Hpl) & Hlen & _).
  unfold pending in Hpl. rewrite length_take in Hpl. lia.
Qed.

(** Lines 87-98. *)
Lemma flush_text_overrun (st : tok_state) :
  fits st -> pos st < 1073741824 ->
  ok_or_overrun (fun st' => length (buffer st') = 1024%nat /\
                            0 < token_capacity st' /\
                            token_count st' <= token_capacity st')
                (flush_text st).
Proof.
  intros Hfits Hpos. pose proof (fits_buffer_pos _ Hfits) as Hbp.
  destruct Hfits as (Hbuf & Hlen & _ & Hcap & Hcount & Htok).
  rewrite flushed_length in Htok.
  unfold flush_text. destruct (Z.gtb_spec (buffer_pos st) 0) as [Hgt|Hle];
    [|simpl; auto].
  destruct (Z.ltb_spec (buffer_pos st) 1024) as [Hin|Hout].
  - destruct Hbuf as (Hb0 & Hall & Hpl).
    rewrite array_set_in_range by lia. rewrite bind_Ok.
    destruct (push_token_total Text
                (<[Z.to_nat (buffer_pos st) := NUL]> (buffer st))
                (string_of_list_ascii (pending st))
                (mkTok (tokens st) (token_capacity st) (pos st)
                   (<[Z.to_nat (buffer_pos st) := NUL]> (buffer st))
                   (buffer_pos st) (steps st)))
      as (capacity & Hpush & Hc0 & Hc1);
      [apply strdup_pending; [repeat split; auto | lia]
      | exact Hcap | exact Hcount | unfold token_count in *; simpl; lia |].
    rewrite Hpush, bind_Ok. cbn [buffer].
    rewrite array_set_in_range by (rewrite length_insert; lia).
    rewrite bind_Ok. simpl. rewrite !length_insert.
    unfold token_count in *. simpl in *. rewrite length_app. simpl.
    split; [exact Hlen|]. lia.
  - rewrite array_set_outside by lia. simpl. left.
    replace (buffer_pos st) with 1024 by lia. reflexivity.
Qed.

(** Lines 128-137. *)
Lemma flush_remaining_overrun (st : tok_state) :
  fits st -> pos st <= 1073741824 ->
  ok_or_overrun (fun _ => True) (flush_remaining st).
Proof.
  intros Hfits Hpos. pose proof (fits_buffer_pos _ Hfits) as Hbp.
  destruct Hfits as (Hbuf & Hlen & _ & Hcap & Hcount & Htok).
  rewrite flushed_length in Htok.
  unfold flush_remaining.
  destruct (Z.gtb_spec (buffer_pos st) 0) as [Hgt|Hle]; [|exact I].
  destruct (Z.ltb_spec (buffer_pos st) 1024) as [Hin|Hout].
  - destruct Hbuf as (Hb0 & Hall & Hpl).
    rewrite array_set_in_range by lia. rewrite bind_Ok.
    destruct (push_token_total Text
                (<[Z.to_nat (buffer_pos st) := NUL]> (buffer st))
                (string_of_list_ascii (pending st))
                (mkTok (tokens st) (token_capacity st) (pos st)
                   (<[Z.to_nat (buffer_pos st) := NUL]> (buffer st))
                   (buffer_pos st) (steps st)))
      as (capacity & Hpush & _);
      [apply strdup_pending; [repeat split; auto | lia]
      | exact Hcap | exact Hcount | unfold token_count in *; simpl; lia |].
    rewrite Hpush. exact I.
  - rewrite array_set_outside by lia. simpl. left.
    replace (buffer_pos st) with 1024 by lia. reflexivity.
Qed.

(** Lines 107-109. *)
Lemma scan_tag_name_overrun (fuel : nat) (p tag_pos : Z)
    (tag_name : list ascii) :
  0 <= p -> 0 <= tag_pos <= 256 -> length tag_name = 256%nat ->
  (Z.to_nat (strlen html - p) <= fuel)%nat ->
  ok_or_overrun (fun r => length (snd r) = 256%nat /\ snd (fst r) <= 256)
                (scan_tag_name fuel html p tag_pos tag_name).
Proof.
  revert p tag_pos tag_name.
  induction fuel as [|fuel IH]; intros p tag_pos tag_name Hp Ht Hlen Hf; simpl;
    destruct (Z.ltb_spec p (strlen html)) as [Hlt|Hge]; simpl;
    try destruct (Ascii.eqb (char_at html p) ">"%char); simpl;
    try (split; [exact Hlen | lia]); try (exfalso; lia).
  destruct (Z.ltb_spec tag_pos 256) as [Hin|Hout].
  - rewrite array_set_in_range by lia. rewrite bind_Ok.
    apply IH; [lia | lia | rewrite length_insert; exact Hlen | lia].
  - rewrite array_set_outside by lia. simpl. right.
    replace tag_pos with 256 by lia. reflexivity.
Qed.

Lemma fits_body (st st' : tok_state) :
  fits st -> 0 <= pos st < strlen html ->
  tokenize_body html st = Ok st' ->
  length (buffer st') = 1024%nat -> 0 < token_capacity st' ->
  token_count st' <= token_capacity st' -> fits st'.
Proof.
  intros Hfits Hpos Hbody Hlen' Hcap' Hcount'.
  destruct Hfits as (Hbuf & Hlen & Hbp & Hcap & Hcount & Htok).
  pose proof (flushed_bound st) as Hfl.
  pose proof (tokenize_body_Ok html _ _ Hbuf Hpos Hbody) as Hpost.
  pose proof (body_post_buf_ok html _ _ Hbuf Hpos Hpost) as Hbuf'.
  repeat split; try assumption; try apply Hbuf'.
  - unfold body_post in Hpost.
    destruct (Ascii.eqb (char_at html (pos st)) "<"%char).
    + destruct Hpost as (p2 & Hp2 & _ & _ & _ & -> & -> & _).
      destruct ((pos st + 1 <? strlen html)
                && Ascii.eqb (char_at html (pos st + 1)) "/"%char); lia.
    + destruct Hpost as (_ & -> & -> & _). lia.
  - rewrite flushed_length. unfold body_post, token_count in *.
    destruct (Ascii.eqb (char_at html (pos st)) "<"%char).
    + destruct Hpost as (p2 & Hp2 & _ & _ & -> & -> & -> & _).
      rewrite !length_app. simpl.
      destruct ((pos st + 1 <? strlen html)
                && Ascii.eqb (char_at html (pos st + 1)) "/"%char); lia.
    + destruct Hpost as (-> & -> & -> & _).
      destruct (buffer_pos st + 1 >? 0); lia.
Qed.

(** Lines 83-124. *)
Lemma tokenize_body_overrun (st : tok_state) :
  fits st -> 0 <= pos st < strlen html ->
  ok_or_overrun fits (tokenize_body html st).
Proof.
  intros Hfits Hpos.
  assert (Hsizes : ok_or_overrun
            (fun st' => length (buffer st') = 1024%nat /\
                        0 < token_capacity st' /\
                        token_count st' <= token_capacity st')
            (tokenize_body html st)).
  { pose proof (fits_buffer_pos _ Hfits) as Hbpos.
    pose proof Hfits as (Hbuf & Hlen & Hbp & Hcap & Hcount & Htok).
    pose proof (flushed_bound st) as Hfl.
    unfold tokenize_body.
    destruct (Ascii.eqb (char_at html (pos st)) "<"%char).
    - pose proof (flush_text_overrun st Hfits ltac:(lia)) as Hflush.
      destruct (flush_text st) as [st1|e] eqn:Eflush; [|exact Hflush].
      destruct Hflush as (Hl1 & Hc1 & Hk1).
      rewrite bind_Ok. cbv beta.
      destruct (flush_text_Ok _ _ Hbuf Eflush) as (Ht1 & Hp1 & _ & Hb1).
      rewrite Hp1.
      set (is_end_tag := (pos st + 1 <? strlen html)
                         && Ascii.eqb (char_at html (pos st + 1)) "/"%char).
      set (p1 := pos st + (if is_end_tag then 2 else 1)).
      assert (Hp1' : pos st < p1 <= strlen html).
      { subst p1 is_end_tag.
        destruct (Z.ltb_spec (pos st + 1) (strlen html)); simpl;
          try destruct (Ascii.eqb _ "/"%char); lia. }
      pose proof (scan_tag_name_overrun (Z.to_nat (strlen html)) p1 0
                    (replicate 256 NUL) ltac:(lia) ltac:(lia)
                    (length_replicate _ _) ltac:(lia)) as Hscan.
      destruct (scan_tag_name (Z.to_nat (strlen html)) html p1 0
                  (replicate 256 NUL)) as [[[p2 tag_pos] tag_name]|e]
        eqn:Escan; [|exact Hscan].
      destruct Hscan as [Hlt Htp]. cbn [fst snd] in Hlt, Htp.
      rewrite bind_Ok. cbv beta iota.
      apply scan_tag_name_Ok in Escan as (H1 & H2 & _ & _ & H5); try lia.
      change (take (Z.to_nat 0) (replicate 256 NUL)) with (@nil ascii) in H5.
      simpl in H5.
      destruct (Z.ltb_spec tag_pos 256) as [Hin|Hout].
      + rewrite array_set_in_range by lia. rewrite bind_Ok.
        destruct (push_token_total
                    (if is_end_tag then EndTag else StartTag)
                    (<[Z.to_nat tag_pos := NUL]> tag_name)
                    (string_of_list_ascii (slice html p1 p2))
                    (mkTok (tokens st1) (token_capacity st1) (p2 + 1)
                       (buffer st1) (buffer_pos st1)
                       (steps st1 + 1 + tag_pos)))
          as (capacity & Hpush & Hc0 & Hc1').
        * rewrite strdup_insert; [rewrite H5; reflexivity | lia |].
          rewrite H5. apply slice_not_NUL; lia.
        * exact Hc1.
        * exact Hk1.
        * unfold token_count in *. simpl. rewrite Ht1, length_app. lia.
        * rewrite Hpush. unfold token_count in *. simpl in *.
          rewrite length_app. simpl. split; [exact Hl1 | lia].
      + rewrite array_set_outside by lia. simpl. right.
        replace tag_pos with 256 by lia. reflexivity.
    - destruct (Z.ltb_spec (buffer_pos st) 1024) as [Hin|Hout].
      + rewrite array_set_in_range by lia. rewrite bind_Ok. simpl.
        rewrite length_insert. auto.
      + rewrite array_set_outside by lia. simpl. left.
        replace (buffer_pos st) with 1024 by lia. reflexivity. }
  destruct (tokenize_body html st) as [st'|e] eqn:Hbody; [|exact Hsizes].
  destruct Hsizes as (Hlen' & Hcap' & Hcount').
  exact (fits_body _ _ Hfits Hpos Hbody Hlen' Hcap' Hcount').
Qed.

(** Lines 82-125. *)
Lemma tokenize_loop_overrun (fuel : nat) (st : tok_state) :
  fits st -> 0 <= pos st <= strlen html + 1 ->
  (Z.to_nat (strlen html - pos st) <= fuel)%nat ->
  ok_or_overrun (fun st' => fits st' /\ pos st' <= strlen html + 1)
                (tokenize_loop fuel html st).
Proof.
  revert st.
  induction fuel as [|fuel IH]; intros st Hfits Hpos Hf; simpl;
    destruct (Z.ltb_spec (pos st) (strlen html)) as [Hlt|Hge];
    try (exfalso; lia); try (split; [assumption | lia]).
  pose proof (tokenize_body_overrun st Hfits ltac:(lia)) as Hbody.
  destruct (tokenize_body html st) as [st1|e] eqn:Ebody; [|exact Hbody].
  rewrite bind_Ok.
  destruct Hfits as (Hbuf & _).
  assert (Hpost : body_post html st st1)
    by (apply tokenize_body_Ok; auto; lia).
  pose proof (body_post_advances html _ _ Hpost) as Hadv.
  apply IH; [exact Hbody | | lia].
  split; [lia|]. unfold body_post in Hpost.
  destruct (Ascii.eqb (char_at html (pos st)) "<"%char).
  - destruct Hpost as (p2 & Hp2 & _ & _ & _ & -> & _). lia.
  - destruct Hpost as (_ & -> & _). lia.
Qed.

Lemma tokenize_run_overrun (capacity : Z) :
  0 < capacity -> ok_or_overrun (fun _ => True) (tokenize_run html capacity).
Proof.
  intros Hcap. unfold tokenize_run.
  pose proof (strlen_nonneg html) as Hn.
  assert (Hinit : fits (tokenize_init capacity)).
  { repeat split; simpl; try lia; try constructor;
      unfold token_count; simpl; lia. }
  pose proof (tokenize_loop_overrun (Z.to_nat (strlen html))
                (tokenize_init capacity) Hinit ltac:(simpl; lia)
                ltac:(simpl; lia)) as Hloop.
  destruct (tokenize_loop (Z.to_nat (strlen html)) html
              (tokenize_init capacity)) as [st|e]; [|exact Hloop].
  rewrite bind_Ok. destruct Hloop as [Hfits Hpos].
  apply flush_remaining_overrun; [exact Hfits | lia].
Qed.

End Overruns.

(** X17: the only ways in which [tokenize] fails.  With a positive
    [token_capacity] and an input of less than 2^30 bytes, a run that
    fails writes behind the end of [buffer], at index 1024, or behind the
    end of [tag_name], at index 256: the code stores a text of 1024 bytes
    or more, and a tag name of 256 bytes or more, without a check.  The
    array of tokens is never overrun and no capacity runs over. *)
Theorem tokenize_failures (html : string) (capacity : Z) (e : error) :
  0 < capacity -> strlen (list_ascii_of_string html) < 1073741824 ->
  tokenize html capacity = Err e ->
  e = BufferOutOfBounds 1024 \/ e = TagNameOutOfBounds 256.
Proof.
  intros Hcap Hsmall. unfold tokenize.
  pose proof (tokenize_run_overrun _ Hsmall capacity Hcap) as Hrun.
  destruct (tokenize_run (list_ascii_of_string html) capacity) as [st|e'];
    [discriminate|].
  intros H. injection H as <-. exact Hrun.
Qed.

Lemma tokenize_failures_witness :
  tokenize (string_of_list_ascii ("<"%char :: replicate 256 "a"%char)) 16
  = Err (TagNameOutOfBounds 256) /\
  (TagNameOutOfBounds 256 = BufferOutOfBounds 1024 \/
   TagNameOutOfBounds 256 = TagNameOutOfBounds 256).
Proof.
  assert (H : tokenize
                (string_of_list_ascii ("<"%char :: replicate 256 "a"%char)) 16
              = Err (TagNameOutOfBounds 256)) by (vm_compute; reflexivity).
  split; [exact H|].
  apply (tokenize_failures _ 16 _ ltac:(lia)) in H; [exact H|].
  vm_compute. reflexivity.
Defined.

(** Both failures occur: a text of 1024 bytes, and a tag name of 256
    bytes. *)
Example tokenize_long_text :
  tokenize (string_of_list_ascii (replicate 1024 "a"%char)) 16
  = Err (BufferOutOfBounds 1024).
Proof. vm_compute. reflexivity. Qed.

Example tokenize_long_tag :
  tokenize (string_of_list_ascii
              ("<"%char :: replicate 256 "a"%char ++ [">"%char])) 16
  = Err (TagNameOutOfBounds 256).
Proof. vm_compute. reflexivity. Qed.

(** ** The program *)

(** The run of [main]. *)
Example main_sample :
  main
  = Ok (unlines
          ["Tokens:"; "StartTag: html"; "StartTag: body"; "StartTag: div";
           "Text: Hello "; "StartTag: b"; "Text: world"; "EndTag: b";
           "EndTag: div"; "EndTag: body"; "EndTag: html"; EmptyString;
           "DOM Tree:"; "<document>"; "  <html>"; "    <body>";
           "      <div>";
           "        Text: " +:+ String dquote "Hello " +:+ String dquote EmptyString;
           "        <b>";
           "          Text: " +:+ String dquote "world" +:+ String dquote EmptyString;
           "        </b>"; "      </div>"; "    </body>"; "  </html>"]%string,
        Done []).
Proof. vm_compute. reflexivity. Qed.

(** X18: the whole program on an arbitrary input of less than 2^30 bytes.
    Where the tokenizer returns tokens and these keep the stack of
    [build_dom] in bounds, [main] runs to its end: it writes the tokens,
    one per line, and the lines of the tree ([tokens_text]), and
    [free_node] leaves no block of the tree allocated. *)
Theorem main_on_runs (html : string) (toks : list Token) :
  strlen (list_ascii_of_string html) < 1073741824 ->
  tokenize html 16 = Ok toks -> nesting_ok 1 toks = true ->
  main_on html = Ok (main_head toks ++ tokens_text toks, Done []).
Proof.
  intros Hsmall Htok Hnest. unfold main_on. rewrite Htok, bind_Ok.
  assert (Hlen : Z.of_nat (length toks) < 1073741824).
  { apply tokenize_Ok in Htok as (st & Hrun & <-).
    apply tokenize_run_linear in Hrun. unfold token_count in Hrun. lia. }
  destruct (proj2 (build_tree_defined_iff toks Hlen) Hnest) as [[root h] Hd].
  change (build_dom toks (Z.of_nat (length toks))) with (build_tree toks).
  rewrite Hd, bind_Ok. cbv beta iota.
  destruct (build_tree_grown _ _ _ Hd) as (Htree & _ & Hh).
  rewrite (print_tree_text _ _ _ _ 0 Htree) by (unfold INT_MAX; lia).
  rewrite bind_Ok.
  destruct (build_tree_preorder _ _ _ Hd) as [Hpre _].
  rewrite (free_node_ptrs _ _ _ _ _ Hpre (NoDup_seq _ _)).
  - f_equal. f_equal.
    + f_equal. unfold tokens_text, grown.
      rewrite (surjective_pairing (print_tokens toks _)).
      apply text_inv_fold; [exact Hnest|].
      split; [reflexivity|]. split; [right; constructor | reflexivity].
    + f_equal. apply filter_none. intros b Hb Hout. apply Hout.
      apply elem_of_blocks_of in Hb. apply elem_of_seq. lia.
  - intros b Hb. apply elem_of_blocks_of. apply elem_of_seq in Hb. lia.
Qed.

Lemma main_on_runs_witness :
  main_on "<a>x</b>y"
  = Ok (main_head [mkToken StartTag "a"; mkToken Text "x"; mkToken EndTag "b";
                   mkToken Text "y"]
        ++ tokens_text [mkToken StartTag "a"; mkToken Text "x";
                        mkToken EndTag "b"; mkToken Text "y"],
        Done []).
Proof.
  apply main_on_runs; vm_compute; reflexivity.
Defined.

(** ** The array of tokens *)

Section TokenArray.

Variable html : list ascii.
Variable initial : Z.

Lemma push_token_tokens_fit (ty : TokenType) (a : list ascii)
    (st st' : tok_state) :
  tokens_fit initial st -> push_token ty a st = Ok st' ->
  tokens_fit initial st'.
Proof.
  intros (Hcount & k & Hk & Hfull). unfold push_token. intros H. inv_bind H.
  destruct (Z.ltb_spec (token_count st) a0) as [Hlt|]; [|discriminate].
  inv_bind H. injection H as <-.
  unfold tokens_fit, token_count in *. cbn [tokens token_capacity].
  rewrite length_app. simpl.
  destruct (Z.geb_spec (Z.of_nat (length (tokens st))) (token_capacity st))
    as [Hge|Hless].
  - unfold double_capacity in E.
    destruct ((token_capacity st * 2 <=? INT_MAX)
              && (- INT_MAX - 1 <=? token_capacity st * 2)); [|discriminate].
    injection E as <-. split; [lia|]. exists (S k). split; [|lia].
    rewrite Hk, Nat2Z.inj_succ, Z.pow_succ_r by lia. lia.
  - injection E as <-. split; [lia|]. exists k. split; [exact Hk|].
    intros Hpos. specialize (Hfull Hpos). lia.
Qed.

Lemma flush_text_tokens_fit (st st' : tok_state) :
  tokens_fit initial st -> flush_text st = Ok st' -> tokens_fit initial st'.
Proof.
  intros Hfit. unfold flush_text.
  destruct (buffer_pos st >? 0); intros H; [|injection H as <-; exact Hfit].
  inv_bind H. inv_bind H. apply push_token_tokens_fit in E0; [|exact Hfit].
  inv_bind H. injection H as <-. exact E0.
Qed.

Lemma flush_remaining_tokens_fit (st st' : tok_state) :
  tokens_fit initial st -> flush_remaining st = Ok st' ->
  tokens_fit initial st'.
Proof.
  intros Hfit. unfold flush_remaining.
  destruct (buffer_pos st >? 0); intros H; [|injection H as <-; exact Hfit].
  inv_bind H. apply push_token_tokens_fit in H; [exact H | exact Hfit].
Qed.

Lemma tokenize_body_tokens_fit (st st' : tok_state) :
  tokens_fit initial st -> tokenize_body html st = Ok st' ->
  tokens_fit initial st'.
Proof.
  intros Hfit. unfold tokenize_body.
  destruct (Ascii.eqb (char_at html (pos st)) "<"%char); intros H.
  - inv_bind H. apply (flush_text_tokens_fit _ _ Hfit) in E.
    inv_bind H. destruct a0 as [[p2 tag_pos] tag_name]. cbv beta iota in H.
    inv_bind H. apply push_token_tokens_fit in H; [exact H | exact E].
  - inv_bind H. injection H as <-. exact Hfit.
Qed.

End TokenArray.

(** X19: how [tokenize] leaves the array of tokens.  At the end the tokens
    fit the array ([*token_count <= *token_capacity]); the capacity is the
    capacity the caller passed, doubled some number of times; and an array
    that has been doubled is more than half full. *)
Theorem token_array_fits (html : string) (capacity : Z) (st : tok_state) :
  0 <= capacity ->
  tokenize_run (list_ascii_of_string html) capacity = Ok st ->
  tokens_fit capacity st.
Proof.
  intros Hcap. unfold tokenize_run. intros H. inv_bind H.
  apply (tokenize_loop_invariant_body _ (tokens_fit capacity)) in E
    as (Hfit & _).
  - exact (flush_remaining_tokens_fit _ _ _ Hfit H).
  - intros s s' Hs _ _. apply tokenize_body_tokens_fit. exact Hs.
  - split; [unfold token_count; simpl; lia|]. exists 0%nat.
    split; [simpl; lia | lia].
  - apply tokenize_init_buf_ok.
  - simpl. lia.
Qed.

Lemma token_array_fits_witness :
  tokens_fit 2
    (mkTok [mkToken StartTag "a"; mkToken Text "x"; mkToken EndTag "a"]
           4 8 (NUL :: replicate 1023 NUL) 0 5).
Proof.
  apply (token_array_fits "<a>x</a>" 2); [lia|].
  vm_compute. reflexivity.
Defined.

(** ** The capacity of the array of tokens *)

Section Capacity.

Variable html : list ascii.
Hypothesis html_small : strlen html < 1073741824.

Lemma push_token_with_capacity (ty : TokenType) (a : list ascii) (d : string)
    (st : tok_state) (c : Z) :
  strdup a = Ok d -> 0 < token_capacity st ->
  token_count st <= token_capacity st -> token_count st <= 1073741823 ->
  0 < c -> token_count st <= c ->
  same_but_capacity (push_token ty a st)
                    (push_token ty a (with_capacity c st)).
Proof.
  intros Hd Hcap Hcount Hsmall Hc Hcc.
  destruct (push_token_total ty a d st Hd Hcap Hcount Hsmall)
    as (c1 & H1 & _).
  destruct (push_token_total ty a d (with_capacity c st) Hd Hc Hcc Hsmall)
    as (c2 & H2 & Hc2 & Hcount2).
  rewrite H1, H2. cbn [same_but_capacity]. exists c2.
  split; [reflexivity|]. split; [exact Hc2|].
  unfold token_count in *. cbn [tokens with_capacity] in *.
  rewrite length_app. simpl. lia.
Qed.

Lemma flush_text_with_capacity (st : tok_state) (c : Z) :
  fits st -> pos st < 1073741824 -> 0 < c -> token_count st <= c ->
  same_but_capacity (flush_text st) (flush_text (with_capacity c st)).
Proof.
  intros Hfits Hpos Hc Hcc. pose proof (fits_buffer_pos _ Hfits) as Hbp.
  destruct Hfits as (Hbuf & Hlen & _ & Hcap & Hcount & Htok).
  rewrite flushed_length in Htok.
  unfold flush_text. cbn [with_capacity buffer_pos buffer tokens pos steps
                          token_capacity].
  destruct (Z.gtb_spec (buffer_pos st) 0) as [Hgt|Hle].
  2:{ exists c. split; [reflexivity|]. split; assumption. }
  destruct (Z.ltb_spec (buffer_pos st) 1024) as [Hin|Hout].
  - destruct Hbuf as (Hb0 & Hall & Hpl).
    rewrite array_set_in_range by lia. rewrite !bind_Ok.
    pose proof (push_token_with_capacity Text
                  (<[Z.to_nat (buffer_pos st) := NUL]> (buffer st))
                  (string_of_list_ascii (pending st))
                  (mkTok (tokens st) (token_capacity st) (pos st)
                     (<[Z.to_nat (buffer_pos st) := NUL]> (buffer st))
                     (buffer_pos st) (steps st)) c) as Hpush.
    unfold with_capacity in Hpush.
    cbn [buffer_pos buffer tokens pos steps token_capacity] in Hpush.
    unfold token_count in *. cbn [tokens] in Hpush.
    assert (Hdup : strdup (<[Z.to_nat (buffer_pos st) := NUL]> (buffer st))
                   = Ok (string_of_list_ascii (pending st)))
      by (apply strdup_pending; [repeat split; auto | lia]).
    specialize (Hpush Hdup Hcap Hcount ltac:(lia) Hc Hcc).
    destruct (push_token Text _ _) as [s1|e1] eqn:E1;
      destruct (push_token Text _ (mkTok _ c _ _ _ _)) as [s2|e2] eqn:E2;
      cbn [same_but_capacity] in Hpush; try contradiction.
    + destruct Hpush as (c2 & -> & Hc2 & Hcount2).
      apply push_token_Ok in E1 as (d & c1 & _ & ->).
      rewrite !bind_Ok. cbn [with_capacity buffer tokens pos steps
                               token_capacity buffer_pos].
      rewrite array_set_in_range by (rewrite length_insert; lia).
      rewrite !bind_Ok. exists c2. split; [reflexivity|].
      split; [exact Hc2 | exact Hcount2].
    + subst e2. simpl. reflexivity.
  - rewrite array_set_outside by lia. simpl. reflexivity.
Qed.

Lemma flush_remaining_with_capacity (st : tok_state) (c : Z) :
  fits st -> pos st <= 1073741824 -> 0 < c -> token_count st <= c ->
  same_but_capacity (flush_remaining st)
                    (flush_remaining (with_capacity c st)).
Proof.
  intros Hfits Hpos Hc Hcc. pose proof (fits_buffer_pos _ Hfits) as Hbp.
  destruct Hfits as (Hbuf & Hlen & _ & Hcap & Hcount & Htok).
  rewrite flushed_length in Htok.
  unfold flush_remaining. cbn [with_capacity buffer_pos buffer tokens pos
                               steps token_capacity].
  destruct (Z.gtb_spec (buffer_pos st) 0) as [Hgt|Hle].
  2:{ exists c. split; [reflexivity|]. split; assumption. }
  destruct (Z.ltb_spec (buffer_pos st) 1024) as [Hin|Hout].
  - destruct Hbuf as (Hb0 & Hall & Hpl).
    rewrite array_set_in_range by lia. rewrite !bind_Ok.
    pose proof (push_token_with_capacity Text
                  (<[Z.to_nat (buffer_pos st) := NUL]> (buffer st))
                  (string_of_list_ascii (pending st))
                  (mkTok (tokens st) (token_capacity st) (pos st)
                     (<[Z.to_nat (buffer_pos st) := NUL]> (buffer st))
                     (buffer_pos st) (steps st)) c) as Hpush.
    unfold with_capacity in Hpush.
    cbn [buffer_pos buffer tokens pos steps token_capacity] in Hpush.
    apply Hpush; try assumption.
    + apply strdup_pending; [repeat split; auto | lia].
    + unfold token_count in *. cbn [tokens]. lia.
  - rewrite array_set_outside by lia. simpl. reflexivity.
Qed.

Lemma tokenize_body_with_capacity (st : tok_state) (c : Z) :
  fits st -> 0 <= pos st < strlen html -> 0 < c -> token_count st <= c ->
  same_but_capacity (tokenize_body html st)
                    (tokenize_body html (with_capacity c st)).
Proof.
  intros Hfits Hpos Hc Hcc.
  pose proof (fits_buffer_pos _ Hfits) as Hbpos.
  pose proof Hfits as (Hbuf & Hlen & Hbp & Hcap & Hcount & Htok).
  pose proof (flushed_bound st) as Hfl.
  unfold tokenize_body. cbn [with_capacity pos].
  destruct (Ascii.eqb (char_at html (pos st)) "<"%char).
  - pose proof (flush_text_with_capacity st c Hfits ltac:(lia) Hc Hcc) as Hrel.
    pose proof (flush_text_overrun st Hfits ltac:(lia)) as Hflush.
    destruct (flush_text st) as [st1|e1] eqn:E1;
      destruct (flush_text (with_capacity c st)) as [st2|e2] eqn:E2;
      cbn [same_but_capacity] in Hrel; try contradiction.
    2:{ subst e2. simpl. reflexivity. }
    destruct Hrel as (c' & -> & Hc' & Hcc').
    destruct Hflush as (Hl1 & Hc1 & Hk1).
    destruct (flush_text_Ok _ _ Hbuf E1) as (Ht1 & Hp1 & _ & Hb1).
    rewrite !bind_Ok. cbv beta.
    cbn [with_capacity pos tokens token_capacity buffer buffer_pos steps].
    rewrite Hp1.
    set (is_end_tag := (pos st + 1 <? strlen html)
                       && Ascii.eqb (char_at html (pos st + 1)) "/"%char).
    set (p1 := pos st + (if is_end_tag then 2 else 1)).
    assert (Hp1' : pos st < p1 <= strlen html).
    { subst p1 is_end_tag.
      destruct (Z.ltb_spec (pos st + 1) (strlen html)); simpl;
        try destruct (Ascii.eqb _ "/"%char); lia. }
    pose proof (scan_tag_name_overrun html (Z.to_nat (strlen html)) p1 0
                  (replicate 256 NUL) ltac:(lia) ltac:(lia)
                  (length_replicate _ _) ltac:(lia)) as Hscan.
    destruct (scan_tag_name (Z.to_nat (strlen html)) html p1 0
                (replicate 256 NUL)) as [[[p2 tag_pos] tag_name]|e]
      eqn:Escan; [|simpl; reflexivity].
    destruct Hscan as [Hlt Htp]. cbn [fst snd] in Hlt, Htp.
    rewrite !bind_Ok. cbv beta iota.
    apply scan_tag_name_Ok in Escan as (H1 & H2 & _ & _ & H5); try lia.
    change (take (Z.to_nat 0) (replicate 256 NUL)) with (@nil ascii) in H5.
    simpl in H5.
    destruct (Z.ltb_spec tag_pos 256) as [Hin|Hout].
    + rewrite array_set_in_range by lia. rewrite !bind_Ok.
      apply (push_token_with_capacity
               (if is_end_tag then EndTag else StartTag)
               (<[Z.to_nat tag_pos := NUL]> tag_name)
               (string_of_list_ascii (slice html p1 p2))
               (mkTok (tokens st1) (token_capacity st1) (p2 + 1)
                  (buffer st1) (buffer_pos st1) (steps st1 + 1 + tag_pos)) c').
      * rewrite strdup_insert; [rewrite H5; reflexivity | lia |].
        rewrite H5. apply slice_not_NUL; lia.
      * exact Hc1.
      * exact Hk1.
      * unfold token_count in *. simpl. rewrite Ht1, length_app. lia.
      * exact Hc'.
      * exact Hcc'.
    + rewrite array_set_outside by lia. simpl. reflexivity.
  - cbn [with_capacity buffer buffer_pos tokens token_capacity steps].
    destruct (Z.ltb_spec (buffer_pos st) 1024) as [Hin|Hout].
    + rewrite array_set_in_range by lia. rewrite !bind_Ok.
      exists c. split; [reflexivity|]. split; [exact Hc | exact Hcc].
    + rewrite array_set_outside by lia. simpl. reflexivity.
Qed.

Lemma fits_with_capacity (st : tok_state) (c : Z) :
  fits st -> 0 < c -> token_count st <= c -> fits (with_capacity c st).
Proof.
  intros (Hbuf & Hlen & Hbp & _ & _ & Htok) Hc Hcc.
  split; [exact Hbuf|]. split; [exact Hlen|]. split; [exact Hbp|].
  split; [exact Hc|]. split; [exact Hcc | exact Htok].
Qed.

Lemma tokenize_loop_with_capacity (fuel : nat) (st : tok_state) (c : Z) :
  fits st -> 0 <= pos st <= strlen html + 1 ->
  (Z.to_nat (strlen html - pos st) <= fuel)%nat ->
  0 < c -> token_count st <= c ->
  same_but_capacity (tokenize_loop fuel html st)
                    (tokenize_loop fuel html (with_capacity c st)).
Proof.
  revert st c.
  induction fuel as [|fuel IH]; intros st c Hfits Hpos Hf Hc Hcc; simpl;
    destruct (Z.ltb_spec (pos st) (strlen html)) as [Hlt|Hge];
    try (exfalso; lia);
    try (exists c; split; [reflexivity|]; split; assumption).
  pose proof (tokenize_body_with_capacity st c Hfits ltac:(lia) Hc Hcc)
    as Hrel.
  pose proof (tokenize_body_overrun html html_small st Hfits ltac:(lia))
    as Hbody.
  destruct (tokenize_body html st) as [st1|e1] eqn:E1;
    destruct (tokenize_body html (with_capacity c st)) as [st2|e2] eqn:E2;
    cbn [same_but_capacity] in Hrel; try contradiction.
  2:{ subst e2. simpl. reflexivity. }
  destruct Hrel as (c' & -> & Hc' & Hcc'). rewrite !bind_Ok.
  destruct Hfits as (Hbuf & _).
  assert (Hpost : body_post html st st1)
    by (apply tokenize_body_Ok; auto; lia).
  pose proof (body_post_advances html _ _ Hpost) as Hadv.
  apply IH; [exact Hbody | | lia | exact Hc' | exact Hcc'].
  split; [lia|]. unfold body_post in Hpost.
  destruct (Ascii.eqb (char_at html (pos st)) "<"%char).
  - destruct Hpost as (p2 & Hp2 & _ & _ & _ & -> & _). lia.
  - destruct Hpost as (_ & -> & _). lia.
Qed.

Lemma tokenize_run_with_capacity (c1 c2 : Z) :
  0 < c1 -> 0 < c2 ->
  same_but_capacity (tokenize_run html c1) (tokenize_run html c2).
Proof.
  intros Hc1 Hc2. unfold tokenize_run.
  pose proof (strlen_nonneg html) as Hn.
  assert (Hinit : fits (tokenize_init c1)).
  { repeat split; simpl; try lia; try constructor;
      unfold token_count; simpl; lia. }
  pose proof (tokenize_loop_with_capacity (Z.to_nat (strlen html))
                (tokenize_init c1) c2 Hinit ltac:(simpl; lia)
                ltac:(simpl; lia) Hc2 ltac:(unfold token_count; simpl; lia))
    as Hrel.
  pose proof (tokenize_loop_overrun html html_small (Z.to_nat (strlen html))
                (tokenize_init c1) Hinit ltac:(simpl; lia) ltac:(simpl; lia))
    as Hloop.
  change (with_capacity c2 (tokenize_init c1)) with (tokenize_init c2) in Hrel.
  destruct (tokenize_loop _ html (tokenize_init c1)) as [st1|e1];
    destruct (tokenize_loop _ html (tokenize_init c2)) as [st2|e2];
    cbn [same_but_capacity] in Hrel; try contradiction.
  2:{ subst e2. simpl. reflexivity. }
  destruct Hrel as (c' & -> & Hc' & Hcc'). rewrite !bind_Ok.
  destruct Hloop as [Hfits Hpos].
  apply flush_remaining_with_capacity; [exact Hfits | lia | exact Hc' |].
  exact Hcc'.
Qed.

End Capacity.

(** X20: the capacity the caller passes has no influence on the result.
    On an input of less than 2^30 bytes, [tokenize] returns the same tokens
    for every positive [token_capacity], or it fails in the same way. *)
Theorem tokens_do_not_depend_on_capacity (html : string) (c1 c2 : Z) :
  strlen (list_ascii_of_string html) < 1073741824 -> 0 < c1 -> 0 < c2 ->
  tokenize html c1 = tokenize html c2.
Proof.
  intros Hsmall Hc1 Hc2. unfold tokenize.
  pose proof (tokenize_run_with_capacity _ Hsmall c1 c2 Hc1 Hc2) as Hrel.
  destruct (tokenize_run (list_ascii_of_string html) c1) as [st1|e1];
    destruct (tokenize_run (list_ascii_of_string html) c2) as [st2|e2];
    cbn [same_but_capacity] in Hrel; try contradiction.
  - destruct Hrel as (c' & -> & _). reflexivity.
  - subst e2. reflexivity.
Qed.

Lemma tokens_do_not_depend_on_capacity_witness :
  tokenize "<a>x</a>" 1 = tokenize "<a>x</a>" 16.
Proof.
  apply tokens_do_not_depend_on_capacity; [vm_compute; reflexivity | lia | lia].
Defined.

(** * The running time of the tokenizer *)

Section StrlenCost.

Variable html : list ascii.





End StrlenCost.

(** ** Inputs of any length on which the tokenizer is defined *)

Section EmptyTags.






Variable k : nat.
Hypothesis k_small : 2 * Z.of_nat k < 1073741824.




End EmptyTags.



